(** * Math_Library/prime.py: sieve, Miller-Rabin, Moebius table,
      Pollard rho, prime decomposition and divisor enumeration.

    Shallow embedding of the Python module.  Python integers are [Z]
    (Python's [//] and [%] are floor division, as [Z.div] and [Z.modulo]
    are); numpy arrays are lists updated through strided slices; a call
    either returns, raises, or is still running when the fuel given to
    its [while] loops is spent. *)

From Stdlib Require Import ZArith Znumtheory List Lia Bool Permutation.
From Stdlib Require Import Sorting.Sorted.
Import ListNotations.
Local Open Scope Z_scope.

(** ** Outcomes and the two monads *)

Inductive exn : Type :=
| IndexError
| ZeroDivisionError
| ValueError.

Inductive outcome (A : Type) : Type :=
| Ret (a : A)
| Raise (e : exn)
| OutOfFuel.

Arguments Ret {A} a.
Arguments Raise {A} e.
Arguments OutOfFuel {A}.

Definition obind {A B : Type} (m : outcome A) (k : A -> outcome B) : outcome B :=
  match m with
  | Ret a => k a
  | Raise e => Raise e
  | OutOfFuel => OutOfFuel
  end.

(** The random source of the [random] module: a stream of raw draws and
    the position of the next one. *)
Definition rng : Type := nat -> Z.

Definition M (A : Type) : Type := rng -> nat -> outcome (A * nat).

Definition ret {A : Type} (a : A) : M A := fun _ i => Ret (a, i).

Definition bind {A B : Type} (m : M A) (k : A -> M B) : M B :=
  fun r i =>
    match m r i with
    | Ret (a, j) => k a r j
    | Raise e => Raise e
    | OutOfFuel => OutOfFuel
    end.

Definition lift {A : Type} (m : outcome A) : M A :=
  fun _ i =>
    match m with
    | Ret a => Ret (a, i)
    | Raise e => Raise e
    | OutOfFuel => OutOfFuel
    end.

(** What a call returns, forgetting how many draws it consumed. *)
Definition result {A : Type} (o : outcome (A * nat)) : outcome A :=
  match o with
  | Ret (a, _) => Ret a
  | Raise e => Raise e
  | OutOfFuel => OutOfFuel
  end.

(** A whole call, started at the first draw of the source [r]. *)
Definition run {A : Type} (m : M A) (r : rng) : outcome A := result (m r O).

Declare Scope py_scope.
Delimit Scope py_scope with py.
Notation "x <- m ;; k" := (bind m (fun x => k))
  (at level 61, m at next level, right associativity) : py_scope.
Notation "' pat <- m ;; k" := (bind m (fun x => match x with pat => k end))
  (at level 61, pat pattern, m at next level, right associativity) : py_scope.
Notation "x <~ m ;; k" := (obind m (fun x => k))
  (at level 61, m at next level, right associativity) : py_scope.
Notation "' pat <~ m ;; k" := (obind m (fun x => match x with pat => k end))
  (at level 61, pat pattern, m at next level, right associativity) : py_scope.
Local Open Scope py_scope.

(** [random.randint(a, b)]: a draw in the closed range [a..b]; the raw
    draw is reduced into the range, so that every value of the range is
    the outcome of some source. *)
Definition randint (a b : Z) : M Z :=
  fun r i =>
    if b <? a then Raise ValueError
    else Ret (a + r i mod (b - a + 1), S i).

(** [random.randrange(a, b)]: a draw in the half-open range [a..b-1]. *)
Definition randrange (a b : Z) : M Z :=
  fun r i =>
    if b <=? a then Raise ValueError
    else Ret (a + r i mod (b - a), S i).

(** ** The arithmetic provider ([from base import cprod, gcd, sqrt, isqrt]) *)

(** Modelled from the spec: [base.sqrt] under [int(...)], the floor of the
    square root ("integer square root (floor)"). *)
Definition int_sqrt (n : Z) : Z := Z.sqrt n.

(** Modelled from the spec: [base.isqrt], the floor of the square root. *)
Definition isqrt (n : Z) : Z := Z.sqrt n.

(** Modelled from the spec: [base.gcd], the "exact integer gcd". *)
Definition gcd (a b : Z) : Z := Z.gcd a b.

(** Modelled from the spec: [base.cprod], the product of a sequence. *)
Definition cprod (l : list Z) : Z := fold_left Z.mul l 1.

(** Python's three-argument [pow], by square and multiply, for a positive
    exponent. *)
Fixpoint pow_mod_pos (a : Z) (e : positive) (m : Z) : Z :=
  match e with
  | xH => a mod m
  | xO e' => let r := pow_mod_pos a e' m in (r * r) mod m
  | xI e' => let r := pow_mod_pos a e' m in ((r * r) mod m * a) mod m
  end.

(** [pow(a, e, m)]; the module never passes a negative exponent. *)
Definition pow_mod (a e m : Z) : Z :=
  match e with
  | Z0 => 1 mod m
  | Zpos e' => pow_mod_pos a e' m
  | Zneg _ => 0
  end.

(** ** Lists as Python lists and numpy arrays *)

(** [range(lo, hi)] *)
Definition range (lo hi : Z) : list Z :=
  map (fun k => lo + Z.of_nat k) (seq 0 (Z.to_nat (hi - lo))).

(** [a[i]] for an index [i >= 0] *)
Definition getitem {A : Type} (l : list A) (i : Z) : outcome A :=
  match nth_error l (Z.to_nat i) with
  | Some x => Ret x
  | None => Raise IndexError
  end.

(** [a[start::step] = f(a[start::step])] for [0 <= start] and [0 < step]:
    the cells at [start], [start + step], ... below the length are
    updated; [j] is the index of the head of [l]. *)
Fixpoint slice_update_from {A : Type} (j start step : Z) (f : A -> A)
    (l : list A) : list A :=
  match l with
  | [] => []
  | x :: t =>
      (if (start <=? j) && ((j - start) mod step =? 0) then f x else x)
        :: slice_update_from (j + 1) start step f t
  end.

Definition slice_update {A : Type} (start step : Z) (f : A -> A)
    (l : list A) : list A :=
  slice_update_from 0 start step f l.

Definition slice_assign {A : Type} (start step : Z) (v : A)
    (l : list A) : list A :=
  slice_update start step (fun _ => v) l.

(** [np.ones(size)] *)
Definition np_ones {A : Type} (one : A) (size : Z) : outcome (list A) :=
  if size <? 0 then Raise ValueError
  else Ret (repeat one (Z.to_nat size)).

(** [np.nonzero(a)[0]]: the indices of the true cells, ascending; [j] is
    the index of the head of [l]. *)
Fixpoint nonzero_from (j : Z) (l : list bool) : list Z :=
  match l with
  | [] => []
  | b :: t => if b then j :: nonzero_from (j + 1) t else nonzero_from (j + 1) t
  end.

Definition nonzero (l : list bool) : list Z := nonzero_from 0 l.

(** ** [_primes_list] *)

(** The body of [for i in range(1, int(sqrt(n))//3+1)]; the sieve is an
    array of [np.bool]. *)
Definition sieve_step (sieve : list bool) (i : Z) : outcome (list bool) :=
  b <~ getitem sieve i ;;
  if b : bool then
    let k := Z.lor (3 * i + 1) 1 in
    let sieve := slice_assign (k * k / 3) (2 * k) false sieve in
    let sieve :=
      slice_assign (k * (k - 2 * Z.land i 1 + 4) / 3) (2 * k) false sieve in
    Ret sieve
  else Ret sieve.

(** The [for] loop over the indices [idxs]. *)
Fixpoint sieve_loop (sieve : list bool) (idxs : list Z) : outcome (list bool) :=
  match idxs with
  | [] => Ret sieve
  | i :: idxs' => s <~ sieve_step sieve i ;; sieve_loop s idxs'
  end.

(** [_primes_list(n)]: the wheel sieve modulo 6; [2] and [3] are put in
    front of the numbers read off the cells after the first. *)
Definition _primes_list (n : Z) : outcome (list Z) :=
  sieve <~ np_ones true (n / 3 + (if n mod 6 =? 2 then 1 else 0)) ;;
  sieve <~ sieve_loop sieve (range 1 (int_sqrt n / 3 + 1)) ;;
  Ret (2 :: 3 :: map (fun j => Z.lor (3 * j + 1) 1) (tl (nonzero sieve))).

(** [primes_list = _primes_list] (the module-level alias). *)
Definition primes_list := _primes_list.

(** ** Miller-Rabin *)

(** [while n % 2 == 0: n //= 2; exponentOfTwo += 1] *)
Fixpoint _mr_decompose_loop (fuel : nat) (exponentOfTwo n : Z)
    : outcome (Z * Z) :=
  match fuel with
  | O => OutOfFuel
  | S fuel' =>
      if n mod 2 =? 0
      then _mr_decompose_loop fuel' (exponentOfTwo + 1) (n / 2)
      else Ret (exponentOfTwo, n)
  end.

(** [_mr_decompose(n)]: the pair [(exponentOfTwo, n)] when the loop ends. *)
Definition _mr_decompose (fuel : nat) (n : Z) : outcome (Z * Z) :=
  _mr_decompose_loop fuel 0 n.

(** [for _ in range(exponent)]: square, and stop on [p - 1]. *)
Fixpoint _mr_isWitness_loop (k : nat) (possibleWitness p : Z) : bool :=
  match k with
  | O => true
  | S k' =>
      let possibleWitness := pow_mod possibleWitness 2 p in
      if possibleWitness =? p - 1 then false
      else _mr_isWitness_loop k' possibleWitness p
  end.

(** [_mr_isWitness(possibleWitness, p, exponent, remainder)]; the modulus
    [p] is at least 4 in every call made by [_is_prime]. *)
Definition _mr_isWitness (possibleWitness p exponent remainder : Z) : bool :=
  let possibleWitness := pow_mod possibleWitness remainder p in
  if (possibleWitness =? 1) || (possibleWitness =? p - 1) then false
  else _mr_isWitness_loop (Z.to_nat exponent) possibleWitness p.

(** [for _ in range(accuracy)]: draw a base, answer [False] on a witness. *)
Fixpoint _is_prime_trials (k : nat) (p exponent remainder : Z) : M bool :=
  match k with
  | O => ret true
  | S k' =>
      possibleWitness <- randint 2 (p - 2) ;;
      if _mr_isWitness possibleWitness p exponent remainder then ret false
      else _is_prime_trials k' p exponent remainder
  end.

(** [_is_prime(p, accuracy)] *)
Definition _is_prime (fuel : nat) (p accuracy : Z) : M bool :=
  if p <? 2 then ret false
  else if (p =? 2) || (p =? 3) then ret true
  else
    '(exponent, remainder) <- lift (_mr_decompose fuel (p - 1)) ;;
    _is_prime_trials (Z.to_nat accuracy) p exponent remainder.

(** [is_prime = _is_prime] when [gmpy2] is not importable; the default
    [accuracy] is 100. *)
Definition is_prime (fuel : nat) (p : Z) : M bool := _is_prime fuel p 100.

(** ** [_mobius_list] *)

(** [a[i] = v] at position [i] of the list *)
Fixpoint setitem_nat {A : Type} (l : list A) (i : nat) (v : A)
    : outcome (list A) :=
  match l, i with
  | [], _ => Raise IndexError
  | _ :: t, O => Ret (v :: t)
  | x :: t, S i' => t' <~ setitem_nat t i' v ;; Ret (x :: t')
  end.

(** [a[i] = v] for an integer index [0 <= i] *)
Definition setitem {A : Type} (l : list A) (i : Z) (v : A) : outcome (list A) :=
  setitem_nat l (Z.to_nat i) v.

(** [mlist[::p] *= -p; mlist[::p*p] = 0].  The cells are [np.int64];
    they are kept as unbounded integers here, and [mobius_no_overflow]
    below shows that no value held or written leaves the [int64] range
    as long as [n < 2^63]. *)
Definition mobius_mark (mlist : list Z) (p : Z) : list Z :=
  let mlist := slice_update 0 p (fun v => v * - p) mlist in
  slice_assign 0 (p * p) 0 mlist.

(** The body of [for i in range(1, n+1)]. *)
Definition mobius_normalise (mlist : list Z) (i : Z) : outcome (list Z) :=
  v <~ getitem mlist i ;;
  if v =? 0 then Ret mlist
  else
    mlist <~ (if Z.abs v <? i then setitem mlist i (v * -1) else Ret mlist) ;;
    v <~ getitem mlist i ;;
    setitem mlist i (if 0 <? v then 1 else -1).

(** The second loop of [_mobius_list]. *)
Fixpoint mobius_normalise_loop (mlist : list Z) (idxs : list Z)
    : outcome (list Z) :=
  match idxs with
  | [] => Ret mlist
  | i :: idxs' =>
      m <~ mobius_normalise mlist i ;; mobius_normalise_loop m idxs'
  end.

(** [_mobius_list(n)] *)
Definition _mobius_list (n : Z) : outcome (list Z) :=
  plist <~ primes_list (isqrt n + 1) ;;
  mlist <~ np_ones 1 (n + 1) ;;
  let mlist := fold_left mobius_mark plist mlist in
  mobius_normalise_loop mlist (range 1 (n + 1)).

(** ** [_pollard_rho] *)

(** [f = lambda x, c: x*x + c] *)
Definition rho_f (x c : Z) : Z := x * x + c.

(** [while d == 1 and d != n]: the tortoise [x] moves once and the hare
    [y] twice; the loop state is [(x, y, d)]. *)
Fixpoint _pollard_rho_loop (fuel : nat) (n c x y d : Z) : outcome Z :=
  match fuel with
  | O => OutOfFuel
  | S fuel' =>
      if (d =? 1) && negb (d =? n) then
        if n =? 0 then Raise ZeroDivisionError
        else
          let x := rho_f x c mod n in
          let y := rho_f y c mod n in
          let y := rho_f y c mod n in
          _pollard_rho_loop fuel' n c x y (gcd (y - x) n)
      else Ret d
  end.

(** [_pollard_rho(n, rand)]: seeds [(1, 1)], or two draws from
    [randrange(2, 1e6)]. *)
Definition _pollard_rho (fuel : nat) (n : Z) (rand : bool) : M Z :=
  '(x, c) <- (if negb rand then ret (1, 1)
              else x <- randrange 2 1000000 ;;
                   c <- randrange 2 1000000 ;;
                   ret (x, c)) ;;
  lift (_pollard_rho_loop fuel n c x x 1).

(** ** [prime_divisor_decomposition] *)

(** [P10K = primes_list(10000)], computed when the module is loaded. *)
Definition P10K : list Z :=
  Eval vm_compute in
    match primes_list 10000 with
    | Ret l => l
    | _ => []
    end.

(** [n in P10Kset] *)
Definition in_P10Kset (n : Z) : bool := existsb (Z.eqb n) P10K.

(** [while n % p == 0: n //= p; c += 1], returning the final [(n, c)]. *)
Fixpoint strip_factor (fuel : nat) (n p c : Z) : outcome (Z * Z) :=
  match fuel with
  | O => OutOfFuel
  | S fuel' =>
      if p =? 0 then Raise ZeroDivisionError
      else if n mod p =? 0 then strip_factor fuel' (n / p) p (c + 1)
      else Ret (n, c)
  end.

(** The state of the decomposition: the cofactor [n] and the two lists. *)
Record dstate : Type := mk_dstate {
  ds_n : Z;
  ds_dlist : list Z;
  ds_clist : list Z
}.

(** [list(zip(dlist, clist))] *)
Definition zip_lists (s : dstate) : list (Z * Z) :=
  combine (ds_dlist s) (ds_clist s).

(** [dlist.append(p); clist.append(c)], the cofactor being [n]. *)
Definition append_factor (s : dstate) (n p c : Z) : dstate :=
  mk_dstate n (ds_dlist s ++ [p]) (ds_clist s ++ [c]).

(** The [for p in iter(P10K)] loop: [inl] is an early [return], [inr] the
    state on leaving the loop. *)
Fixpoint trial_division (fuel : nat) (ps : list Z) (s : dstate)
    : outcome (list (Z * Z) + dstate) :=
  match ps with
  | [] => Ret (inr s)
  | p :: ps' =>
      '(n, c) <~ strip_factor fuel (ds_n s) p 0 ;;
      let s := if c =? 0 then mk_dstate n (ds_dlist s) (ds_clist s)
               else append_factor s n p c in
      if n =? 1 then Ret (inl (zip_lists s))
      else if in_P10Kset n then Ret (inl (zip_lists (append_factor s n n 1)))
      else trial_division fuel ps' s
  end.

(** The final [while 1] loop; [k] bounds its iterations. *)
Fixpoint rho_phase (k fuel : nat) (rand : bool) (s : dstate)
    : M (list (Z * Z)) :=
  match k with
  | O => fun _ _ => OutOfFuel
  | S k' =>
      let n := ds_n s in
      if n =? 1 then ret (zip_lists s)
      else
        b <- is_prime fuel n ;;
        if b : bool then ret (zip_lists (append_factor s n n 1))
        else
          p <- _pollard_rho fuel n rand ;;
          '(n', c) <- lift (strip_factor fuel n p 0) ;;
          rho_phase k' fuel rand (append_factor s n' p c)
  end.

(** [prime_divisor_decomposition(n, rand)]: strip the factor 2, divide by
    the primes of the table, then split what is left with Pollard's rho. *)
Definition prime_divisor_decomposition (fuel : nat) (n : Z) (rand : bool)
    : M (list (Z * Z)) :=
  '(n, c) <- lift (strip_factor fuel n 2 0) ;;
  let s := if c =? 0 then mk_dstate n [] [] else mk_dstate n [2] [c] in
  t <- lift (trial_division fuel P10K s) ;;
  match t with
  | inl l => ret l
  | inr s => rho_phase fuel fuel rand s
  end.

(** ** [all_divisors] *)

(** Python's [sorted] on integers. *)
Fixpoint insert_sorted (x : Z) (l : list Z) : list Z :=
  match l with
  | [] => [x]
  | y :: t => if x <=? y then x :: l else y :: insert_sorted x t
  end.

Definition sorted (l : list Z) : list Z := fold_right insert_sorted [] l.

(** [cprod([primefactors[i][0]**clist[i] for i in range(d)])] *)
Definition divisor_of (primefactors : list (Z * Z)) (clist : list Z) : Z :=
  cprod (map (fun '((p, _), c) => p ^ c) (combine primefactors clist)).

(** The inner [while 1]: advance the counters from position [k]; [None]
    when the last counter carries out. *)
Fixpoint odometer (fuel : nat) (primefactors : list (Z * Z)) (clist : list Z)
    (k : Z) : outcome (option (list Z)) :=
  match fuel with
  | O => OutOfFuel
  | S fuel' =>
      ck <~ getitem clist k ;;
      clist <~ setitem clist k (ck + 1) ;;
      pk <~ getitem primefactors k ;;
      if ck + 1 <=? snd pk then Ret (Some clist)
      else
        clist <~ setitem clist k 0 ;;
        let k := k + 1 in
        if Z.of_nat (length primefactors) <=? k then Ret None
        else odometer fuel' primefactors clist k
  end.

(** The outer [while 1]; [j] bounds its iterations. *)
Fixpoint enumerate (j fuel : nat) (primefactors : list (Z * Z))
    (clist output : list Z) : outcome (list Z) :=
  match j with
  | O => OutOfFuel
  | S j' =>
      let output := output ++ [divisor_of primefactors clist] in
      next <~ odometer fuel primefactors clist 0 ;;
      match next with
      | None => Ret (sorted output)
      | Some clist => enumerate j' fuel primefactors clist output
      end
  end.

(** [all_divisors(n, rand)] *)
Definition all_divisors (fuel : nat) (n : Z) (rand : bool) : M (list Z) :=
  if n =? 1 then ret [1]
  else
    primefactors <- prime_divisor_decomposition fuel n rand ;;
    let d := length primefactors in
    lift (enumerate fuel fuel primefactors (repeat 0 d) []).

(** * Specification and proof vocabulary *)

(** Two random sources for concrete runs. *)
Definition no_draws : rng := fun _ => 0.
Definition ones : rng := fun _ => 1.

(** The product of [p^e] over a factorization. *)
Definition factor_product (l : list (Z * Z)) : Z :=
  fold_right (fun pe acc => fst pe ^ snd pe * acc) 1 l.

(** A factorization as the data model wants it: prime first components,
    exponents at least 1, first components strictly increasing. *)
Definition canonical_factorization (l : list (Z * Z)) : Prop :=
  Forall (fun pe => Z.prime (fst pe) /\ 1 <= snd pe) l
  /\ StronglySorted Z.lt (map fst l).

(** Pairs as every run produces them: a factor from 2 on with an
    exponent from 1 on. *)
Definition good_pairs (l : list (Z * Z)) : Prop :=
  Forall (fun pe => 2 <= fst pe /\ 1 <= snd pe) l.

(** What the decomposition maintains: the cofactor is positive, the two
    lists go in step, factors times cofactor is the input, and every
    recorded pair is a factor with a positive exponent. *)
Definition decomp_inv (n0 : Z) (s : dstate) : Prop :=
  1 <= ds_n s
  /\ length (ds_dlist s) = length (ds_clist s)
  /\ factor_product (zip_lists s) * ds_n s = n0
  /\ good_pairs (zip_lists s).

(** Cell [j] stands for [(3 * j + 1) | 1]: 1, 5, 7, 11, 13, ... *)
Definition cell_value (j : Z) : Z := Z.lor (3 * j + 1) 1.

(** The length of the sieve for the bound [n]. *)
Definition sieve_size (n : Z) : Z := n / 3 + (if n mod 6 =? 2 then 1 else 0).

(** Cell [j] of an array, when there is one. *)
Definition cell {A : Type} (l : list A) (j : Z) : option A :=
  nth_error l (Z.to_nat j).

(** Whether index [j] belongs to the slice [start::step]. *)
Definition in_slice (start step j : Z) : bool :=
  (start <=? j) && ((j - start) mod step =? 0).

(** Whether round [i] of the sieve clears cell [j]. *)
Definition marks (i j : Z) : bool :=
  let k := cell_value i in
  in_slice (k * k / 3) (2 * k) j
  || in_slice (k * (k - 2 * Z.land i 1 + 4) / 3) (2 * k) j.

(** Cell [j] stands for a product of two numbers from 5 on. *)
Definition composite_cell (j : Z) : Prop :=
  exists k m, 5 <= k <= m /\ cell_value j = k * m.

(** [processed] tells which rounds have been run. *)
Record sieve_inv (n : Z) (processed : Z -> Prop) (sieve : list bool) : Prop := {
  inv_length : Z.of_nat (length sieve) = sieve_size n;
  inv_sound : forall j, 0 <= j -> cell sieve j = Some false -> composite_cell j;
  inv_complete : forall i j m,
      processed i -> Z.prime (cell_value i) ->
      0 <= j < sieve_size n -> cell_value i <= m ->
      cell_value j = cell_value i * m ->
      cell sieve j = Some false
}.

(** The two slice assignments of round [i]. *)
Definition round (sieve : list bool) (i : Z) : list bool :=
  let k := cell_value i in
  slice_assign (k * (k - 2 * Z.land i 1 + 4) / 3) (2 * k) false
    (slice_assign (k * k / 3) (2 * k) false sieve).

(** The product of a list of integers. *)
Definition list_product (l : list Z) : Z := fold_right Z.mul 1 l.

(** What [mlist[::p] *= -p; mlist[::p*p] = 0] does to cell [i]. *)
Definition mark_cell (p i v : Z) : Z :=
  if i mod (p * p) =? 0 then 0
  else if i mod p =? 0 then v * - p
  else v.

(** What the whole first loop, over the primes [ps], leaves in cell [i]. *)
Definition cell_fold (ps : list Z) (i v : Z) : Z :=
  fold_left (fun v p => mark_cell p i v) ps v.

(** What the second loop does to cell [i]. *)
Definition normalise (i v : Z) : Z :=
  if v =? 0 then v
  else if 0 <? (if Z.abs v <? i then v * -1 else v) then 1 else -1.

(** Membership in a list of integers, as a boolean. *)
Definition mem (x : Z) (l : list Z) : bool := existsb (Z.eqb x) l.

(** [n] has at most one prime factor from 10000 on, counted with
    multiplicity. *)
Definition one_large_prime (n : Z) : Prop :=
  forall a b, Z.prime a -> Z.prime b -> 10000 <= a -> 10000 <= b ->
    ~ (a * b | n).

(** What trial division maintains, [ps] being the primes still to try:
    the recorded factors are primes below 10000, increasing, stripped
    from the cofactor and not above the primes to come, and every prime
    factor of the cofactor is among the primes to come or above the table. *)
Record trial_inv (n0 : Z) (ps : list Z) (s : dstate) : Prop := {
  t_inv : decomp_inv n0 s;
  t_pairs : Forall (fun pe => Z.prime (fst pe) /\ 1 <= snd pe) (zip_lists s);
  t_sorted : StronglySorted Z.lt (ds_dlist s);
  t_stripped : forall d, In d (ds_dlist s) -> ~ (d | ds_n s);
  t_below : forall d p, In d (ds_dlist s) -> In p ps -> d <= p;
  t_small : forall d, In d (ds_dlist s) -> d < 10000;
  t_cofactor : forall q, Z.prime q -> (q | ds_n s) -> 10000 <= q \/ In q ps
}.

(** What the final loop returns when the cofactor is 1 or prime. *)
Definition final_pairs (s : dstate) : list (Z * Z) :=
  if ds_n s =? 1 then zip_lists s
  else zip_lists (append_factor s (ds_n s) (ds_n s) 1).

(** The successor of the counters [cs] under the maxima [es], least
    significant first; [None] when the last counter carries out. *)
Fixpoint next_counter (es cs : list Z) : option (list Z) :=
  match es, cs with
  | e :: es', c :: cs' =>
      if c + 1 <=? e then Some ((c + 1) :: cs')
      else match es' with
           | [] => None
           | _ :: _ => option_map (cons 0) (next_counter es' cs')
           end
  | _, _ => None
  end.

(** The rank of the counters [cs] in the mixed radix [es]. *)
Fixpoint counter_value (es cs : list Z) : Z :=
  match es, cs with
  | e :: es', c :: cs' => c + (e + 1) * counter_value es' cs'
  | _, _ => 0
  end.

(** The number of counter values under the maxima [es]. *)
Fixpoint counter_total (es : list Z) : Z :=
  match es with
  | [] => 1
  | e :: es' => (e + 1) * counter_total es'
  end.

(** Counters within their maxima. *)
Inductive counters_ok : list Z -> list Z -> Prop :=
| counters_nil : counters_ok [] []
| counters_cons e c es cs :
    0 <= c <= e -> counters_ok es cs -> counters_ok (e :: es) (c :: cs).

(** * Concrete runs *)

Example primes_list_30 :
  _primes_list 30 = Ret [2; 3; 5; 7; 11; 13; 17; 19; 23; 29].
Proof. reflexivity. Qed.

Example mobius_list_10 :
  _mobius_list 10 = Ret [0; 1; -1; -1; 0; -1; 1; -1; 0; 0; 1].
Proof. reflexivity. Qed.

Example is_prime_97 : run (_is_prime 10 97 100) no_draws = Ret true.
Proof. vm_compute. reflexivity. Qed.

Example is_prime_91 : run (_is_prime 10 91 100) no_draws = Ret false.
Proof. vm_compute. reflexivity. Qed.

Example decomposition_360 :
  run (prime_divisor_decomposition 10 360 true) no_draws
  = Ret [(2, 3); (3, 2); (5, 1)].
Proof. vm_compute. reflexivity. Qed.

Example all_divisors_28 :
  run (all_divisors 10 28 false) no_draws = Ret [1; 2; 4; 7; 14; 28].
Proof. vm_compute. reflexivity. Qed.

(** * Reasoning principles for the two monads *)

Lemma bind_Ret {A B : Type} (m : M A) (k : A -> M B) (r : rng) (i j : nat) (a : A) :
  m r i = Ret (a, j) -> bind m k r i = k a r j.
Proof. intros H. unfold bind. now rewrite H. Qed.

Lemma bind_lift_Ret {A B : Type} (o : outcome A) (k : A -> M B) (r : rng)
    (i : nat) (a : A) :
  o = Ret a -> bind (lift o) k r i = k a r i.
Proof. intros ->. reflexivity. Qed.

Lemma result_bind_lift {A B : Type} (m : M A) (f : A -> outcome B) (r : rng) (i : nat) :
  result (bind m (fun x => lift (f x)) r i) = obind (result (m r i)) f.
Proof.
  unfold bind, lift, result, obind.
  destruct (m r i) as [[a j] | e |]; try reflexivity.
  now destruct (f a).
Qed.

(** * The wheel sieve *)

(** ** Prime divisors *)

Lemma prime_or_divisor (p : Z) :
  1 < p -> Z.prime p \/ exists d, 1 < d < p /\ (d | p).
Proof.
  intros Hp. destruct (prime_dec p) as [H | H].
  - left. now apply prime_alt.
  - right. now apply not_prime_divide.
Qed.

Lemma prime_divisor_exists (m : Z) :
  2 <= m -> exists q, Z.prime q /\ (q | m).
Proof.
  intros Hm.
  assert (H : forall (k : nat) m, 2 <= m <= Z.of_nat k ->
                exists q, Z.prime q /\ (q | m)).
  { clear m Hm. induction k as [| k IH]; intros m Hm; [lia |].
    destruct (prime_or_divisor m ltac:(lia)) as [Hp | [d [Hd Hdiv]]].
    - exists m. split; [exact Hp | apply Z.divide_refl].
    - destruct (IH d ltac:(lia)) as [q [Hq Hqd]].
      exists q. split; [exact Hq | now apply Z.divide_trans with d]. }
  apply (H (Z.to_nat m)). lia.
Qed.

(** A composite number has a prime divisor not above its square root. *)
Lemma small_prime_divisor (m : Z) :
  2 <= m -> ~ Z.prime m -> exists q, Z.prime q /\ (q | m) /\ q * q <= m.
Proof.
  intros Hm Hnp.
  destruct (prime_or_divisor m ltac:(lia)) as [Hp | [d [Hd [e He]]]];
    [contradiction |].
  assert (He1 : 1 < e) by nia.
  destruct (Z.le_ge_cases d e) as [Hle | Hle].
  - destruct (prime_divisor_exists d ltac:(lia)) as [q [Hq Hqd]].
    exists q. split; [exact Hq |]. split.
    + apply Z.divide_trans with d; [exact Hqd |]. exists e. lia.
    + pose proof (Z.prime_ge_2 q Hq).
      assert (q <= d) by (apply Z.divide_pos_le; [lia | exact Hqd]). nia.
  - destruct (prime_divisor_exists e ltac:(lia)) as [q [Hq Hqe]].
    exists q. split; [exact Hq |]. split.
    + apply Z.divide_trans with e; [exact Hqe |]. exists d. lia.
    + pose proof (Z.prime_ge_2 q Hq).
      assert (q <= e) by (apply Z.divide_pos_le; [lia | exact Hqe]). nia.
Qed.

(** ** The numbers the cells of the sieve stand for *)

Lemma lor_1 (x : Z) : Z.lor x 1 = x + 1 - x mod 2.
Proof.
  pose proof (Z.add_lor_land x 1) as H.
  pose proof (Z.land_ones x 1 ltac:(lia)) as H1.
  change (Z.ones 1) with 1 in H1. change (2 ^ 1) with 2 in H1. lia.
Qed.

Lemma land_1 (x : Z) : Z.land x 1 = x mod 2.
Proof.
  pose proof (Z.land_ones x 1 ltac:(lia)) as H1.
  change (Z.ones 1) with 1 in H1. now change (2 ^ 1) with 2 in H1.
Qed.

Lemma cell_value_eq (j : Z) : cell_value j = 3 * j + 1 + j mod 2.
Proof.
  unfold cell_value. rewrite lor_1.
  Z.div_mod_to_equations. lia.
Qed.

Lemma cell_value_mod6 (j : Z) :
  cell_value j mod 6 = 1 \/ cell_value j mod 6 = 5.
Proof. rewrite cell_value_eq. Z.div_mod_to_equations. lia. Qed.

Lemma cell_value_index (j : Z) : cell_value j / 3 = j.
Proof. rewrite cell_value_eq. Z.div_mod_to_equations. lia. Qed.

Lemma index_cell_value (v : Z) :
  v mod 6 = 1 \/ v mod 6 = 5 -> cell_value (v / 3) = v.
Proof. intros H. rewrite cell_value_eq. Z.div_mod_to_equations. lia. Qed.

Lemma cell_value_mono (i j : Z) : i < j -> cell_value i < cell_value j.
Proof. intros H. rewrite !cell_value_eq. Z.div_mod_to_equations. lia. Qed.

Lemma cell_value_shift (j u : Z) :
  cell_value (j + 2 * u) = cell_value j + 6 * u.
Proof. rewrite !cell_value_eq. Z.div_mod_to_equations. lia. Qed.

Lemma sieve_size_spec (n j : Z) :
  0 <= j -> (j < sieve_size n <-> cell_value j < n).
Proof.
  intros Hj. unfold sieve_size. rewrite cell_value_eq.
  destruct (Z.eqb_spec (n mod 6) 2); Z.div_mod_to_equations; lia.
Qed.

Lemma mul_mod6 (k m : Z) :
  k mod 6 = 1 \/ k mod 6 = 5 ->
  ((k * m) mod 6 = 1 \/ (k * m) mod 6 = 5) ->
  (m mod 6 = k mod 6 /\ (k * m) mod 6 = 1)
  \/ (m mod 6 = 6 - k mod 6 /\ (k * m) mod 6 = 5).
Proof.
  intros Hk. rewrite Z.mul_mod by lia.
  pose proof (Z.mod_pos_bound m 6 ltac:(lia)) as Hm.
  assert (Hc : m mod 6 = 0 \/ m mod 6 = 1 \/ m mod 6 = 2 \/ m mod 6 = 3
               \/ m mod 6 = 4 \/ m mod 6 = 5) by lia.
  destruct Hk as [-> | ->];
    destruct Hc as [-> | [-> | [-> | [-> | [-> | ->]]]]]; cbn; lia.
Qed.

(** ** Strided slices *)

Lemma slice_update_from_length {A : Type} (start step : Z) (f : A -> A) :
  forall (l : list A) j, length (slice_update_from j start step f l) = length l.
Proof. induction l as [| x l IH]; intros j; simpl; [reflexivity | now rewrite IH]. Qed.

Lemma slice_update_from_nth {A : Type} (start step : Z) (f : A -> A) :
  forall (l : list A) j t,
    nth_error (slice_update_from j start step f l) t
    = option_map (fun x => if in_slice start step (j + Z.of_nat t) then f x else x)
        (nth_error l t).
Proof.
  induction l as [| x l IH]; intros j t.
  - now destruct t.
  - destruct t as [| t]; cbn [slice_update_from nth_error option_map].
    + now rewrite Z.add_0_r.
    + rewrite IH. now replace (j + 1 + Z.of_nat t) with (j + Z.of_nat (S t)) by lia.
Qed.

Lemma slice_update_length {A : Type} (start step : Z) (f : A -> A) (l : list A) :
  length (slice_update start step f l) = length l.
Proof. apply slice_update_from_length. Qed.

Lemma slice_update_cell {A : Type} (start step : Z) (f : A -> A) (l : list A) (j : Z) :
  0 <= j ->
  cell (slice_update start step f l) j
  = option_map (fun x => if in_slice start step j then f x else x) (cell l j).
Proof.
  intros Hj. unfold cell, slice_update. rewrite slice_update_from_nth.
  now rewrite Z.add_0_l, Z2Nat.id by lia.
Qed.

Lemma in_slice_spec (k s j : Z) :
  0 < k ->
  in_slice s (2 * k) j = true <-> exists t, 0 <= t /\ j = s + 2 * (k * t).
Proof.
  intros Hk. unfold in_slice. rewrite andb_true_iff, Z.leb_le, Z.eqb_eq. split.
  - intros [Hle Hmod]. exists ((j - s) / (2 * k)).
    apply Z.div_exact in Hmod; [| lia].
    split; [apply Z.div_pos; lia | lia].
  - intros [t [Ht ->]]. split; [nia |].
    replace (s + 2 * (k * t) - s) with (t * (2 * k)) by ring.
    apply Z.mod_mul. lia.
Qed.

(** ** What one round of the sieve marks *)

Lemma start_cell (k m0 t : Z) :
  (k * m0) mod 6 = 1 \/ (k * m0) mod 6 = 5 ->
  cell_value (k * m0 / 3 + 2 * (k * t)) = k * (m0 + 6 * t).
Proof.
  intros H. rewrite cell_value_shift, index_cell_value by exact H. ring.
Qed.

Lemma start_index (k m0 t : Z) :
  (k * (m0 + 6 * t)) / 3 = k * m0 / 3 + 2 * (k * t).
Proof.
  replace (k * (m0 + 6 * t)) with (k * m0 + (2 * (k * t)) * 3) by ring.
  apply Z.div_add. lia.
Qed.

Lemma cell_value_ge_5 (i : Z) : 1 <= i -> 5 <= cell_value i.
Proof. intros H. rewrite cell_value_eq. Z.div_mod_to_equations. lia. Qed.

(** The partner of [k = cell_value i] in the second slice: the least
    number above [k] in the other residue class modulo 6. *)
Lemma partner_mod6 (i : Z) :
  let k := cell_value i in
  let m0 := k - 2 * Z.land i 1 + 4 in
  k < m0 <= k + 4 /\ m0 mod 6 = 6 - k mod 6 /\ (k mod 6 = 1 \/ k mod 6 = 5).
Proof.
  cbv zeta. rewrite land_1, cell_value_eq.
  Z.div_mod_to_equations. lia.
Qed.

Lemma residues_product (k m : Z) :
  k mod 6 = 1 \/ k mod 6 = 5 ->
  (m mod 6 = k mod 6 -> (k * m) mod 6 = 1)
  /\ (m mod 6 = 6 - k mod 6 -> (k * m) mod 6 = 5).
Proof.
  intros Hk. rewrite Z.mul_mod by lia.
  split; intros ->; destruct Hk as [-> | ->]; reflexivity.
Qed.

(** Round [i] marks exactly the cells standing for [k * m] with
    [m >= k], where [k = cell_value i]. *)
Lemma marks_spec (i j : Z) :
  1 <= i -> 0 <= j ->
  marks i j = true
  <-> exists m, cell_value i <= m /\ cell_value j = cell_value i * m.
Proof.
  intros Hi Hj. unfold marks. cbv zeta.
  pose proof (cell_value_ge_5 i Hi) as Hk5.
  destruct (partner_mod6 i) as [Hm0 [Hm0mod Hkmod]].
  set (k := cell_value i) in *.
  set (m0 := k - 2 * Z.land i 1 + 4) in *.
  destruct (residues_product k k Hkmod) as [Hkk _].
  destruct (residues_product k m0 Hkmod) as [_ Hkm0].
  specialize (Hkk eq_refl). specialize (Hkm0 Hm0mod).
  rewrite orb_true_iff, !in_slice_spec by lia. split.
  - intros [[t [Ht ->]] | [t [Ht ->]]].
    + exists (k + 6 * t). split; [lia |]. apply start_cell. now left.
    + exists (m0 + 6 * t). split; [lia |]. apply start_cell. now right.
  - intros [m [Hm Hval]].
    pose proof (cell_value_index j) as Hidx. rewrite Hval in Hidx.
    pose proof (cell_value_mod6 j) as Hjmod. rewrite Hval in Hjmod.
    destruct (mul_mod6 k m Hkmod Hjmod) as [[Hsame _] | [Hother _]].
    + left. exists ((m - k) / 6).
      assert (Hm6 : m = k + 6 * ((m - k) / 6)).
      { Z.div_mod_to_equations. lia. }
      split; [apply Z.div_pos; lia |].
      rewrite <- Hidx. rewrite Hm6 at 1. apply start_index.
    + right. exists ((m - m0) / 6).
      assert (Hm6 : m = m0 + 6 * ((m - m0) / 6)).
      { Z.div_mod_to_equations. lia. }
      assert (Hge : m0 <= m).
      { Z.div_mod_to_equations. lia. }
      split; [apply Z.div_pos; lia |].
      rewrite <- Hidx. rewrite Hm6 at 1. apply start_index.
Qed.

(** ** The invariant of the sieve loop *)

Lemma composite_cell_not_prime (j : Z) :
  composite_cell j -> ~ Z.prime (cell_value j).
Proof.
  intros [k [m [Hkm Hval]]] [_ Hp].
  apply (Hp k); [nia |]. exists m. lia.
Qed.

Lemma cell_in_range {A : Type} (l : list A) (j : Z) :
  0 <= j < Z.of_nat (length l) -> exists x, cell l j = Some x.
Proof.
  intros Hj. unfold cell.
  destruct (nth_error l (Z.to_nat j)) eqn:E; [eauto |].
  apply nth_error_None in E. lia.
Qed.

Lemma cell_some_range {A : Type} (l : list A) (j : Z) (x : A) :
  0 <= j -> cell l j = Some x -> j < Z.of_nat (length l).
Proof.
  intros Hj H. unfold cell in H.
  assert (nth_error l (Z.to_nat j) <> None) as Hn by congruence.
  apply nth_error_Some in Hn. lia.
Qed.

Lemma cell_repeat {A : Type} (x : A) (len : nat) (j : Z) :
  0 <= j < Z.of_nat len -> cell (repeat x len) j = Some x.
Proof.
  intros Hj. unfold cell.
  destruct (cell_in_range (repeat x len) j) as [y Hy].
  { now rewrite repeat_length. }
  unfold cell in Hy. rewrite Hy. f_equal.
  apply nth_error_In in Hy. now apply repeat_spec in Hy.
Qed.

Lemma sieve_size_nonneg (n : Z) : 0 <= n -> 0 <= sieve_size n.
Proof.
  intros Hn. unfold sieve_size.
  destruct (n mod 6 =? 2); Z.div_mod_to_equations; lia.
Qed.

Lemma sieve_inv_init (n : Z) :
  0 <= n ->
  sieve_inv n (fun _ => False) (repeat true (Z.to_nat (sieve_size n))).
Proof.
  intros Hn. pose proof (sieve_size_nonneg n Hn).
  constructor.
  - rewrite repeat_length. lia.
  - intros j Hj Hc. rewrite cell_repeat in Hc; [discriminate |].
    apply cell_some_range in Hc; [| exact Hj]. rewrite repeat_length in Hc. lia.
  - intros i j m [].
Qed.

Lemma sieve_step_round (sieve : list bool) (i : Z) (b : bool) :
  cell sieve i = Some b ->
  sieve_step sieve i = Ret (if b then round sieve i else sieve).
Proof.
  intros Hb. unfold sieve_step, getitem. unfold cell in Hb. rewrite Hb.
  now destruct b.
Qed.

Lemma round_length (sieve : list bool) (i : Z) :
  length (round sieve i) = length sieve.
Proof. unfold round, slice_assign. now rewrite !slice_update_length. Qed.

(** They clear exactly the marked cells. *)
Lemma round_cell (sieve : list bool) (i j : Z) :
  0 <= j ->
  cell (round sieve i) j
  = option_map (fun b => if marks i j then false else b) (cell sieve j).
Proof.
  intros Hj. unfold round. set (k := cell_value i). unfold slice_assign.
  rewrite !slice_update_cell by exact Hj.
  unfold marks. fold k.
  destruct (cell sieve j) as [b |]; [| reflexivity].
  cbn [option_map].
  destruct (in_slice (k * k / 3) (2 * k) j),
    (in_slice (k * (k - 2 * Z.land i 1 + 4) / 3) (2 * k) j); reflexivity.
Qed.

Lemma sieve_step_inv (n : Z) (processed : Z -> Prop) (sieve : list bool) (i : Z) :
  sieve_inv n processed sieve -> 1 <= i < sieve_size n ->
  exists sieve',
    sieve_step sieve i = Ret sieve'
    /\ sieve_inv n (fun x => x = i \/ processed x) sieve'.
Proof.
  intros [Hlen Hsound Hcomplete] Hi. unfold sieve_step.
  destruct (cell_in_range sieve i ltac:(lia)) as [b Hb].
  fold (sieve_step sieve i). rewrite (sieve_step_round sieve i b Hb).
  destruct b.
  - eexists. split; [reflexivity |]. constructor.
    + now rewrite round_length.
    + intros j Hj Hc. rewrite round_cell in Hc by exact Hj.
      destruct (cell sieve j) as [b |] eqn:Hcj; [| discriminate].
      cbn [option_map] in Hc.
      destruct (marks i j) eqn:Hm.
      * apply marks_spec in Hm; [| lia | exact Hj].
        destruct Hm as [m [Hm Hval]].
        exists (cell_value i), m. split; [| exact Hval].
        pose proof (cell_value_ge_5 i ltac:(lia)). lia.
      * apply Hsound; [exact Hj | congruence].
    + intros i' j m Hproc Hprime Hj Hm Hval.
      rewrite round_cell by lia.
      destruct (cell_in_range sieve j ltac:(lia)) as [b Hcj]. rewrite Hcj.
      cbn [option_map].
      destruct Hproc as [-> | Hproc].
      * assert (Hmarks : marks i j = true).
        { apply marks_spec; [lia | lia |]. now exists m. }
        now rewrite Hmarks.
      * rewrite (Hcomplete i' j m Hproc Hprime Hj Hm Hval) in Hcj.
        injection Hcj as <-. now destruct (marks i j).
  - exists sieve. split; [reflexivity |]. constructor.
    + exact Hlen.
    + exact Hsound.
    + intros i' j m [-> | Hproc] Hprime Hj Hm Hval.
      * exfalso. apply (composite_cell_not_prime i); [| exact Hprime].
        apply Hsound; [lia | exact Hb].
      * now apply (Hcomplete i' j m).
Qed.

Lemma sieve_inv_weaken (n : Z) (P Q : Z -> Prop) (sieve : list bool) :
  (forall x, Q x -> P x) -> sieve_inv n P sieve -> sieve_inv n Q sieve.
Proof.
  intros HPQ [Hlen Hsound Hcomplete]. constructor; [assumption | assumption |].
  intros i j m Hq. apply Hcomplete. now apply HPQ.
Qed.

Lemma sieve_loop_inv (n : Z) (idxs : list Z) :
  Forall (fun i => 1 <= i < sieve_size n) idxs ->
  forall processed sieve,
    sieve_inv n processed sieve ->
    exists sieve',
      sieve_loop sieve idxs = Ret sieve'
      /\ sieve_inv n (fun x => In x idxs \/ processed x) sieve'.
Proof.
  induction 1 as [| i idxs Hi Hidxs IH]; intros processed sieve Hinv.
  - exists sieve. split; [reflexivity |].
    apply (sieve_inv_weaken n processed); [| exact Hinv].
    intros x [[] | Hx]. exact Hx.
  - destruct (sieve_step_inv n processed sieve i Hinv Hi) as [s1 [Hstep Hinv1]].
    cbn [sieve_loop]. rewrite Hstep. cbn [obind].
    destruct (IH _ s1 Hinv1) as [s2 [Hloop Hinv2]].
    exists s2. split; [exact Hloop |].
    apply (sieve_inv_weaken n _ _ s2 (fun x H => H) ) in Hinv2.
    eapply sieve_inv_weaken; [| exact Hinv2].
    cbv beta. intros x [[<- | Hx] | Hx]; auto.
Qed.

(** ** The sieve after the loop *)

Lemma In_range (lo hi x : Z) : In x (range lo hi) <-> lo <= x < hi.
Proof.
  unfold range. rewrite in_map_iff. split.
  - intros [k [<- Hk]]. apply in_seq in Hk. lia.
  - intros Hx. exists (Z.to_nat (x - lo)). split; [lia |].
    apply in_seq. lia.
Qed.

Lemma sqrt_third_in_sieve (n i : Z) :
  6 <= n -> 1 <= i < int_sqrt n / 3 + 1 -> 1 <= i < sieve_size n.
Proof.
  intros Hn Hi. unfold int_sqrt in Hi.
  pose proof (Z.sqrt_spec n ltac:(lia)) as Hs.
  assert (3 * i <= Z.sqrt n) by (Z.div_mod_to_equations; lia).
  split; [lia |].
  apply sieve_size_spec; [lia |]. rewrite cell_value_eq.
  assert (i mod 2 <= 1) by (Z.div_mod_to_equations; lia).
  assert ((3 * i) * (3 * i) <= Z.sqrt n * Z.sqrt n)
    by (apply Z.mul_le_mono_nonneg; lia).
  assert (i <= i * i) by nia.
  destruct Hs as [Hs _]. lia.
Qed.

Lemma divisor_mod6 (q m : Z) :
  (q * m) mod 6 = 1 \/ (q * m) mod 6 = 5 -> q mod 6 = 1 \/ q mod 6 = 5.
Proof.
  rewrite Z.mul_mod by lia.
  pose proof (Z.mod_pos_bound q 6 ltac:(lia)) as Hq.
  pose proof (Z.mod_pos_bound m 6 ltac:(lia)) as Hm.
  assert (Hc : q mod 6 = 0 \/ q mod 6 = 1 \/ q mod 6 = 2 \/ q mod 6 = 3
               \/ q mod 6 = 4 \/ q mod 6 = 5) by lia.
  assert (Hd : m mod 6 = 0 \/ m mod 6 = 1 \/ m mod 6 = 2 \/ m mod 6 = 3
               \/ m mod 6 = 4 \/ m mod 6 = 5) by lia.
  destruct Hc as [-> | [-> | [-> | [-> | [-> | ->]]]]];
    destruct Hd as [-> | [-> | [-> | [-> | [-> | ->]]]]]; cbn; lia.
Qed.

(** After all rounds up to [sqrt n / 3], a cell is set exactly when it is
    cell 0 or stands for a prime. *)
Lemma sieve_final (n : Z) (sieve : list bool) :
  6 <= n ->
  sieve_inv n (fun x => 1 <= x < int_sqrt n / 3 + 1) sieve ->
  forall j, 0 <= j < sieve_size n ->
    (cell sieve j = Some true <-> j = 0 \/ Z.prime (cell_value j)).
Proof.
  intros Hn [Hlen Hsound Hcomplete] j Hj.
  destruct (cell_in_range sieve j ltac:(lia)) as [b Hb].
  split.
  - intros Htrue.
    destruct (Z.eq_dec j 0) as [-> | Hj0]; [now left | right].
    pose proof (cell_value_ge_5 j ltac:(lia)) as H5.
    destruct (prime_or_divisor (cell_value j) ltac:(lia)) as [Hp | Hcomp];
      [exact Hp | exfalso].
    assert (Hnp : ~ Z.prime (cell_value j)).
    { destruct Hcomp as [d [Hd Hdiv]]. intros [_ Hp]. now apply (Hp d). }
    destruct (small_prime_divisor (cell_value j) ltac:(lia) Hnp)
      as [q [Hq [[m Hm] Hqq]]].
    pose proof (Z.prime_ge_2 q Hq) as Hq2.
    assert (Hqmod : q mod 6 = 1 \/ q mod 6 = 5).
    { apply (divisor_mod6 q m). rewrite Z.mul_comm, <- Hm.
      apply cell_value_mod6. }
    pose proof (index_cell_value q Hqmod) as Hqi.
    assert (Hjn : cell_value j < n) by (apply sieve_size_spec; lia).
    assert (Hqs : q <= Z.sqrt n).
    { apply Z.sqrt_le_square; lia. }
    assert (Hfalse : cell sieve j = Some false).
    { apply (Hcomplete (q / 3) j m).
      - unfold int_sqrt. Z.div_mod_to_equations. lia.
      - now rewrite Hqi.
      - lia.
      - rewrite Hqi. nia.
      - rewrite Hqi. lia. }
    congruence.
  - intros Hcases. destruct b; [exact Hb | exfalso].
    pose proof (Hsound j ltac:(lia) Hb) as Hcomp.
    destruct Hcases as [-> | Hp].
    + destruct Hcomp as [k [m [Hkm Hval]]].
      rewrite cell_value_eq in Hval. cbn in Hval. nia.
    + now apply (composite_cell_not_prime j).
Qed.

(** ** Reading the primes off the sieve *)

Lemma nonzero_from_In (l : list bool) :
  forall a j,
    In j (nonzero_from a l)
    <-> a <= j /\ nth_error l (Z.to_nat (j - a)) = Some true.
Proof.
  induction l as [| b l IH]; intros a j; cbn [nonzero_from].
  - split; [intros [] |]. intros [_ H]. now destruct (Z.to_nat (j - a)).
  - assert (Hstep : In j (nonzero_from (a + 1) l)
                    <-> a < j /\ nth_error (b :: l) (Z.to_nat (j - a)) = Some true).
    { rewrite IH. split; intros [Hle H]; (split; [lia |]).
      - replace (Z.to_nat (j - a)) with (S (Z.to_nat (j - (a + 1)))) by lia.
        exact H.
      - replace (Z.to_nat (j - a)) with (S (Z.to_nat (j - (a + 1)))) in H by lia.
        exact H. }
    destruct b; cbn [In]; rewrite Hstep.
    + split.
      * intros [<- | [Hlt H]]; [| split; [lia | exact H]].
        split; [lia |]. now rewrite Z.sub_diag.
      * intros [Hle H]. destruct (Z.eq_dec a j) as [? | Hne]; [now left | right].
        split; [lia | exact H].
    + split.
      * intros [Hlt H]. split; [lia | exact H].
      * intros [Hle H]. split; [| exact H].
        destruct (Z.eq_dec a j) as [<- | Hne]; [| lia].
        rewrite Z.sub_diag in H. discriminate H.
Qed.

Lemma nonzero_from_sorted (l : list bool) :
  forall a, StronglySorted Z.lt (nonzero_from a l).
Proof.
  induction l as [| b l IH]; intros a; cbn [nonzero_from]; [constructor |].
  destruct b; [| apply IH].
  constructor; [apply IH |].
  apply Forall_forall. intros j Hj. apply nonzero_from_In in Hj. lia.
Qed.

Lemma tl_nonzero_In (sieve : list bool) (j : Z) :
  cell sieve 0 = Some true ->
  In j (tl (nonzero sieve)) <-> 1 <= j /\ cell sieve j = Some true.
Proof.
  intros H0. destruct sieve as [| b sieve]; [discriminate |].
  cbn in H0. injection H0 as ->.
  unfold nonzero. cbn [nonzero_from tl]. rewrite nonzero_from_In.
  change (0 + 1) with 1. unfold cell.
  split; intros [Hj H]; (split; [exact Hj |]).
  - replace (Z.to_nat j) with (S (Z.to_nat (j - 1))) by lia. exact H.
  - replace (Z.to_nat j) with (S (Z.to_nat (j - 1))) in H by lia. exact H.
Qed.

Lemma tl_nonzero_sorted (sieve : list bool) :
  StronglySorted Z.lt (tl (nonzero sieve)).
Proof.
  pose proof (nonzero_from_sorted sieve 0) as H. unfold nonzero.
  destruct (nonzero_from 0 sieve); [constructor |].
  now inversion H.
Qed.

Lemma map_sorted (f : Z -> Z) (l : list Z) :
  (forall a b, a < b -> f a < f b) ->
  StronglySorted Z.lt l -> StronglySorted Z.lt (map f l).
Proof.
  intros Hf. induction 1 as [| a l Hl IH Hall]; cbn [map]; constructor.
  - exact IH.
  - apply Forall_forall. intros y Hy. apply in_map_iff in Hy.
    destruct Hy as [x [<- Hx]]. apply Hf.
    exact (proj1 (Forall_forall _ _) Hall x Hx).
Qed.

Lemma prime_mod6 (p : Z) :
  Z.prime p -> p = 2 \/ p = 3 \/ p mod 6 = 1 \/ p mod 6 = 5.
Proof.
  intros [Hp1 Hp].
  destruct (Z.eq_dec p 2) as [? | H2]; [now left |].
  destruct (Z.eq_dec p 3) as [? | H3]; [now right; left |].
  right. right.
  assert (H2d : ~ (2 | p)) by (apply Hp; lia).
  assert (H3d : ~ (3 | p)) by (apply Hp; lia).
  rewrite <- Z.mod_divide in H2d, H3d by lia.
  Z.div_mod_to_equations. lia.
Qed.

(** ** The sieve is correct from the bound 6 on *)

Lemma sieve_loop_final (n : Z) :
  6 <= n ->
  exists sieve,
    sieve_loop (repeat true (Z.to_nat (sieve_size n)))
      (range 1 (int_sqrt n / 3 + 1)) = Ret sieve
    /\ Z.of_nat (length sieve) = sieve_size n
    /\ forall j, 0 <= j < sieve_size n ->
         (cell sieve j = Some true <-> j = 0 \/ Z.prime (cell_value j)).
Proof.
  intros Hn.
  destruct (sieve_loop_inv n (range 1 (int_sqrt n / 3 + 1))) with
    (processed := fun _ : Z => False)
    (sieve := repeat true (Z.to_nat (sieve_size n)))
    as [sieve [Hloop Hinv]].
  - apply Forall_forall. intros i Hi. apply In_range in Hi.
    now apply sqrt_third_in_sieve.
  - apply sieve_inv_init. lia.
  - exists sieve. split; [exact Hloop |].
    split; [apply (inv_length _ _ _ Hinv) |].
    apply sieve_final; [exact Hn |].
    eapply sieve_inv_weaken; [| exact Hinv].
    cbv beta. intros x Hx. left. now apply In_range.
Qed.

Lemma primes_list_spec (n : Z) :
  6 <= n ->
  exists l,
    _primes_list n = Ret l
    /\ StronglySorted Z.lt l
    /\ forall p, In p l <-> Z.prime p /\ p < n.
Proof.
  intros Hn.
  destruct (sieve_loop_final n Hn) as [sieve [Hloop [Hlen Hcells]]].
  assert (Hsize : 2 <= sieve_size n).
  { unfold sieve_size. destruct (n mod 6 =? 2); Z.div_mod_to_equations; lia. }
  assert (H0 : cell sieve 0 = Some true) by (apply Hcells; [lia | now left]).
  assert (Hin : forall j, In j (tl (nonzero sieve))
                  <-> 1 <= j < sieve_size n /\ Z.prime (cell_value j)).
  { intros j. rewrite tl_nonzero_In by exact H0. split.
    - intros [Hj Hc].
      pose proof (cell_some_range sieve j true ltac:(lia) Hc) as Hlt.
      split; [lia |].
      apply Hcells in Hc; [| lia]. destruct Hc as [-> | Hp]; [lia | exact Hp].
    - intros [Hj Hp]. split; [lia |]. apply Hcells; [lia | now right]. }
  eexists. split; [| split].
  - unfold _primes_list, np_ones. fold (sieve_size n).
    destruct (Z.ltb_spec (sieve_size n) 0) as [? | _]; [lia |].
    cbn [obind]. rewrite Hloop. cbn [obind]. reflexivity.
  - fold cell_value.
    assert (Hs : StronglySorted Z.lt (map cell_value (tl (nonzero sieve)))).
    { apply map_sorted; [apply cell_value_mono | apply tl_nonzero_sorted]. }
    assert (Hge : Forall (fun v => 5 <= v) (map cell_value (tl (nonzero sieve)))).
    { apply Forall_forall. intros v Hv. apply in_map_iff in Hv.
      destruct Hv as [j [<- Hj]]. apply Hin in Hj.
      apply cell_value_ge_5. lia. }
    constructor; [constructor; [exact Hs |] |].
    + eapply Forall_impl; [| exact Hge]. cbv beta. intros; lia.
    + constructor; [lia |].
      eapply Forall_impl; [| exact Hge]. cbv beta. intros; lia.
  - intros p. fold cell_value. cbn [In]. rewrite in_map_iff. split.
    + intros [<- | [<- | [j [<- Hj]]]].
      * split; [exact Z.prime_2 | lia].
      * split; [exact Z.prime_3 | lia].
      * apply Hin in Hj. destruct Hj as [Hj Hp].
        split; [exact Hp |]. apply sieve_size_spec; lia.
    + intros [Hp Hlt].
      destruct (prime_mod6 p Hp) as [-> | [-> | Hmod]]; [now left | now right; left |].
      right. right. exists (p / 3).
      pose proof (index_cell_value p Hmod) as Hidx.
      split; [exact Hidx |].
      pose proof (Z.prime_ge_2 p Hp).
      assert (Hj1 : 1 <= p / 3) by (Z.div_mod_to_equations; lia).
      apply Hin. rewrite Hidx. split; [| exact Hp].
      split; [exact Hj1 |]. apply sieve_size_spec; [lia |]. now rewrite Hidx.
Qed.

(** C2: for every bound [n >= 6] the sieve returns the strictly
    increasing list of exactly the primes below [n]; for the bound 30
    this is [2, 3, 5, 7, 11, 13, 17, 19, 23, 29]. *)
Theorem primes_list_correct (n : Z) :
  6 <= n ->
  exists l,
    _primes_list n = Ret l
    /\ StronglySorted Z.lt l
    /\ (forall p, In p l <-> Z.prime p /\ 2 <= p < n)
    /\ (n = 30 -> l = [2; 3; 5; 7; 11; 13; 17; 19; 23; 29]).
Proof.
  intros Hn. destruct (primes_list_spec n Hn) as [l [Hl [Hsorted Hin]]].
  exists l. split; [exact Hl |]. split; [exact Hsorted |]. split.
  - intros p. rewrite Hin. split; intros [Hp Hlt]; (split; [exact Hp |]).
    + pose proof (Z.prime_ge_2 p Hp). lia.
    + lia.
  - intros ->. rewrite primes_list_30 in Hl. now injection Hl.
Qed.

Lemma primes_list_correct_witness :
  6 <= 30
  /\ exists l,
       _primes_list 30 = Ret l
       /\ StronglySorted Z.lt l
       /\ (forall p, In p l <-> Z.prime p /\ 2 <= p < 30)
       /\ (30 = 30 -> l = [2; 3; 5; 7; 11; 13; 17; 19; 23; 29]).
Proof. split; [lia |]. apply (primes_list_correct 30). lia. Defined.

(** ** Bounds below the documented minimum of the sieve *)

Lemma primes_list_small (n : Z) :
  0 <= n <= 5 -> _primes_list n = Ret [2; 3].
Proof.
  intros Hn.
  assert (Hcases : n = 0 \/ n = 1 \/ n = 2 \/ n = 3 \/ n = 4 \/ n = 5) by lia.
  destruct Hcases as [-> | [-> | [-> | [-> | [-> | ->]]]]]; reflexivity.
Qed.

(** C10: for every bound [0 <= n <= 5] the sieve raises nothing and
    returns exactly [[2; 3]]; the bound is neither clamped nor rejected,
    so for [n <= 3] the result holds a prime that is not below [n]. *)
Theorem primes_list_below_minimum (n : Z) :
  0 <= n <= 5 ->
  exists l, _primes_list n = Ret l /\ l = [2; 3]
            /\ (n <= 3 -> exists p, In p l /\ Z.prime p /\ n <= p).
Proof.
  intros Hn.
  exists [2; 3].
  split; [now apply primes_list_small | split; [reflexivity |]].
  intros Hle. exists 3. split; [right; left; reflexivity |].
  split; [exact Z.prime_3 | exact Hle].
Qed.

Lemma primes_list_below_minimum_witness :
  exists l, _primes_list 2 = Ret l /\ l = [2; 3]
            /\ (2 <= 3 -> exists p, In p l /\ Z.prime p /\ 2 <= p).
Proof. apply (primes_list_below_minimum 2). lia. Defined.

(** * Miller-Rabin *)

(** ** The primality test always answers *)

Lemma mr_decompose_loop_S (fuel : nat) (e n : Z) :
  _mr_decompose_loop (S fuel) e n =
  if n mod 2 =? 0 then _mr_decompose_loop fuel (e + 1) (n / 2) else Ret (e, n).
Proof. reflexivity. Qed.

(** [_mr_decompose] writes [n >= 1] as [2^e * d] with [d] odd; fuel
    beyond the binary logarithm of [n] is enough. *)
Lemma mr_decompose_loop_spec (fuel : nat) :
  forall n e0, 1 <= n -> n < 2 ^ Z.of_nat fuel ->
    exists e d,
      _mr_decompose_loop fuel e0 n = Ret (e0 + e, d)
      /\ 0 <= e /\ n = 2 ^ e * d /\ d mod 2 = 1.
Proof.
  induction fuel as [| fuel IH]; intros n e0 Hn Hfuel; [cbn in Hfuel; lia |].
  rewrite mr_decompose_loop_S.
  rewrite Nat2Z.inj_succ, Z.pow_succ_r in Hfuel by lia.
  destruct (Z.eqb_spec (n mod 2) 0) as [Hmod | Hmod].
  - assert (Hdiv : n = 2 * (n / 2)) by (apply Z.div_exact; lia).
    destruct (IH (n / 2) (e0 + 1) ltac:(lia) ltac:(lia))
      as [e [d [Heq [He [Hprod Hodd]]]]].
    exists (e + 1), d. rewrite Heq.
    split; [f_equal; f_equal; lia |].
    split; [lia |]. split; [| exact Hodd].
    rewrite Z.pow_add_r, Z.pow_1_r by lia. lia.
  - exists 0, n. rewrite Z.add_0_r.
    split; [reflexivity |]. split; [lia |].
    split; [rewrite Z.pow_0_r; ring |].
    pose proof (Z.mod_pos_bound n 2). lia.
Qed.

Lemma linear_fuel (p : Z) (fuel : nat) :
  p <= Z.of_nat fuel -> p <= 2 ^ Z.of_nat fuel.
Proof.
  intros H. pose proof (Z.pow_gt_lin_r 2 (Z.of_nat fuel) ltac:(lia) ltac:(lia)).
  lia.
Qed.

Lemma is_prime_trials_terminates (k : nat) (p e d : Z) (r : rng) :
  4 <= p ->
  forall i, exists b j, _is_prime_trials k p e d r i = Ret (b, j).
Proof.
  intros Hp. induction k as [| k IH]; intros i; cbn [_is_prime_trials].
  - unfold ret. eauto.
  - unfold bind, randint.
    destruct (Z.ltb_spec (p - 2) 2) as [? | _]; [lia |].
    destruct (_mr_isWitness _ p e d).
    + unfold ret. eauto.
    + apply IH.
Qed.

Lemma is_prime_terminates_log (fuel : nat) (p accuracy : Z) (r : rng) (i : nat) :
  p <= 2 ^ Z.of_nat fuel ->
  exists b j, _is_prime fuel p accuracy r i = Ret (b, j).
Proof.
  intros Hfuel. unfold _is_prime.
  destruct (Z.ltb_spec p 2) as [_ | Hp2]; [unfold ret; eauto |].
  destruct (Z.eqb_spec p 2) as [_ | H2]; [unfold ret; cbn [orb]; eauto |].
  destruct (Z.eqb_spec p 3) as [_ | H3]; [unfold ret; cbn [orb]; eauto |].
  cbn [orb]. unfold _mr_decompose.
  destruct (mr_decompose_loop_spec fuel (p - 1) 0 ltac:(lia) ltac:(lia))
    as [e [d [Heq _]]].
  rewrite (bind_lift_Ret _ _ r i _ Heq).
  apply is_prime_trials_terminates. lia.
Qed.

Lemma is_prime_terminates (fuel : nat) (p accuracy : Z) (r : rng) (i : nat) :
  p <= Z.of_nat fuel ->
  exists b j, _is_prime fuel p accuracy r i = Ret (b, j).
Proof. intros H. now apply is_prime_terminates_log, linear_fuel. Qed.

(** ** Modular exponentiation *)

Lemma pow_mod_pos_spec (a m : Z) (e : positive) :
  m <> 0 -> pow_mod_pos a e m = a ^ Zpos e mod m.
Proof.
  intros Hm. induction e as [e IH | e IH |]; cbn [pow_mod_pos].
  - rewrite IH, Pos2Z.inj_xI.
    rewrite Z.pow_add_r, Z.pow_1_r, Z.pow_twice_r by lia.
    rewrite <- Z.mul_mod by exact Hm.
    now rewrite Z.mul_mod_idemp_l by exact Hm.
  - rewrite IH, Pos2Z.inj_xO, Z.pow_twice_r.
    now rewrite <- Z.mul_mod by exact Hm.
  - now rewrite Z.pow_1_r.
Qed.

Lemma pow_mod_spec (a e m : Z) :
  0 <= e -> m <> 0 -> pow_mod a e m = a ^ e mod m.
Proof.
  intros He Hm. destruct e as [| e | e]; [reflexivity | | lia].
  now apply pow_mod_pos_spec.
Qed.

(** ** Fermat's little theorem *)

Lemma list_product_perm (l l' : list Z) :
  Permutation l l' -> list_product l = list_product l'.
Proof.
  unfold list_product.
  induction 1 as [| x l l' _ IH | x y l | l l' l'' _ IH1 _ IH2];
    cbn [fold_right].
  - reflexivity.
  - now rewrite IH.
  - ring.
  - now rewrite IH1.
Qed.

Lemma list_product_scaled (a p : Z) (l : list Z) :
  p <> 0 ->
  list_product (map (fun x => (a * x) mod p) l) mod p
  = (a ^ Z.of_nat (length l) * list_product l) mod p.
Proof.
  intros Hp. induction l as [| x l IH].
  - reflexivity.
  - cbn [map list_product fold_right length].
    fold (list_product (map (fun x => (a * x) mod p) l)). fold (list_product l).
    rewrite Nat2Z.inj_succ, Z.pow_succ_r by lia.
    rewrite Z.mul_mod_idemp_l by exact Hp.
    rewrite Z.mul_mod, IH, <- Z.mul_mod by exact Hp.
    f_equal. ring.
Qed.

Lemma prime_not_divide_small (p x : Z) :
  Z.prime p -> 1 <= x < p -> ~ (p | x).
Proof.
  intros Hp Hx Hd. apply Z.divide_pos_le in Hd; lia.
Qed.

Lemma list_product_not_divisible (p : Z) (l : list Z) :
  Z.prime p -> Forall (fun x => ~ (p | x)) l -> ~ (p | list_product l).
Proof.
  intros Hp. induction 1 as [| x l Hx Hl IH]; cbn [list_product fold_right].
  - intros Hd. apply Z.divide_1_r in Hd. pose proof (Z.prime_ge_2 p Hp). lia.
  - intros Hd. apply Z.divide_prime_mul in Hd; [| exact Hp]. tauto.
Qed.

Lemma range_NoDup (lo hi : Z) : NoDup (range lo hi).
Proof.
  unfold range. apply NoDup_map_NoDup_ForallPairs; [| apply seq_NoDup].
  intros x y _ _ H. lia.
Qed.

Lemma range_length (lo hi : Z) : length (range lo hi) = Z.to_nat (hi - lo).
Proof. unfold range. now rewrite length_map, length_seq. Qed.

Lemma mod_eq_divide (a b p : Z) :
  p <> 0 -> (a mod p = b mod p <-> (p | a - b)).
Proof.
  intros Hp. rewrite <- Z.mod_divide by exact Hp. split; intros H.
  - rewrite Zminus_mod, H, Z.sub_diag. apply Z.mod_0_l. exact Hp.
  - rewrite Zminus_mod in H.
    pose proof (Z.mod_pos_bound a p). pose proof (Z.mod_pos_bound b p).
    pose proof (Z.mod_neg_bound a p). pose proof (Z.mod_neg_bound b p).
    apply Z.mod_divide in H; [| exact Hp]. destruct H as [q Hq].
    assert (q = 0) by nia. lia.
Qed.

Lemma scale_permutes_residues (a p : Z) :
  Z.prime p -> ~ (p | a) ->
  Permutation (map (fun x => (a * x) mod p) (range 1 p)) (range 1 p).
Proof.
  intros Hp Ha. pose proof (Z.prime_ge_2 p Hp) as Hp2.
  apply NoDup_Permutation_bis.
  - apply NoDup_map_NoDup_ForallPairs; [| apply range_NoDup].
    intros x y Hx Hy Heq. apply In_range in Hx, Hy.
    apply mod_eq_divide in Heq; [| lia].
    replace (a * x - a * y) with (a * (x - y)) in Heq by ring.
    apply Z.divide_prime_mul in Heq; [| exact Hp].
    destruct Heq as [Hd | [q Hq]]; [contradiction |].
    assert (q = 0) by nia. lia.
  - now rewrite length_map.
  - intros v Hv. apply in_map_iff in Hv. destruct Hv as [x [<- Hx]].
    apply In_range in Hx. apply In_range.
    pose proof (Z.mod_pos_bound (a * x) p ltac:(lia)).
    assert ((a * x) mod p <> 0); [| lia].
    intros H0. apply Z.mod_divide in H0; [| lia].
    apply Z.divide_prime_mul in H0; [| exact Hp].
    destruct H0 as [Hd | Hd]; [contradiction |].
    now apply (prime_not_divide_small p x Hp).
Qed.

Theorem fermat_little (a p : Z) :
  Z.prime p -> ~ (p | a) -> a ^ (p - 1) mod p = 1.
Proof.
  intros Hp Ha. pose proof (Z.prime_ge_2 p Hp) as Hp2.
  pose proof (list_product_scaled a p (range 1 p) ltac:(lia)) as Hscaled.
  rewrite (list_product_perm _ _ (scale_permutes_residues a p Hp Ha)) in Hscaled.
  rewrite range_length, Z2Nat.id in Hscaled by lia.
  set (P := list_product (range 1 p)) in *.
  assert (HP : ~ (p | P)).
  { apply list_product_not_divisible; [exact Hp |].
    apply Forall_forall. intros x Hx. apply In_range in Hx.
    now apply prime_not_divide_small. }
  assert (Hdiv : (p | a ^ (p - 1) - 1)).
  { assert (H : (p | (a ^ (p - 1) - 1) * P)).
    { replace ((a ^ (p - 1) - 1) * P) with (a ^ (p - 1) * P - P) by ring.
      apply mod_eq_divide; [lia | now symmetry]. }
    apply Z.divide_prime_mul in H; [| exact Hp]. tauto. }
  apply mod_eq_divide in Hdiv; [| lia].
  rewrite Hdiv. apply Z.mod_1_l. lia.
Qed.

(** The square roots of 1 modulo a prime. *)
Lemma sqrt_1_mod_prime (p w : Z) :
  Z.prime p -> 0 <= w < p -> (w * w) mod p = 1 -> w = 1 \/ w = p - 1.
Proof.
  intros Hp Hw Hsq. pose proof (Z.prime_ge_2 p Hp) as Hp2.
  assert (Hdiv : (p | (w - 1) * (w + 1))).
  { replace ((w - 1) * (w + 1)) with (w * w - 1) by ring.
    apply mod_eq_divide; [lia |]. rewrite Hsq. symmetry. apply Z.mod_1_l. lia. }
  apply Z.divide_prime_mul in Hdiv; [| exact Hp].
  destruct Hdiv as [[q Hq] | [q Hq]].
  - left. assert (q = 0) by nia. lia.
  - right. assert (q = 1) by nia. lia.
Qed.

(** ** No witness against a prime *)

Lemma iter_square_pow (a d p : Z) (k : nat) :
  p <> 0 -> 0 <= d ->
  Nat.iter k (fun v => (v * v) mod p) (a ^ d mod p)
  = a ^ (d * 2 ^ Z.of_nat k) mod p.
Proof.
  intros Hp Hd. induction k as [| k IH].
  - cbn [Nat.iter nat_rect]. now rewrite Z.pow_0_r, Z.mul_1_r.
  - rewrite Nat.iter_succ, IH.
    rewrite <- Z.mul_mod by exact Hp.
    rewrite Nat2Z.inj_succ, Z.pow_succ_r by lia.
    rewrite <- Z.pow_add_r by (apply Z.mul_nonneg_nonneg; [lia | apply Z.pow_nonneg; lia]).
    f_equal. f_equal. ring.
Qed.

Lemma mr_isWitness_loop_prime (p : Z) :
  Z.prime p ->
  forall k w,
    0 <= w < p -> w <> 1 -> w <> p - 1 ->
    Nat.iter k (fun v => (v * v) mod p) w = 1 ->
    _mr_isWitness_loop k w p = false.
Proof.
  intros Hp. pose proof (Z.prime_ge_2 p Hp) as Hp2.
  induction k as [| k IH]; intros w Hw H1 Hm1 Hiter.
  - cbn in Hiter. contradiction.
  - cbn [_mr_isWitness_loop].
    rewrite pow_mod_spec, Z.pow_2_r by lia.
    destruct (Z.eqb_spec ((w * w) mod p) (p - 1)) as [_ | Hne]; [reflexivity |].
    apply IH.
    + apply Z.mod_pos_bound. lia.
    + intros Hsq. destruct (sqrt_1_mod_prime p w Hp Hw Hsq); contradiction.
    + exact Hne.
    + rewrite Nat.iter_succ_r in Hiter. exact Hiter.
Qed.

(** A base in [2 .. p - 2] is never a witness against a prime [p]. *)
Lemma mr_isWitness_prime (p a e d : Z) :
  Z.prime p -> 1 <= a < p ->
  0 <= e -> 0 <= d -> p - 1 = 2 ^ e * d ->
  _mr_isWitness a p e d = false.
Proof.
  intros Hp Ha He Hd Hdec. pose proof (Z.prime_ge_2 p Hp) as Hp2.
  unfold _mr_isWitness. rewrite pow_mod_spec by lia.
  destruct (Z.eqb_spec (a ^ d mod p) 1) as [_ | H1]; [reflexivity |].
  destruct (Z.eqb_spec (a ^ d mod p) (p - 1)) as [_ | Hm1]; [reflexivity |].
  cbn [orb]. apply mr_isWitness_loop_prime; try assumption.
  - apply Z.mod_pos_bound. lia.
  - rewrite iter_square_pow, Z2Nat.id by lia.
    replace (d * 2 ^ e) with (p - 1) by lia.
    apply fermat_little; [exact Hp |].
    now apply prime_not_divide_small.
Qed.

Lemma is_prime_trials_prime (p e d : Z) (r : rng) :
  Z.prime p -> 4 <= p ->
  0 <= e -> 0 <= d -> p - 1 = 2 ^ e * d ->
  forall k i, exists j, _is_prime_trials k p e d r i = Ret (true, j).
Proof.
  intros Hp Hp4 He Hd Hdec. induction k as [| k IH]; intros i.
  - exists i. reflexivity.
  - cbn [_is_prime_trials]. unfold bind, randint.
    destruct (Z.ltb_spec (p - 2) 2) as [? | _]; [lia |].
    rewrite mr_isWitness_prime; try assumption.
    + apply IH.
    + pose proof (Z.mod_pos_bound (r i) (p - 2 - 2 + 1) ltac:(lia)). lia.
Qed.

Lemma is_prime_on_prime (fuel : nat) (p accuracy : Z) (r : rng) (i : nat) :
  Z.prime p -> p <= Z.of_nat fuel ->
  exists j, _is_prime fuel p accuracy r i = Ret (true, j).
Proof.
  intros Hp Hfuel. pose proof (Z.prime_ge_2 p Hp) as Hp2.
  unfold _is_prime.
  destruct (Z.ltb_spec p 2) as [? | _]; [lia |].
  destruct (Z.eqb_spec p 2) as [_ | H2]; [exists i; reflexivity |].
  destruct (Z.eqb_spec p 3) as [_ | H3]; [exists i; reflexivity |].
  cbn [orb]. unfold _mr_decompose.
  pose proof (linear_fuel p fuel Hfuel) as Hlog.
  destruct (mr_decompose_loop_spec fuel (p - 1) 0 ltac:(lia) ltac:(lia))
    as [e [d [Heq [He [Hdec Hodd]]]]].
  rewrite (bind_lift_Ret _ _ r i _ Heq). rewrite Z.add_0_l.
  apply is_prime_trials_prime; try assumption; lia.
Qed.

(** Primality by trial division, to name concrete primes. *)
Lemma prime_by_trial (p : Z) :
  1 < p ->
  forallb (fun d => negb (p mod d =? 0)) (range 2 p) = true ->
  Z.prime p.
Proof.
  intros Hp Hall. split; [exact Hp |].
  intros d Hd Hdiv. rewrite forallb_forall in Hall.
  specialize (Hall d (proj2 (In_range 2 p d) ltac:(lia))).
  apply Z.mod_divide in Hdiv; [| lia].
  rewrite Hdiv in Hall. discriminate Hall.
Qed.

(** C4: on a prime [p] the test returns true whatever the accuracy and
    whatever the random draws (no false negative), and on [p < 2] it
    returns false; fuel [p] is enough for the loop of [_mr_decompose]. *)
Theorem is_prime_no_false_negative (p : Z) (fuel : nat) (accuracy : Z)
    (r : rng) (i : nat) :
  p <= Z.of_nat fuel ->
  (Z.prime p -> result (_is_prime fuel p accuracy r i) = Ret true)
  /\ (p < 2 -> result (_is_prime fuel p accuracy r i) = Ret false).
Proof.
  intros Hfuel. split.
  - intros Hp.
    destruct (is_prime_on_prime fuel p accuracy r i Hp Hfuel) as [j ->].
    reflexivity.
  - intros Hp. unfold _is_prime.
    destruct (Z.ltb_spec p 2) as [_ | ?]; [reflexivity | lia].
Qed.

Lemma is_prime_no_false_negative_witness :
  97 <= Z.of_nat 100
  /\ Z.prime 97
  /\ result (_is_prime 100 97 100 ones O) = Ret true.
Proof.
  split; [lia |].
  assert (Hp : Z.prime 97) by (apply prime_by_trial; [lia | reflexivity]).
  split; [exact Hp |].
  apply (is_prime_no_false_negative 97 100 100 ones O); [lia | exact Hp].
Defined.

(** * The Moebius table *)

(** ** The two loops, cell by cell *)

Lemma in_slice_0 (step i : Z) :
  0 <= i -> in_slice 0 step i = (i mod step =? 0).
Proof.
  intros Hi. unfold in_slice. rewrite Z.sub_0_r.
  destruct (Z.leb_spec 0 i); [reflexivity | lia].
Qed.

Lemma mobius_mark_length (mlist : list Z) (p : Z) :
  length (mobius_mark mlist p) = length mlist.
Proof. unfold mobius_mark, slice_assign. now rewrite !slice_update_length. Qed.

Lemma mobius_mark_cell (mlist : list Z) (p i : Z) :
  0 <= i ->
  cell (mobius_mark mlist p) i = option_map (mark_cell p i) (cell mlist i).
Proof.
  intros Hi. unfold mobius_mark, slice_assign.
  rewrite !slice_update_cell, !in_slice_0 by exact Hi.
  destruct (cell mlist i) as [v |]; [| reflexivity].
  cbn [option_map]. unfold mark_cell.
  now destruct (i mod (p * p) =? 0), (i mod p =? 0).
Qed.

Lemma mobius_marks_cell (ps : list Z) :
  forall mlist i,
    0 <= i ->
    cell (fold_left mobius_mark ps mlist) i
    = option_map (cell_fold ps i) (cell mlist i).
Proof.
  induction ps as [| p ps IH]; intros mlist i Hi; cbn [fold_left].
  - now destruct (cell mlist i).
  - rewrite IH, mobius_mark_cell by exact Hi.
    now destruct (cell mlist i).
Qed.

Lemma mobius_marks_length (ps : list Z) :
  forall mlist, length (fold_left mobius_mark ps mlist) = length mlist.
Proof.
  induction ps as [| p ps IH]; intros mlist; cbn [fold_left]; [reflexivity |].
  now rewrite IH, mobius_mark_length.
Qed.

Lemma setitem_nat_spec {A : Type} (v : A) :
  forall (l : list A) (i : nat),
    (i < length l)%nat ->
    exists l',
      setitem_nat l i v = Ret l'
      /\ length l' = length l
      /\ forall j, nth_error l' j = if Nat.eqb j i then Some v else nth_error l j.
Proof.
  induction l as [| x l IH]; intros i Hi; cbn [length] in Hi; [lia |].
  destruct i as [| i]; cbn [setitem_nat].
  - eexists. split; [reflexivity |]. split; [reflexivity |].
    intros [| j]; reflexivity.
  - destruct (IH i ltac:(lia)) as [l' [-> [Hlen Hnth]]]. cbn [obind].
    eexists. split; [reflexivity |]. split; [cbn [length]; lia |].
    intros [| j]; [reflexivity |]. cbn [nth_error Nat.eqb]. apply Hnth.
Qed.

Lemma setitem_spec {A : Type} (l : list A) (i : Z) (v : A) :
  0 <= i < Z.of_nat (length l) ->
  exists l',
    setitem l i v = Ret l'
    /\ length l' = length l
    /\ forall j, 0 <= j -> cell l' j = if j =? i then Some v else cell l j.
Proof.
  intros Hi. unfold setitem.
  destruct (setitem_nat_spec v l (Z.to_nat i) ltac:(lia)) as [l' [Heq [Hlen Hnth]]].
  exists l'. split; [exact Heq |]. split; [exact Hlen |].
  intros j Hj. unfold cell. rewrite Hnth.
  destruct (Z.eqb_spec j i) as [-> | Hne].
  - now rewrite Nat.eqb_refl.
  - destruct (Nat.eqb_spec (Z.to_nat j) (Z.to_nat i)); [lia | reflexivity].
Qed.

Lemma getitem_cell {A : Type} (l : list A) (i : Z) (x : A) :
  cell l i = Some x -> getitem l i = Ret x.
Proof. unfold cell, getitem. now intros ->. Qed.

Lemma mobius_normalise_spec (mlist : list Z) (i : Z) :
  0 <= i < Z.of_nat (length mlist) ->
  exists mlist',
    mobius_normalise mlist i = Ret mlist'
    /\ length mlist' = length mlist
    /\ forall j, 0 <= j ->
         cell mlist' j
         = if j =? i then option_map (normalise i) (cell mlist i)
           else cell mlist j.
Proof.
  intros Hi. unfold mobius_normalise.
  destruct (cell_in_range mlist i Hi) as [v Hv].
  rewrite (getitem_cell _ _ _ Hv). cbn [obind].
  destruct (Z.eqb_spec v 0) as [-> | Hv0].
  - exists mlist. split; [reflexivity |]. split; [reflexivity |].
    intros j Hj. destruct (Z.eqb_spec j i) as [-> | _]; [| reflexivity].
    now rewrite Hv.
  - set (v' := if Z.abs v <? i then v * -1 else v).
    assert (Hflip : exists l1,
               (if Z.abs v <? i then setitem mlist i (v * -1) else Ret mlist)
               = Ret l1
               /\ length l1 = length mlist
               /\ forall j, 0 <= j ->
                    cell l1 j = if j =? i then Some v' else cell mlist j).
    { unfold v'. destruct (Z.abs v <? i).
      - apply setitem_spec. exact Hi.
      - exists mlist. split; [reflexivity |]. split; [reflexivity |].
        intros j Hj. destruct (Z.eqb_spec j i) as [-> | _]; [exact Hv | reflexivity]. }
    destruct Hflip as [l1 [-> [Hlen1 Hcell1]]]. cbn [obind].
    assert (Hv1 : cell l1 i = Some v').
    { rewrite Hcell1 by lia. now rewrite Z.eqb_refl. }
    rewrite (getitem_cell _ _ _ Hv1). cbn [obind].
    destruct (setitem_spec l1 i (if 0 <? v' then 1 else -1) ltac:(lia))
      as [l2 [Heq [Hlen2 Hcell2]]].
    exists l2. split; [exact Heq |]. split; [congruence |].
    intros j Hj. rewrite Hcell2 by exact Hj.
    destruct (Z.eqb_spec j i) as [-> | Hne].
    + rewrite Hv. cbn [option_map]. unfold normalise.
      destruct (Z.eqb_spec v 0); [contradiction | reflexivity].
    + rewrite Hcell1 by exact Hj.
      destruct (Z.eqb_spec j i); [contradiction | reflexivity].
Qed.

Lemma mobius_normalise_loop_spec (idxs : list Z) :
  NoDup idxs ->
  forall mlist,
    Forall (fun i => 0 <= i < Z.of_nat (length mlist)) idxs ->
    exists mlist',
      mobius_normalise_loop mlist idxs = Ret mlist'
      /\ length mlist' = length mlist
      /\ forall j, 0 <= j ->
           (In j idxs -> cell mlist' j = option_map (normalise j) (cell mlist j))
           /\ (~ In j idxs -> cell mlist' j = cell mlist j).
Proof.
  induction 1 as [| i idxs Hnin Hnd IH]; intros mlist Hall.
  - exists mlist. split; [reflexivity |]. split; [reflexivity |].
    intros j Hj. split; [intros [] | reflexivity].
  - inversion Hall as [| ? ? Hi Hrest]; subst.
    destruct (mobius_normalise_spec mlist i Hi) as [l1 [Hstep [Hlen1 Hcell1]]].
    cbn [mobius_normalise_loop]. rewrite Hstep. cbn [obind].
    destruct (IH l1) as [l2 [Hloop [Hlen2 Hcell2]]].
    { now rewrite Hlen1. }
    exists l2. split; [exact Hloop |]. split; [congruence |].
    intros j Hj. destruct (Hcell2 j Hj) as [Hin Hout].
    specialize (Hcell1 j Hj). split.
    + intros [E | Hjin].
      * subst j. rewrite Hout by exact Hnin. rewrite Hcell1.
        now rewrite Z.eqb_refl.
      * rewrite Hin by exact Hjin. rewrite Hcell1.
        destruct (Z.eqb_spec j i) as [E | _]; [| reflexivity].
        exfalso. apply Hnin. now rewrite <- E.
    + intros Hjn. rewrite Hout by (intros H; apply Hjn; now right).
      rewrite Hcell1.
      destruct (Z.eqb_spec j i) as [E | _]; [| reflexivity].
      exfalso. apply Hjn. left. now symmetry.
Qed.

(** ** Products of primes *)

Lemma In_divides_product (x : Z) (l : list Z) :
  In x l -> (x | list_product l).
Proof.
  induction l as [| y l IH]; [intros [] |]. cbn [list_product fold_right].
  intros [-> | Hin].
  - apply Z.divide_factor_l.
  - apply Z.divide_mul_r. now apply IH.
Qed.

Lemma prime_divides_product (q : Z) (l : list Z) :
  Z.prime q -> Forall Z.prime l -> (q | list_product l) -> In q l.
Proof.
  intros Hq. induction 1 as [| x l Hx Hl IH]; cbn [list_product fold_right].
  - intros Hd. apply Z.divide_1_r in Hd. pose proof (Z.prime_ge_2 q Hq). lia.
  - intros Hd. apply Z.divide_prime_mul in Hd; [| exact Hq].
    destruct Hd as [Hd | Hd].
    + left. symmetry. now apply Z.divide_prime_prime.
    + right. now apply IH.
Qed.

Lemma list_product_ge_1 (l : list Z) :
  Forall Z.prime l -> 1 <= list_product l.
Proof.
  induction 1 as [| x l Hx Hl IH]; cbn [list_product fold_right]; [lia |].
  pose proof (Z.prime_ge_2 x Hx). fold (list_product l). nia.
Qed.

(** A product of distinct primes has no square prime factor. *)
Lemma distinct_primes_squarefree (q : Z) (l : list Z) :
  Z.prime q -> NoDup l -> Forall Z.prime l -> ~ (q * q | list_product l).
Proof.
  intros Hq Hnd. induction Hnd as [| x l Hnin Hnd IH]; intros Hall Hd.
  - cbn in Hd. apply Z.divide_1_r in Hd. pose proof (Z.prime_ge_2 q Hq). nia.
  - inversion Hall as [| ? ? Hx Hl]; subst.
    cbn [list_product fold_right] in Hd. fold (list_product l) in Hd.
    destruct (Z.eq_dec q x) as [-> | Hne].
    + apply Hnin. apply prime_divides_product; [exact Hx | exact Hl |].
      destruct Hd as [c Hc]. exists c.
      pose proof (Z.prime_ge_2 x Hx). nia.
    + apply IH; [exact Hl |].
      apply Z.gauss with x; [exact Hd |].
      assert (Hqx : Z.coprime q x).
      { apply Z.coprime_prime_l; [exact Hq |].
        intros Hdiv. apply Hne. now apply Z.divide_prime_prime. }
      now apply Z.coprime_mul_l.
Qed.

Lemma list_product_cons (x : Z) (l : list Z) :
  list_product (x :: l) = x * list_product l.
Proof. reflexivity. Qed.

Lemma list_product_filter_split (f : Z -> bool) (l : list Z) :
  list_product l
  = list_product (filter f l) * list_product (filter (fun x => negb (f x)) l)
  /\ length l
     = (length (filter f l) + length (filter (fun x => negb (f x)) l))%nat.
Proof.
  induction l as [| x l [IHp IHl]]; [split; reflexivity |].
  cbn [filter]. destruct (f x); cbn [negb length];
    rewrite !list_product_cons, IHp; split; try ring; lia.
Qed.

Lemma list_product_opp (l : list Z) :
  list_product (map Z.opp l) = (-1) ^ Z.of_nat (length l) * list_product l.
Proof.
  induction l as [| x l IH]; [reflexivity |].
  cbn [map length]. rewrite !list_product_cons.
  rewrite IH, Nat2Z.inj_succ, Z.pow_succ_r by lia. ring.
Qed.

Lemma pow_m1_cases (k : nat) :
  (-1) ^ Z.of_nat k = 1 \/ (-1) ^ Z.of_nat k = -1.
Proof.
  induction k as [| k IH]; [now left |].
  rewrite Nat2Z.inj_succ, Z.pow_succ_r by lia. lia.
Qed.

(** ** The cells after the first loop *)

Lemma cell_fold_cons (p : Z) (ps : list Z) (i v : Z) :
  cell_fold (p :: ps) i v = cell_fold ps i (mark_cell p i v).
Proof. reflexivity. Qed.

Lemma cell_fold_zero (ps : list Z) (i : Z) : cell_fold ps i 0 = 0.
Proof.
  unfold cell_fold. induction ps as [| p ps IH]; [reflexivity |].
  cbn [fold_left]. unfold mark_cell at 2.
  destruct (i mod (p * p) =? 0), (i mod p =? 0); exact IH.
Qed.

Lemma cell_fold_square (ps : list Z) (q i : Z) :
  In q ps -> i mod (q * q) = 0 -> forall v, cell_fold ps i v = 0.
Proof.
  intros Hin Hmod. induction ps as [| p ps IH]; [destruct Hin |].
  intros v. rewrite cell_fold_cons.
  destruct Hin as [-> | Hin].
  - unfold mark_cell. rewrite Hmod. cbn [Z.eqb]. apply cell_fold_zero.
  - now apply IH.
Qed.

Lemma cell_fold_radical (ps : list Z) (i : Z) :
  (forall p, In p ps -> i mod (p * p) <> 0) ->
  forall v,
    cell_fold ps i v
    = v * list_product (map Z.opp (filter (fun p => i mod p =? 0) ps)).
Proof.
  induction ps as [| p ps IH]; intros Hsq v.
  - cbn. ring.
  - rewrite cell_fold_cons.
    rewrite IH by (intros p' Hp'; apply Hsq; now right).
    unfold mark_cell. cbn [filter].
    destruct (Z.eqb_spec (i mod (p * p)) 0) as [E | _].
    + exfalso. apply (Hsq p); [now left | exact E].
    + destruct (i mod p =? 0); [| reflexivity].
      cbn [map]. rewrite list_product_cons. ring.
Qed.

(** ** The value left in a cell *)

Lemma mem_spec (x : Z) (l : list Z) : mem x l = true <-> In x l.
Proof.
  unfold mem. rewrite existsb_exists. split.
  - intros [y [Hy Heq]]. apply Z.eqb_eq in Heq. now subst.
  - intros H. exists x. split; [exact H | apply Z.eqb_refl].
Qed.

(** Primes above the square root of [n]: a number up to [n] has at most
    one of them among its distinct prime factors. *)
Lemma large_primes_at_most_one (n : Z) (B : list Z) :
  Forall Z.prime B -> Forall (fun q => n < q * q) B ->
  list_product B <= n ->
  B = [] \/ exists q, B = [q].
Proof.
  intros Hp Hlarge Hle.
  destruct B as [| q1 [| q2 B]]; [now left | right; now exists q1 | exfalso].
  inversion Hp as [| ? ? Hq1 Hp']; subst.
  inversion Hp' as [| ? ? Hq2 Hp'']; subst.
  inversion Hlarge as [| ? ? Hl1 Hlarge']; subst.
  inversion Hlarge' as [| ? ? Hl2 _]; subst.
  rewrite !list_product_cons in Hle.
  pose proof (list_product_ge_1 B Hp'').
  pose proof (Z.prime_ge_2 q1 Hq1). pose proof (Z.prime_ge_2 q2 Hq2).
  assert (Hq : q1 * q2 <= n) by nia.
  destruct (Z.le_ge_cases q1 q2); nia.
Qed.

Lemma normalise_radical (n i : Z) (plist ps : list Z) :
  1 <= i <= n ->
  NoDup plist -> Forall Z.prime plist ->
  (forall q, Z.prime q -> q * q <= n -> In q plist) ->
  NoDup ps -> Forall Z.prime ps -> list_product ps = i ->
  normalise i (cell_fold plist i 1) = (-1) ^ Z.of_nat (length ps).
Proof.
  intros Hi Hnd Hprimes Hsmall Hndps Hps Hprod.
  assert (Hpl : forall p, In p plist -> Z.prime p)
    by (apply Forall_forall; exact Hprimes).
  assert (Hpp : forall p, In p ps -> Z.prime p)
    by (apply Forall_forall; exact Hps).
  (* no cell of a squarefree number is cleared *)
  rewrite cell_fold_radical.
  2:{ intros p Hp Hmod. apply Z.mod_divide in Hmod.
      - apply (distinct_primes_squarefree p ps (Hpl p Hp) Hndps Hps).
        now rewrite Hprod.
      - pose proof (Z.prime_ge_2 p (Hpl p Hp)). nia. }
  rewrite Z.mul_1_l, list_product_opp.
  set (A := filter (fun p => i mod p =? 0) plist).
  set (A' := filter (fun q => mem q plist) ps).
  set (B := filter (fun q => negb (mem q plist)) ps).
  assert (HA : forall x, In x A <-> In x plist /\ In x ps).
  { intros x. unfold A. rewrite filter_In. split; intros [Hx H]; (split; [exact Hx |]).
    - apply Z.eqb_eq in H. apply Z.mod_divide in H.
      + apply prime_divides_product; [now apply Hpl | exact Hps | now rewrite Hprod].
      + pose proof (Z.prime_ge_2 x (Hpl x Hx)). lia.
    - apply Z.eqb_eq. apply Z.mod_divide.
      + pose proof (Z.prime_ge_2 x (Hpl x Hx)). lia.
      + rewrite <- Hprod. now apply In_divides_product. }
  assert (Hperm : Permutation A A').
  { apply NoDup_Permutation.
    - now apply NoDup_filter.
    - now apply NoDup_filter.
    - intros x. rewrite HA. unfold A'. rewrite filter_In, mem_spec. tauto. }
  rewrite (list_product_perm _ _ Hperm), (Permutation_length Hperm).
  destruct (list_product_filter_split (fun q => mem q plist) ps) as [Hsplit Hlen].
  fold A' B in Hsplit, Hlen.
  assert (HA'p : Forall Z.prime A').
  { apply Forall_forall. intros x Hx. apply filter_In in Hx. now apply Hpp. }
  assert (HBp : Forall Z.prime B).
  { apply Forall_forall. intros x Hx. apply filter_In in Hx. now apply Hpp. }
  pose proof (list_product_ge_1 A' HA'p) as HA1.
  pose proof (list_product_ge_1 B HBp) as HB1.
  assert (HBlarge : Forall (fun q => n < q * q) B).
  { apply Forall_forall. intros q Hq. apply filter_In in Hq.
    destruct Hq as [Hqps Hmem].
    destruct (Z.lt_ge_cases n (q * q)) as [? | Hle]; [assumption | exfalso].
    apply (Hsmall q (Hpp q Hqps)) in Hle. apply mem_spec in Hle.
    rewrite Hle in Hmem. discriminate Hmem. }
  rewrite Hlen, Nat2Z.inj_add.
  destruct (large_primes_at_most_one n B HBp HBlarge ltac:(nia)) as [HB | [q HB]];
    rewrite HB in *; cbn [length Z.of_nat].
  - rewrite Z.add_0_r.
    change (list_product []) with 1 in Hsplit.
    unfold normalise.
    destruct (pow_m1_cases (length A')) as [-> | ->].
    + replace (1 * list_product A') with i by lia.
      destruct (Z.eqb_spec i 0); [lia |].
      destruct (Z.ltb_spec (Z.abs i) i); [lia |].
      destruct (Z.ltb_spec 0 i); [reflexivity | lia].
    + replace (-1 * list_product A') with (- i) by lia.
      destruct (Z.eqb_spec (- i) 0); [lia |].
      destruct (Z.ltb_spec (Z.abs (- i)) i); [lia |].
      destruct (Z.ltb_spec 0 (- i)); [lia | reflexivity].
  - rewrite Z.pow_add_r by lia.
    change ((-1) ^ Z.of_nat 1) with (-1).
    rewrite list_product_cons in Hsplit.
    change (list_product []) with 1 in Hsplit.
    pose proof (Z.prime_ge_2 q (Forall_inv HBp)) as Hq2.
    assert (Hlt : list_product A' < i) by nia.
    unfold normalise.
    destruct (pow_m1_cases (length A')) as [-> | ->].
    + rewrite Z.mul_1_l.
      destruct (Z.eqb_spec (list_product A') 0); [lia |].
      destruct (Z.ltb_spec (Z.abs (list_product A')) i); [| lia].
      destruct (Z.ltb_spec 0 (list_product A' * -1)); [lia | reflexivity].
    + destruct (Z.eqb_spec (-1 * list_product A') 0); [lia |].
      destruct (Z.ltb_spec (Z.abs (-1 * list_product A')) i); [| lia].
      destruct (Z.ltb_spec 0 (-1 * list_product A' * -1)); [reflexivity | lia].
Qed.

(** ** The table *)

Lemma sorted_NoDup (l : list Z) : StronglySorted Z.lt l -> NoDup l.
Proof.
  induction 1 as [| x l Hl IH Hall]; constructor; [| exact IH].
  intros Hin. pose proof (proj1 (Forall_forall _ _) Hall x Hin). lia.
Qed.

(** The primes handed to the first loop: distinct, and all the primes up
    to the square root of [n] are among them. *)
Lemma mobius_primes (n : Z) :
  1 <= n ->
  exists plist,
    primes_list (isqrt n + 1) = Ret plist
    /\ NoDup plist /\ Forall Z.prime plist
    /\ forall q, Z.prime q -> q * q <= n -> In q plist.
Proof.
  intros Hn. unfold primes_list, isqrt.
  pose proof (Z.sqrt_spec n ltac:(lia)) as [Hlo Hhi].
  pose proof (Z.sqrt_nonneg n) as Hs.
  destruct (Z.lt_ge_cases (Z.sqrt n + 1) 6) as [Hsmall | Hbig].
  - exists [2; 3]. split; [apply primes_list_small; lia |].
    split; [repeat constructor; cbn; lia |].
    split; [constructor; [exact Z.prime_2 |];
            constructor; [exact Z.prime_3 | constructor] |].
    intros q Hq Hqq. pose proof (Z.prime_ge_2 q Hq).
    assert (Hq4 : q <= 4) by nia.
    assert (Hc : q = 2 \/ q = 3 \/ q = 4) by lia.
    destruct Hc as [-> | [-> | ->]]; [now left | now right; left | exfalso].
    destruct Hq as [_ Hq]. apply (Hq 2); [lia | now exists 2].
  - destruct (primes_list_spec (Z.sqrt n + 1) Hbig) as [l [Hl [Hsorted Hin]]].
    exists l. split; [exact Hl |]. split; [now apply sorted_NoDup |].
    split.
    + apply Forall_forall. intros q Hq. now apply Hin.
    + intros q Hq Hqq. apply Hin. split; [exact Hq |].
      pose proof (Z.prime_ge_2 q Hq).
      assert (q <= Z.sqrt n) by (apply Z.sqrt_le_square; lia). lia.
Qed.

(** The table in closed form: cell [k] holds the normalised value left
    by the first loop. *)
Lemma mobius_list_cells (n : Z) :
  1 <= n ->
  exists plist mlist,
    primes_list (isqrt n + 1) = Ret plist
    /\ _mobius_list n = Ret mlist
    /\ Z.of_nat (length mlist) = n + 1
    /\ forall k, 1 <= k <= n ->
         cell mlist k = Some (normalise k (cell_fold plist k 1)).
Proof.
  intros Hn. destruct (mobius_primes n Hn) as [plist [Hpl _]].
  unfold _mobius_list. rewrite Hpl. cbn [obind]. unfold np_ones.
  destruct (Z.ltb_spec (n + 1) 0) as [? | _]; [lia |]. cbn [obind].
  set (m0 := repeat 1 (Z.to_nat (n + 1))).
  set (m1 := fold_left mobius_mark plist m0).
  assert (Hlen1 : Z.of_nat (length m1) = n + 1).
  { unfold m1, m0. rewrite mobius_marks_length, repeat_length. lia. }
  destruct (mobius_normalise_loop_spec (range 1 (n + 1)) (range_NoDup _ _) m1)
    as [mlist [Hloop [Hlen Hcells]]].
  { apply Forall_forall. intros i Hi. apply In_range in Hi. lia. }
  exists plist, mlist. split; [reflexivity |]. split; [exact Hloop |].
  split; [congruence |].
  intros k Hk. destruct (Hcells k ltac:(lia)) as [Hin _].
  rewrite Hin by (apply In_range; lia).
  unfold m1. rewrite mobius_marks_cell by lia.
  unfold m0. rewrite cell_repeat by lia. reflexivity.
Qed.

(** C3: for [n >= 1] and [1 <= k <= n], cell [k] of [_mobius_list n]
    holds the Moebius function of [k]: 1 for [k = 1], 0 when a squared
    prime divides [k], and [(-1)^r] when [k] is the product of [r]
    distinct primes. *)
Theorem mobius_list_correct (n k : Z) :
  1 <= n -> 1 <= k <= n ->
  exists mlist v,
    _mobius_list n = Ret mlist
    /\ Z.of_nat (length mlist) = n + 1
    /\ cell mlist k = Some v
    /\ (k = 1 -> v = 1)
    /\ ((exists q, Z.prime q /\ (q * q | k)) -> v = 0)
    /\ (forall ps,
          NoDup ps -> Forall Z.prime ps -> list_product ps = k ->
          v = (-1) ^ Z.of_nat (length ps)).
Proof.
  intros Hn Hk.
  destruct (mobius_list_cells n Hn) as [plist [mlist [Hpl [Hm [Hlen Hcells]]]]].
  destruct (mobius_primes n Hn) as [plist' [Hpl' [Hnd [Hprimes Hsmall]]]].
  assert (plist' = plist) by congruence. subst plist'.
  exists mlist, (normalise k (cell_fold plist k 1)).
  split; [exact Hm |]. split; [exact Hlen |].
  split; [now apply Hcells |].
  assert (Hps : forall ps,
            NoDup ps -> Forall Z.prime ps -> list_product ps = k ->
            normalise k (cell_fold plist k 1) = (-1) ^ Z.of_nat (length ps)).
  { intros ps. now apply (normalise_radical n k plist ps). }
  split; [| split].
  - intros ->. apply (Hps []); [constructor | constructor | reflexivity].
  - intros [q [Hq Hdiv]].
    pose proof (Z.prime_ge_2 q Hq) as Hq2.
    assert (Hle : q * q <= k) by (apply Z.divide_pos_le; [lia | exact Hdiv]).
    rewrite (cell_fold_square plist q k).
    + reflexivity.
    + apply Hsmall; [exact Hq | lia].
    + apply Z.mod_divide; [nia | exact Hdiv].
  - exact Hps.
Qed.

Lemma mobius_list_correct_witness :
  1 <= 10 /\ 1 <= 6 <= 10
  /\ exists mlist v,
       _mobius_list 10 = Ret mlist
       /\ Z.of_nat (length mlist) = 10 + 1
       /\ cell mlist 6 = Some v
       /\ (6 = 1 -> v = 1)
       /\ ((exists q, Z.prime q /\ (q * q | 6)) -> v = 0)
       /\ (forall ps,
             NoDup ps -> Forall Z.prime ps -> list_product ps = 6 ->
             v = (-1) ^ Z.of_nat (length ps)).
Proof.
  split; [lia |]. split; [lia |].
  apply (mobius_list_correct 10 6); lia.
Defined.

(** ** The [np.int64] cells of the Moebius table never overflow *)

Lemma cell_fold_cases (ps : list Z) (i : Z) :
  forall v,
    cell_fold ps i v = 0
    \/ cell_fold ps i v
       = v * list_product (map Z.opp (filter (fun p => i mod p =? 0) ps)).
Proof.
  induction ps as [| p ps IH]; intros v.
  - right. cbn. ring.
  - rewrite cell_fold_cons. unfold mark_cell. cbn [filter].
    destruct (i mod (p * p) =? 0); [left; apply cell_fold_zero |].
    destruct (i mod p =? 0).
    + destruct (IH (v * - p)) as [-> | ->]; [now left | right].
      cbn [map]. rewrite list_product_cons. ring.
    + apply IH.
Qed.

Lemma distinct_primes_product_divides (l : list Z) (i : Z) :
  NoDup l -> Forall Z.prime l -> (forall q, In q l -> (q | i)) ->
  (list_product l | i).
Proof.
  induction 1 as [| q l Hnin Hnd IH]; intros Hp Hdiv.
  - apply Z.divide_1_l.
  - inversion Hp as [| ? ? Hq Hl]; subst.
    rewrite list_product_cons.
    destruct (Hdiv q (or_introl eq_refl)) as [k ->].
    rewrite (Z.mul_comm k q). apply Z.mul_divide_mono_l.
    apply Z.gauss with q.
    + rewrite Z.mul_comm.
      apply IH; [exact Hl |]. intros q' Hq'. apply Hdiv. now right.
    + rewrite Z.gcd_comm.
      apply Z.coprime_prime_l; [exact Hq |].
      intros Hd. apply Hnin. now apply prime_divides_product.
Qed.

(** Every value the first loop writes in a cell [1 <= i] divides [i]. *)
Lemma mobius_cell_bounded (pre : list Z) (p i : Z) :
  1 <= i -> NoDup (pre ++ [p]) -> Forall Z.prime (pre ++ [p]) ->
  Z.abs (cell_fold pre i 1) <= i
  /\ (i mod p = 0 -> Z.abs (cell_fold pre i 1 * - p) <= i).
Proof.
  intros Hi Hnd Hprimes.
  apply Forall_app in Hprimes. destruct Hprimes as [Hpre Hp].
  pose proof (Z.prime_ge_2 p (Forall_inv Hp)) as Hp2.
  set (A := filter (fun q => i mod q =? 0) pre).
  assert (HA : forall q, In q A -> In q pre /\ (q | i)).
  { intros q Hq. apply filter_In in Hq. destruct Hq as [Hq Hmod].
    split; [exact Hq |]. apply Z.eqb_eq in Hmod. apply Z.mod_divide; [| exact Hmod].
    pose proof (Z.prime_ge_2 q (proj1 (Forall_forall _ _) Hpre q Hq)). lia. }
  assert (HAnd : NoDup A).
  { apply NoDup_filter. now apply NoDup_app_remove_r in Hnd. }
  assert (HAp : Forall Z.prime A).
  { apply Forall_forall. intros q Hq.
    exact (proj1 (Forall_forall _ _) Hpre q (proj1 (HA q Hq))). }
  pose proof (list_product_ge_1 A HAp) as HA1.
  assert (Habs : forall v, v = 0 \/ v = 1 * list_product (map Z.opp A) ->
                   Z.abs v = 0 \/ Z.abs v = list_product A).
  { intros v [-> | ->]; [now left | right].
    rewrite Z.mul_1_l, list_product_opp, Z.abs_mul.
    destruct (pow_m1_cases (length A)) as [-> | ->]; cbn [Z.abs]; lia. }
  destruct (Habs _ (cell_fold_cases pre i 1)) as [H0 | HP].
  - rewrite Z.abs_mul, H0. split; [lia | intros; lia].
  - split.
    + rewrite HP. apply Z.divide_pos_le; [lia |].
      apply distinct_primes_product_divides; try assumption.
      intros q Hq. now apply HA.
    + intros Hmod. rewrite Z.abs_mul, HP, Z.abs_opp, Z.abs_eq by lia.
      rewrite Z.mul_comm, <- list_product_cons.
      apply Z.divide_pos_le; [lia |].
      apply distinct_primes_product_divides.
      * constructor; [| exact HAnd]. intros Hin. apply HA in Hin.
        apply NoDup_remove_2 in Hnd. rewrite app_nil_r in Hnd. tauto.
      * constructor; [exact (Forall_inv Hp) | exact HAp].
      * intros q [<- | Hq]; [| now apply HA].
        apply Z.mod_divide; [lia | exact Hmod].
Qed.

(** Cell 0 holds 1, then -2, then 0. *)
Lemma mobius_cell0_bounded (pre : list Z) (p : Z) :
  Forall Z.prime (pre ++ [p]) ->
  Z.abs (cell_fold pre 0 1) <= 1 /\ Z.abs (cell_fold pre 0 1 * - p) <= p.
Proof.
  intros Hprimes. apply Forall_app in Hprimes. destruct Hprimes as [Hpre Hp].
  pose proof (Z.prime_ge_2 p (Forall_inv Hp)) as Hp2.
  destruct pre as [| q pre].
  - change (cell_fold [] 0 1) with 1. lia.
  - rewrite (cell_fold_square (q :: pre) q 0); [lia | now left |].
    apply Z.mod_0_l. pose proof (Z.prime_ge_2 q (Forall_inv Hpre)). nia.
Qed.

(** Whenever the table fits in memory ([n < 2^63]), every value held or
    written by the first loop of [_mobius_list] is an [int64]; the
    second loop only writes 1 and -1. *)
Theorem mobius_no_overflow (n : Z) (plist pre post : list Z) (p i : Z) :
  1 <= n < 2 ^ 63 ->
  primes_list (isqrt n + 1) = Ret plist -> plist = pre ++ p :: post ->
  0 <= i <= n ->
  - 2 ^ 63 <= cell_fold pre i 1 < 2 ^ 63
  /\ (i mod p = 0 -> - 2 ^ 63 <= cell_fold pre i 1 * - p < 2 ^ 63).
Proof.
  intros Hn Hpl Hsplit Hi.
  destruct (mobius_primes n ltac:(lia)) as [plist' [Hpl' [Hnd [Hprimes Hsmall]]]].
  assert (plist' = plist) by congruence. subst plist'.
  rewrite Hsplit in Hnd, Hprimes.
  replace (pre ++ p :: post) with ((pre ++ [p]) ++ post) in Hnd, Hprimes
    by (now rewrite <- app_assoc).
  apply NoDup_app_remove_r in Hnd.
  apply Forall_app in Hprimes. destruct Hprimes as [Hprimes _].
  assert (Hp : 2 <= p < 2 ^ 63).
  { assert (Hin : In p plist) by (rewrite Hsplit; apply in_elt).
    clear Hnd Hprimes Hsmall.
    unfold primes_list, isqrt in Hpl.
    pose proof (Z.sqrt_spec n ltac:(lia)) as [Hlo _].
    pose proof (Z.sqrt_nonneg n).
    destruct (Z.lt_ge_cases (Z.sqrt n + 1) 6) as [Hs | Hs].
    - rewrite primes_list_small in Hpl by lia. injection Hpl as <-.
      destruct Hin as [<- | [<- | []]]; lia.
    - destruct (primes_list_spec _ Hs) as [l [Hl [_ Hspec]]].
      rewrite Hl in Hpl. injection Hpl as <-.
      apply Hspec in Hin. destruct Hin as [Hprime Hlt].
      pose proof (Z.prime_ge_2 p Hprime). nia. }
  destruct (Z.eq_dec i 0) as [-> | Hi0].
  - destruct (mobius_cell0_bounded pre p Hprimes) as [H1 H2].
    split; [lia | intros _; lia].
  - destruct (mobius_cell_bounded pre p i ltac:(lia) Hnd Hprimes) as [H1 H2].
    split; [lia |]. intros Hmod. specialize (H2 Hmod). lia.
Qed.

Lemma mobius_no_overflow_witness :
  1 <= 10 < 2 ^ 63
  /\ primes_list (isqrt 10 + 1) = Ret [2; 3]
  /\ [2; 3] = [2] ++ 3 :: []
  /\ 0 <= 6 <= 10
  /\ - 2 ^ 63 <= cell_fold [2] 6 1 < 2 ^ 63
  /\ (6 mod 3 = 0 -> - 2 ^ 63 <= cell_fold [2] 6 1 * - 3 < 2 ^ 63).
Proof.
  split; [lia |]. split; [reflexivity |]. split; [reflexivity |].
  split; [lia |].
  apply (mobius_no_overflow 10 [2; 3] [2] [] 3 6); try reflexivity; lia.
Defined.

(** * Pollard's rho *)

Lemma pollard_rho_loop_S (fuel : nat) (n c x y d : Z) :
  _pollard_rho_loop (S fuel) n c x y d =
  if (d =? 1) && negb (d =? n) then
    if n =? 0 then Raise ZeroDivisionError
    else
      let x' := rho_f x c mod n in
      let y' := rho_f (rho_f y c mod n) c mod n in
      _pollard_rho_loop fuel n c x' y' (gcd (y' - x') n)
  else Ret d.
Proof. reflexivity. Qed.

Lemma pollard_rho_loop_neg (fuel : nat) :
  forall n c x y d, n < 0 -> d = 1 \/ 2 <= d ->
    _pollard_rho_loop fuel n c x y d = OutOfFuel
    \/ exists d', _pollard_rho_loop fuel n c x y d = Ret d' /\ 2 <= d'.
Proof.
  induction fuel as [| fuel IH]; intros n c x y d Hn Hd; [now left |].
  rewrite pollard_rho_loop_S.
  destruct (Z.eqb_spec d 1) as [-> | Hd1]; cbn [andb].
  - destruct (Z.eqb_spec 1 n) as [<- | _]; [lia |]. cbn [negb].
    destruct (Z.eqb_spec n 0) as [-> | _]; [lia |].
    cbv zeta. apply IH; [exact Hn |].
    unfold gcd.
    set (g := Z.gcd _ n).
    assert (0 <= g) by apply Z.gcd_nonneg.
    assert (g <> 0).
    { intros Hg. apply Z.gcd_eq_0_r in Hg. lia. }
    lia.
  - right. exists d. split; [reflexivity | lia].
Qed.

(** ** Floyd's cycle detection always stops *)

Lemma not_NoDup_map_seq (f : nat -> Z) :
  forall len a, ~ NoDup (map f (seq a len)) ->
    exists i j, (a <= i < j)%nat /\ (j < a + len)%nat /\ f i = f j.
Proof.
  induction len as [| len IH]; intros a Hdup.
  - exfalso. apply Hdup. constructor.
  - cbn [seq map] in Hdup.
    destruct (in_dec Z.eq_dec (f a) (map f (seq (S a) len))) as [Hin | Hnin].
    + apply in_map_iff in Hin. destruct Hin as [j [Hj Hjin]].
      apply in_seq in Hjin. exists a, j. repeat split; lia.
    + destruct (IH (S a)) as [i [j [Hij [Hj Hf]]]].
      * intros Hnd. apply Hdup. now constructor.
      * exists i, j. repeat split; lia.
Qed.

(** [m + 1] values below [m] cannot be pairwise distinct. *)
Lemma pigeonhole_fun (m : nat) (f : nat -> Z) (a : nat) :
  (forall i, (a <= i < a + S m)%nat -> 0 <= f i < Z.of_nat m) ->
  exists i j, (a <= i < j)%nat /\ (j < a + S m)%nat /\ f i = f j.
Proof.
  intros Hrange. apply not_NoDup_map_seq. intros Hnd.
  assert (Hincl : incl (map f (seq a (S m))) (map Z.of_nat (seq 0 m))).
  { intros v Hv. apply in_map_iff in Hv. destruct Hv as [i [<- Hi]].
    apply in_seq in Hi. specialize (Hrange i Hi).
    apply in_map_iff. exists (Z.to_nat (f i)). split; [lia |].
    apply in_seq. lia. }
  pose proof (NoDup_incl_length Hnd Hincl) as Hlen.
  rewrite !length_map, !length_seq in Hlen. lia.
Qed.

Section Floyd.
Variable F : Z -> Z.

Lemma iter_double (t : nat) (y : Z) :
  Nat.iter t (fun v => F (F v)) y = Nat.iter (2 * t) F y.
Proof.
  induction t as [| t IH]; [reflexivity |].
  replace (2 * S t)%nat with (S (S (2 * t))) by lia.
  cbn [Nat.iter nat_rect]. unfold Nat.iter in IH. now rewrite IH.
Qed.

Lemma iter_period (x0 : Z) (j k : nat) :
  (j < k)%nat -> Nat.iter j F x0 = Nat.iter k F x0 ->
  forall q m, (j <= m)%nat ->
    Nat.iter (m + q * (k - j)) F x0 = Nat.iter m F x0.
Proof.
  intros Hjk Heq.
  assert (Hone : forall m, (j <= m)%nat ->
                   Nat.iter (m + (k - j)) F x0 = Nat.iter m F x0).
  { intros m Hm.
    replace (m + (k - j))%nat with ((m - j) + k)%nat by lia.
    rewrite Nat.iter_add, <- Heq, <- Nat.iter_add.
    f_equal. lia. }
  induction q as [| q IH]; intros m Hm.
  - f_equal. lia.
  - replace (m + S q * (k - j))%nat with ((m + q * (k - j)) + (k - j))%nat by lia.
    rewrite Hone by lia. now apply IH.
Qed.

(** The tortoise and the hare meet within [N] steps when the orbit
    stays below [N]. *)
Lemma floyd_meeting (N : nat) (x0 : Z) :
  (forall i, (1 <= i)%nat -> 0 <= Nat.iter i F x0 < Z.of_nat N) ->
  exists t, (1 <= t <= N)%nat /\ Nat.iter t F x0 = Nat.iter (2 * t) F x0.
Proof.
  intros Hrange.
  destruct (pigeonhole_fun N (fun i => Nat.iter i F x0) 1) as [j [k [Hjk [Hk Heq]]]].
  { intros i Hi. apply Hrange. lia. }
  cbv beta in Heq.
  set (lam := (k - j)%nat).
  set (q := ((j + lam - 1) / lam)%nat).
  assert (Hlam : (lam <> 0)%nat) by (unfold lam; lia).
  pose proof (Nat.div_mod_eq (j + lam - 1) lam) as Hdm.
  pose proof (Nat.mod_upper_bound (j + lam - 1) lam Hlam) as Hr.
  fold q in Hdm.
  exists (q * lam)%nat. split; [nia |].
  replace (2 * (q * lam))%nat with (q * lam + q * (k - j))%nat by (unfold lam; lia).
  symmetry. apply iter_period; [lia | exact Heq | nia].
Qed.
End Floyd.

Lemma pollard_rho_loop_stop (fuel : nat) (n c x y d : Z) :
  d <> 1 -> _pollard_rho_loop (S fuel) n c x y d = Ret d.
Proof.
  intros Hd. rewrite pollard_rho_loop_S.
  destruct (Z.eqb_spec d 1); [contradiction | reflexivity].
Qed.

Lemma gcd_factor (a n : Z) : 2 <= n -> Z.gcd a n <> 1 -> 2 <= Z.gcd a n.
Proof.
  intros Hn H1.
  pose proof (Z.gcd_nonneg a n).
  assert (Z.gcd a n <> 0) by (intros H0; apply Z.gcd_eq_0_r in H0; lia).
  lia.
Qed.

Lemma pollard_rho_loop_meets (n c : Z) :
  2 <= n ->
  forall t fuel x y, (1 <= t)%nat -> (t < fuel)%nat ->
    Nat.iter t (fun v => rho_f v c mod n) x
    = Nat.iter t (fun v => rho_f (rho_f v c mod n) c mod n) y ->
    exists d, _pollard_rho_loop fuel n c x y 1 = Ret d /\ 2 <= d /\ (d | n).
Proof.
  intros Hn. induction t as [| t IH]; intros fuel x y Ht Hfuel Hmeet; [lia |].
  destruct fuel as [| fuel]; [lia |].
  rewrite pollard_rho_loop_S. change (1 =? 1) with true. cbn [andb].
  destruct (Z.eqb_spec 1 n) as [E | _]; [lia |]. cbn [negb].
  destruct (Z.eqb_spec n 0) as [E | _]; [lia |]. cbv zeta.
  set (x' := rho_f x c mod n) in *.
  set (y' := rho_f (rho_f y c mod n) c mod n) in *.
  destruct (Z.eq_dec (gcd (y' - x') n) 1) as [Hd | Hd].
  - rewrite Hd.
    destruct t as [| t].
    + exfalso. cbn in Hmeet. fold x' y' in Hmeet.
      unfold gcd in Hd. rewrite Hmeet, Z.sub_diag, Z.gcd_0_l in Hd. lia.
    + apply IH; [lia | lia |].
      rewrite (Nat.iter_succ_r (S t) Z (fun v => rho_f v c mod n)),
        (Nat.iter_succ_r (S t) Z (fun v => rho_f (rho_f v c mod n) c mod n))
        in Hmeet.
      exact Hmeet.
  - destruct fuel as [| fuel]; [lia |].
    rewrite pollard_rho_loop_stop by exact Hd.
    eexists. split; [reflexivity |]. unfold gcd in *.
    split; [now apply gcd_factor | apply Z.gcd_divide_r].
Qed.

(** With fuel beyond [n] the loop of [_pollard_rho] returns a divisor
    [d >= 2] of [n] (possibly [n] itself). *)
Lemma pollard_rho_loop_terminates (fuel : nat) (n c x0 : Z) :
  2 <= n -> n < Z.of_nat fuel ->
  exists d, _pollard_rho_loop fuel n c x0 x0 1 = Ret d /\ 2 <= d /\ (d | n).
Proof.
  intros Hn Hfuel.
  destruct (floyd_meeting (fun v => rho_f v c mod n) (Z.to_nat n) x0)
    as [t [Ht Hmeet]].
  { intros i Hi. destruct i as [| i]; [lia |].
    cbn [Nat.iter nat_rect]. rewrite Z2Nat.id by lia.
    apply Z.mod_pos_bound. lia. }
  apply (pollard_rho_loop_meets n c Hn t); [lia | lia |].
  pose proof (iter_double (fun v => rho_f v c mod n) t x0) as Hdbl.
  cbv beta in Hdbl. rewrite Hdbl. exact Hmeet.
Qed.

Lemma pollard_rho_terminates (fuel : nat) (n : Z) (rand : bool) (r : rng) (i : nat) :
  2 <= n -> n < Z.of_nat fuel ->
  exists d j, _pollard_rho fuel n rand r i = Ret (d, j) /\ 2 <= d /\ (d | n).
Proof.
  intros Hn Hfuel. unfold _pollard_rho.
  destruct rand; cbn [negb].
  - unfold bind, randrange, ret, lift. cbn [Z.leb Z.compare Pos.compare Pos.compare_cont].
    match goal with
    | |- context [_pollard_rho_loop fuel n ?c ?x ?x 1] =>
        destruct (pollard_rho_loop_terminates fuel n c x Hn Hfuel) as [d [-> Hd]]
    end.
    eauto.
  - unfold bind, ret, lift.
    destruct (pollard_rho_loop_terminates fuel n 1 1 Hn Hfuel) as [d [-> Hd]].
    eauto.
Qed.

(** ** Pollard's rho returning its argument *)

(** C6 (the code at the failing input): on the composite
    [103444057 = 10099 * 10243] with the fixed seeds, the cycle is
    detected with [gcd = n] and [n] itself is returned; there is no
    retry. *)
Theorem pollard_rho_returns_n :
  103444057 = 10099 * 10243
  /\ forall r i,
       result (_pollard_rho 100 103444057 false r i) = Ret 103444057.
Proof.
  split; [reflexivity |].
  intros r i. vm_compute. reflexivity.
Qed.

(** * The prime decomposition *)

(** ** The loops of the decomposition *)

Lemma P10K_ge_2 : Forall (fun p => 2 <= p) P10K.
Proof.
  apply Forall_forall. intros p Hp.
  assert (H : forallb (fun q => 2 <=? q) P10K = true) by (vm_compute; reflexivity).
  rewrite forallb_forall in H. apply Z.leb_le, H, Hp.
Qed.

Lemma in_P10Kset_spec (n : Z) : in_P10Kset n = true <-> In n P10K.
Proof.
  unfold in_P10Kset. rewrite existsb_exists. split.
  - intros [x [Hx Heq]]. apply Z.eqb_eq in Heq. now subst.
  - intros H. exists n. split; [exact H | apply Z.eqb_refl].
Qed.

Lemma strip_factor_S (fuel : nat) (n p c : Z) :
  strip_factor (S fuel) n p c =
  if p =? 0 then Raise ZeroDivisionError
  else if n mod p =? 0 then strip_factor fuel (n / p) p (c + 1)
  else Ret (n, c).
Proof. reflexivity. Qed.

(** With fuel for [n] iterations the loop [while n % p == 0] returns the
    cofactor and the multiplicity of [p]. *)
Lemma strip_factor_spec (fuel : nat) :
  forall n p c, 1 <= n -> 2 <= p -> n <= Z.of_nat fuel ->
    exists n' e,
      strip_factor fuel n p c = Ret (n', c + e)
      /\ 0 <= e /\ n = n' * p ^ e /\ 1 <= n' /\ ~ (p | n').
Proof.
  induction fuel as [| fuel IH]; intros n p c Hn Hp Hfuel; [lia |].
  rewrite strip_factor_S.
  destruct (Z.eqb_spec p 0) as [-> | _]; [lia |].
  destruct (Z.eqb_spec (n mod p) 0) as [Hmod | Hmod].
  - assert (Hdiv : n = p * (n / p)) by (apply Z.div_exact; lia).
    assert (Hq : 1 <= n / p) by nia.
    destruct (IH (n / p) p (c + 1) Hq Hp ltac:(nia))
      as [n' [e [Heq [He [Hprod [Hn' Hnd]]]]]].
    exists n', (e + 1). rewrite Heq.
    split; [f_equal; f_equal; lia |].
    split; [lia |]. split; [| now split].
    rewrite Z.pow_add_r, Z.pow_1_r by lia. rewrite Hdiv at 1. rewrite Hprod. ring.
  - exists n, 0. rewrite Z.add_0_r.
    split; [reflexivity |]. split; [lia |].
    split; [rewrite Z.pow_0_r; ring |]. split; [exact Hn |].
    intros Hd. apply Hmod. apply Z.mod_divide; [lia | exact Hd].
Qed.

Lemma zip_append (dlist clist : list Z) (p c : Z) :
  length dlist = length clist ->
  combine (dlist ++ [p]) (clist ++ [c]) = combine dlist clist ++ [(p, c)].
Proof.
  revert clist. induction dlist as [| d dlist IH]; intros [| e clist] Hlen;
    simpl in *; try discriminate; [reflexivity |].
  now rewrite IH by lia.
Qed.

Lemma factor_product_app (l1 l2 : list (Z * Z)) :
  factor_product (l1 ++ l2) = factor_product l1 * factor_product l2.
Proof.
  induction l1 as [| pe l1 IH]; simpl.
  - now destruct (factor_product l2).
  - rewrite IH. ring.
Qed.

Lemma zip_lists_append (s : dstate) (n' p e : Z) :
  length (ds_dlist s) = length (ds_clist s) ->
  zip_lists (append_factor s n' p e) = zip_lists s ++ [(p, e)].
Proof. intros Hlen. unfold zip_lists. cbn. now apply zip_append. Qed.

Lemma good_pairs_snoc (l : list (Z * Z)) (p e : Z) :
  good_pairs l -> 2 <= p -> 1 <= e -> good_pairs (l ++ [(p, e)]).
Proof.
  intros Hl Hp He. apply Forall_app. split; [exact Hl |].
  constructor; [| constructor]. cbn. now split.
Qed.

Lemma decomp_inv_append (n0 : Z) (s : dstate) (n' p e : Z) :
  decomp_inv n0 s -> 1 <= n' -> ds_n s = n' * p ^ e -> 2 <= p -> 1 <= e ->
  decomp_inv n0 (append_factor s n' p e).
Proof.
  intros [Hpos [Hlen [Hprod Hgood]]] Hn' Heq Hp He. unfold decomp_inv.
  rewrite zip_lists_append by exact Hlen.
  cbn [append_factor ds_n ds_dlist ds_clist].
  split; [exact Hn' |]. split; [| split].
  - rewrite !length_app. cbn [length]. lia.
  - rewrite factor_product_app.
    cbn [factor_product fold_right fst snd]. rewrite <- Hprod, Heq. ring.
  - now apply good_pairs_snoc.
Qed.

Lemma decomp_inv_skip (n0 : Z) (s : dstate) (n' : Z) :
  decomp_inv n0 s -> ds_n s = n' ->
  decomp_inv n0 (mk_dstate n' (ds_dlist s) (ds_clist s)).
Proof. intros H <-. now destruct s. Qed.

Lemma decomp_inv_done (n0 : Z) (s : dstate) :
  decomp_inv n0 s -> ds_n s = 1 ->
  factor_product (zip_lists s) = n0 /\ good_pairs (zip_lists s).
Proof. intros [_ [_ [H Hgood]]] E. rewrite E in H. split; [lia | exact Hgood]. Qed.

Lemma decomp_inv_final (n0 : Z) (s : dstate) (m : Z) :
  decomp_inv n0 s -> 2 <= ds_n s ->
  factor_product (zip_lists (append_factor s m (ds_n s) 1)) = n0
  /\ good_pairs (zip_lists (append_factor s m (ds_n s) 1)).
Proof.
  intros [_ [Hlen [Hprod Hgood]]] Hn.
  rewrite zip_lists_append by exact Hlen. split.
  - rewrite factor_product_app.
    cbn [factor_product fold_right fst snd].
    rewrite Z.pow_1_r, <- Hprod. ring.
  - apply good_pairs_snoc; [exact Hgood | exact Hn | lia].
Qed.

Lemma trial_division_product (fuel : nat) (n0 : Z) (ps : list Z) :
  Forall (fun p => 2 <= p) ps ->
  forall s, decomp_inv n0 s -> ds_n s <= Z.of_nat fuel ->
    (exists l, trial_division fuel ps s = Ret (inl l)
               /\ factor_product l = n0 /\ good_pairs l)
    \/ (exists s', trial_division fuel ps s = Ret (inr s')
                   /\ decomp_inv n0 s' /\ ds_n s' <= ds_n s).
Proof.
  induction 1 as [| p ps Hp Hps IH]; intros s Hinv Hfuel; simpl.
  - right. exists s. split; [reflexivity |]. split; [exact Hinv | lia].
  - destruct (strip_factor_spec fuel (ds_n s) p 0 (proj1 Hinv) Hp Hfuel)
      as [n' [e [-> [He [Heq [Hn' _]]]]]].
    cbn [obind]. rewrite Z.add_0_l.
    set (s1 := if e =? 0 then mk_dstate n' (ds_dlist s) (ds_clist s)
               else append_factor s n' p e).
    assert (Hle : n' <= ds_n s).
    { assert (0 < p ^ e) by (apply Z.pow_pos_nonneg; lia). nia. }
    assert (Hinv1 : decomp_inv n0 s1 /\ ds_n s1 = n').
    { unfold s1. destruct (Z.eqb_spec e 0) as [-> | Hne].
      - split; [| reflexivity]. apply decomp_inv_skip; [exact Hinv |].
        rewrite Heq, Z.pow_0_r. ring.
      - split; [| reflexivity]. apply decomp_inv_append; try assumption; lia. }
    destruct Hinv1 as [Hinv1 Hn1].
    destruct (Z.eqb_spec n' 1) as [E1 | N1].
    + left. eexists. split; [reflexivity |].
      apply decomp_inv_done; [exact Hinv1 | congruence].
    + destruct (in_P10Kset n').
      * left. eexists. split; [reflexivity |].
        rewrite <- Hn1. apply decomp_inv_final; [exact Hinv1 | lia].
      * destruct (IH s1 Hinv1 ltac:(lia)) as [[l [-> Hl]] | [s' [-> [Hs' Hle']]]].
        -- left. now exists l.
        -- right. exists s'. split; [reflexivity |]. split; [exact Hs' | lia].
Qed.

(** ** The product of the returned factors *)

Lemma rho_phase_product (fuel : nat) (rand : bool) (r : rng) (n0 : Z) :
  forall k s i,
    decomp_inv n0 s -> ds_n s <= Z.of_nat k -> ds_n s < Z.of_nat fuel ->
    exists l j,
      rho_phase k fuel rand s r i = Ret (l, j)
      /\ factor_product l = n0 /\ good_pairs l.
Proof.
  induction k as [| k IH]; intros s i Hinv Hk Hfuel.
  - destruct Hinv. lia.
  - cbn [rho_phase].
    destruct (Z.eqb_spec (ds_n s) 1) as [E1 | N1].
    + unfold ret. do 2 eexists. split; [reflexivity |].
      now apply decomp_inv_done.
    + assert (Hn2 : 2 <= ds_n s) by (destruct Hinv; lia).
      destruct (is_prime_terminates fuel (ds_n s) 100 r i ltac:(lia))
        as [b [j Hb]].
      unfold is_prime. rewrite (bind_Ret _ _ r i j b Hb).
      destruct b.
      * unfold ret. do 2 eexists. split; [reflexivity |].
        now apply decomp_inv_final.
      * destruct (pollard_rho_terminates fuel (ds_n s) rand r j Hn2 Hfuel)
          as [d [j' [Hrho [Hd Hdiv]]]].
        rewrite (bind_Ret _ _ r j j' d Hrho).
        destruct (strip_factor_spec fuel (ds_n s) d 0 (proj1 Hinv) Hd ltac:(lia))
          as [n' [e [Hstrip [He [Heq [Hn' Hnd]]]]]].
        rewrite (bind_lift_Ret _ _ r j' _ Hstrip).
        assert (He1 : 1 <= e).
        { destruct (Z.eq_dec e 0) as [-> | ?]; [| lia].
          exfalso. apply Hnd. rewrite Z.pow_0_r, Z.mul_1_r in Heq.
          now rewrite <- Heq. }
        assert (Hpow : d <= d ^ e).
        { replace e with (1 + (e - 1)) by lia.
          rewrite Z.pow_add_r, Z.pow_1_r by lia.
          assert (0 < d ^ (e - 1)) by (apply Z.pow_pos_nonneg; lia). nia. }
        apply IH.
        -- rewrite Z.add_0_l. now apply decomp_inv_append.
        -- cbn [append_factor ds_n]. nia.
        -- cbn [append_factor ds_n]. nia.
Qed.

Lemma P10K_head : P10K = 2 :: tl P10K.
Proof. reflexivity. Qed.

Lemma decomposition_of_1 (fuel : nat) (rand : bool) (r : rng) (i : nat) :
  prime_divisor_decomposition (S fuel) 1 rand r i = Ret ([], i).
Proof.
  unfold prime_divisor_decomposition.
  rewrite (bind_lift_Ret _ _ r i (1, 0)) by reflexivity.
  cbn [Z.eqb].
  rewrite (bind_lift_Ret _ _ r i (inl [])); [reflexivity |].
  rewrite P10K_head. reflexivity.
Qed.

Lemma decomp_inv_init (n n' e : Z) :
  1 <= n' -> 0 <= e -> n = n' * 2 ^ e ->
  decomp_inv n (if e =? 0 then mk_dstate n' [] [] else mk_dstate n' [2] [e]).
Proof.
  intros Hn' He Heq. unfold decomp_inv, zip_lists, good_pairs.
  destruct (Z.eqb_spec e 0) as [-> | Hne];
    cbn [ds_n ds_dlist ds_clist combine factor_product fold_right fst snd length].
  - rewrite Z.pow_0_r in Heq. repeat split; try lia. constructor.
  - repeat split; try lia. constructor; [cbn; lia | constructor].
Qed.

(** Whatever the draws, the call returns pairs of factors from 2 on with
    exponents from 1 on, whose product is the input. *)
Lemma decomposition_returns (n : Z) :
  1 <= n ->
  forall fuel rand r i, n < Z.of_nat fuel ->
    exists l,
      result (prime_divisor_decomposition fuel n rand r i) = Ret l
      /\ factor_product l = n /\ good_pairs l.
Proof.
  intros Hn fuel rand r i Hfuel.
  unfold prime_divisor_decomposition.
  destruct (strip_factor_spec fuel n 2 0 Hn ltac:(lia) ltac:(lia))
    as [n' [e [Hstrip [He [Heq [Hn' Hnd]]]]]].
  rewrite (bind_lift_Ret _ _ r i _ Hstrip). rewrite Z.add_0_l.
  set (s := if e =? 0 then mk_dstate n' [] [] else mk_dstate n' [2] [e]).
  assert (Hle : n' <= n).
  { assert (0 < 2 ^ e) by (apply Z.pow_pos_nonneg; lia). nia. }
  assert (Hinv : decomp_inv n s) by now apply decomp_inv_init.
  assert (Hs : ds_n s = n') by (unfold s; now destruct (e =? 0)).
  destruct (trial_division_product fuel n P10K P10K_ge_2 s Hinv ltac:(lia))
    as [[l [Htd Hl]] | [s' [Htd [Hinv' Hle']]]];
    rewrite (bind_lift_Ret _ _ r i _ Htd).
  - unfold ret. cbn [result]. exists l. split; [reflexivity | exact Hl].
  - destruct (rho_phase_product fuel rand r n fuel s' i Hinv' ltac:(lia) ltac:(lia))
      as [l [j [Hrho Hl]]].
    rewrite Hrho. cbn [result]. exists l. split; [reflexivity | exact Hl].
Qed.

(** C1: for every [n >= 1], whatever the [rand] flag and the random
    draws, and with fuel beyond [n], [prime_divisor_decomposition]
    returns a sequence of pairs whose product of [factor ^ exponent] is
    [n]; for [n = 1] the sequence is empty. *)
Theorem decomposition_product (n : Z) :
  1 <= n ->
  forall fuel rand r i, n < Z.of_nat fuel ->
    exists l,
      result (prime_divisor_decomposition fuel n rand r i) = Ret l
      /\ factor_product l = n
      /\ (n = 1 -> l = []).
Proof.
  intros Hn fuel rand r i Hfuel.
  destruct (Z.eq_dec n 1) as [-> | Hn1].
  - destruct fuel as [| fuel]; [lia |].
    rewrite decomposition_of_1. exists []. repeat split.
  - destruct (decomposition_returns n Hn fuel rand r i Hfuel) as [l [Hl [Hprod _]]].
    exists l. split; [exact Hl |]. split; [exact Hprod | intros; contradiction].
Qed.

Lemma decomposition_product_witness :
  1 <= 360
  /\ exists l,
       result (prime_divisor_decomposition 400 360 true no_draws O) = Ret l
       /\ factor_product l = 360
       /\ (360 = 1 -> l = []).
Proof.
  split; [lia |].
  apply (decomposition_product 360); lia.
Defined.

(** ** Arguments below 1 *)

Lemma strip_factor_nonpos (fuel : nat) :
  forall n p c, n <= 0 -> 2 <= p ->
    strip_factor fuel n p c = OutOfFuel
    \/ exists n' c', strip_factor fuel n p c = Ret (n', c') /\ n' < 0.
Proof.
  induction fuel as [| fuel IH]; intros n p c Hn Hp; simpl; [now left |].
  destruct (Z.eqb_spec p 0) as [-> | _]; [lia |].
  destruct (Z.eqb_spec (n mod p) 0) as [Hmod | Hmod].
  - apply IH; [| exact Hp].
    apply Z.div_le_upper_bound; lia.
  - right. exists n, c. split; [reflexivity |].
    assert (n <> 0) by (intros ->; now rewrite Z.mod_0_l in Hmod by lia).
    lia.
Qed.

Lemma trial_division_nonpos (fuel : nat) (ps : list Z) :
  Forall (fun p => 2 <= p) ps ->
  forall s, ds_n s < 0 ->
    trial_division fuel ps s = OutOfFuel
    \/ exists s', trial_division fuel ps s = Ret (inr s') /\ ds_n s' < 0.
Proof.
  induction 1 as [| p ps Hp Hps IH]; intros s Hs; simpl.
  - right. exists s. now split.
  - destruct (strip_factor_nonpos fuel (ds_n s) p 0 ltac:(lia) Hp)
      as [-> | [n' [c' [-> Hn']]]];
      simpl; [now left |].
    destruct (Z.eqb_spec n' 1) as [-> | _]; [lia |].
    destruct (in_P10Kset n') eqn:Hin.
    + apply in_P10Kset_spec in Hin.
      pose proof (proj1 (Forall_forall _ _) P10K_ge_2 _ Hin) as H2.
      simpl in H2. lia.
    + apply IH. destruct (c' =? 0); simpl; lia.
Qed.

Lemma rho_phase_neg (k fuel : nat) (rand : bool) (r : rng) :
  forall s i, ds_n s < 0 -> rho_phase k fuel rand s r i = OutOfFuel.
Proof.
  induction k as [| k IH]; intros s i Hs; simpl; [reflexivity |].
  destruct (Z.eqb_spec (ds_n s) 1) as [E | _]; [lia |].
  unfold bind at 1. unfold is_prime, _is_prime.
  destruct (Z.ltb_spec (ds_n s) 2) as [_ | ?]; [| lia].
  unfold ret at 1.
  unfold bind at 1.
  assert (Hrho : _pollard_rho fuel (ds_n s) rand r i = OutOfFuel
          \/ exists d j, _pollard_rho fuel (ds_n s) rand r i = Ret (d, j) /\ 2 <= d).
  { unfold _pollard_rho, bind, lift, ret, randrange.
    destruct rand; simpl;
      match goal with
      | |- context [_pollard_rho_loop fuel (ds_n s) ?c ?x ?y 1] =>
          destruct (pollard_rho_loop_neg fuel (ds_n s) c x y 1 Hs (or_introl eq_refl))
            as [-> | [d [-> Hd]]]
      end; try (now left); right; eauto. }
  destruct Hrho as [-> | [d [j [-> Hd]]]]; [reflexivity |].
  unfold bind, lift.
  destruct (strip_factor_nonpos fuel (ds_n s) d 0 ltac:(lia) Hd)
    as [-> | [n' [c' [-> Hn']]]]; [reflexivity |].
  apply IH. simpl. exact Hn'.
Qed.

Lemma decomposition_below_1 (fuel : nat) (n : Z) (rand : bool) (r : rng) (i : nat) :
  n < 1 -> prime_divisor_decomposition fuel n rand r i = OutOfFuel.
Proof.
  intros Hn. unfold prime_divisor_decomposition.
  unfold bind at 1. unfold lift at 1.
  destruct (strip_factor_nonpos fuel n 2 0 ltac:(lia) ltac:(lia))
    as [-> | [n' [c' [-> Hn']]]]; [reflexivity |].
  unfold bind, lift.
  match goal with
  | |- context [trial_division fuel P10K ?s] =>
      destruct (trial_division_nonpos fuel P10K P10K_ge_2 s) as [-> | [s' [-> Hs']]]
  end.
  - destruct (c' =? 0); simpl; lia.
  - reflexivity.
  - apply rho_phase_neg. exact Hs'.
Qed.

(** C8 (as stated, refuted at [n = 0]): the call on 0 never ends in an
    error, whatever fuel it is given. *)
Lemma decomposition_zero_not_rejected :
  ~ (exists fuel e,
        run (prime_divisor_decomposition fuel 0 true) no_draws = Raise e
        \/ run (all_divisors fuel 0 false) no_draws = Raise e).
Proof.
  intros [fuel [e H]].
  unfold run, all_divisors in H. cbn [Z.eqb] in H. unfold bind in H.
  rewrite !decomposition_below_1 in H by lia.
  destruct H as [H | H]; discriminate H.
Qed.

(** C8 (amended): for every [n < 1] neither function raises and neither
    returns: whatever the fuel, the random draws and the [rand] flag, the
    call is still running when the fuel is spent (for [n = 0] in the loop
    that strips the factor 2, for [n < 0] in the final loop, whose
    cofactor stays negative). *)
Theorem below_1_never_returns (n : Z) :
  n < 1 ->
  forall fuel rand r i,
    prime_divisor_decomposition fuel n rand r i = OutOfFuel
    /\ all_divisors fuel n rand r i = OutOfFuel.
Proof.
  intros Hn fuel rand r i. split.
  - now apply decomposition_below_1.
  - unfold all_divisors.
    destruct (Z.eqb_spec n 1) as [-> | _]; [lia |].
    unfold bind. now rewrite decomposition_below_1.
Qed.

Lemma below_1_never_returns_witness :
  0 < 1
  /\ prime_divisor_decomposition 1000 0 true no_draws O = OutOfFuel
  /\ all_divisors 1000 0 false no_draws O = OutOfFuel.
Proof.
  split; [lia |]. split.
  - apply (below_1_never_returns 0); lia.
  - apply (below_1_never_returns 0); lia.
Defined.

(** ** Decomposition when at most one prime factor is above the table *)

Lemma below_1e8_one_large_prime (n : Z) :
  1 <= n < 100000000 -> one_large_prime n.
Proof.
  intros Hn a b _ _ Ha Hb Hdiv.
  apply Z.divide_pos_le in Hdiv; [nia | lia].
Qed.

Lemma P10K_spec :
  StronglySorted Z.lt P10K /\ forall p, In p P10K <-> Z.prime p /\ p < 10000.
Proof.
  destruct (primes_list_spec 10000 ltac:(lia)) as [l [Hl Hspec]].
  assert (H : _primes_list 10000 = Ret P10K) by (vm_compute; reflexivity).
  rewrite H in Hl. injection Hl as <-. exact Hspec.
Qed.

(** A number whose prime factors are all large, dividing a number with at
    most one large prime factor, is prime. *)
Lemma cofactor_prime (n0 m : Z) :
  one_large_prime n0 -> 2 <= m -> (m | n0) ->
  (forall q, Z.prime q -> (q | m) -> 10000 <= q) ->
  Z.prime m.
Proof.
  intros Hone Hm Hdiv Hlarge.
  destruct (prime_or_divisor m ltac:(lia)) as [Hp | [d [Hd [e He]]]];
    [exact Hp | exfalso].
  assert (He1 : 2 <= e) by nia.
  destruct (prime_divisor_exists d ltac:(lia)) as [a [Ha Had]].
  destruct (prime_divisor_exists e He1) as [b [Hb Hbe]].
  apply (Hone a b Ha Hb).
  - apply Hlarge; [exact Ha |]. apply Z.divide_trans with d; [exact Had |].
    exists e. lia.
  - apply Hlarge; [exact Hb |]. apply Z.divide_trans with e; [exact Hbe |].
    exists d. lia.
  - apply Z.divide_trans with m; [| exact Hdiv].
    destruct Had as [x Hx], Hbe as [y Hy]. exists (x * y).
    rewrite He, Hx, Hy. ring.
Qed.

(** ** The invariant of trial division *)

Lemma map_fst_combine (l l' : list Z) :
  length l = length l' -> map fst (combine l l') = l.
Proof.
  revert l'. induction l as [| x l IH]; intros [| y l'] Hlen;
    simpl in *; try discriminate; [reflexivity |].
  now rewrite IH by lia.
Qed.

Lemma sorted_snoc (l : list Z) (p : Z) :
  StronglySorted Z.lt l -> (forall d, In d l -> d < p) ->
  StronglySorted Z.lt (l ++ [p]).
Proof.
  induction 1 as [| x l Hl IH Hall]; intros Hlt; cbn [app].
  - repeat constructor.
  - constructor.
    + apply IH. intros d Hd. apply Hlt. now right.
    + apply Forall_app. split; [exact Hall |].
      constructor; [apply Hlt; now left | constructor].
Qed.

Lemma trial_inv_canonical (n0 : Z) (ps : list Z) (s : dstate) :
  trial_inv n0 ps s -> canonical_factorization (zip_lists s).
Proof.
  intros [[_ [Hlen _]] Hpairs Hsorted _ _ _ _]. split; [exact Hpairs |].
  unfold zip_lists. now rewrite map_fst_combine.
Qed.

(** Recording the prime [p], stripped from the cofactor with multiplicity
    [e >= 1]. *)
Lemma trial_inv_append (n0 : Z) (p : Z) (ps ps' : list Z) (s : dstate) (n' e : Z) :
  trial_inv n0 ps s ->
  Z.prime p -> p < 10000 -> In p ps ->
  (forall p', In p' ps' -> In p' ps /\ p <= p') ->
  1 <= n' -> 1 <= e -> ds_n s = n' * p ^ e -> ~ (p | n') ->
  (forall q, In q ps -> ~ In q ps' -> ~ (q | n')) ->
  trial_inv n0 ps' (append_factor s n' p e).
Proof.
  intros [Hinv Hpairs Hsorted Hstripped Hbelow Hsmall Hcof]
    Hp Hp4 Hpin Hps' Hn' He Heq Hnd Hgone.
  assert (Hpdiv : (p | ds_n s)).
  { rewrite Heq. apply Z.divide_mul_r.
    replace e with (1 + (e - 1)) by lia.
    rewrite Z.pow_add_r, Z.pow_1_r by lia. apply Z.divide_factor_l. }
  assert (Hn'div : (n' | ds_n s)) by (rewrite Heq; apply Z.divide_factor_l).
  assert (Hlt : forall d, In d (ds_dlist s) -> d < p).
  { intros d Hd. pose proof (Hbelow d p Hd Hpin).
    assert (d <> p) by (intros ->; now apply (Hstripped p)). lia. }
  constructor.
  - apply decomp_inv_append; try assumption. apply (Z.prime_ge_2 p Hp).
  - rewrite zip_lists_append by apply Hinv.
    apply Forall_app. split; [exact Hpairs |].
    constructor; [| constructor]. cbn. now split.
  - cbn. now apply sorted_snoc.
  - cbn. intros d Hd Hdiv. apply in_app_or in Hd.
    destruct Hd as [Hd | [<- | []]]; [| contradiction].
    apply (Hstripped d Hd). now apply Z.divide_trans with n'.
  - cbn. intros d p' Hd Hp'. apply in_app_or in Hd.
    destruct (Hps' p' Hp') as [Hin Hle].
    destruct Hd as [Hd | [<- | []]]; [| exact Hle].
    pose proof (Hlt d Hd). lia.
  - cbn. intros d Hd. apply in_app_or in Hd.
    destruct Hd as [Hd | [<- | []]]; [now apply Hsmall | exact Hp4].
  - cbn. intros q Hq Hqdiv.
    destruct (Hcof q Hq (Z.divide_trans _ _ _ Hqdiv Hn'div)) as [? | Hqin];
      [now left | right].
    destruct (in_dec Z.eq_dec q ps') as [? | Hnin]; [assumption | exfalso].
    now apply (Hgone q Hqin Hnin).
Qed.

(** Passing a prime [p] that does not divide the cofactor. *)
Lemma trial_inv_skip (n0 : Z) (ps ps' : list Z) (s : dstate) :
  trial_inv n0 ps s ->
  (forall p', In p' ps' -> In p' ps) ->
  (forall q, In q ps -> ~ In q ps' -> ~ (q | ds_n s)) ->
  trial_inv n0 ps' (mk_dstate (ds_n s) (ds_dlist s) (ds_clist s)).
Proof.
  intros [Hinv Hpairs Hsorted Hstripped Hbelow Hsmall Hcof] Hps' Hgone.
  destruct s as [n dl cl]. cbn in *. constructor; cbn; try assumption.
  - intros d p' Hd Hp'. apply Hbelow; [exact Hd | now apply Hps'].
  - intros q Hq Hqdiv. destruct (Hcof q Hq Hqdiv) as [? | Hqin]; [now left | right].
    destruct (in_dec Z.eq_dec q ps') as [? | Hnin]; [assumption | exfalso].
    now apply (Hgone q Hqin Hnin).
Qed.

(** Appending a last prime above all the recorded ones. *)
Lemma canonical_append (n0 : Z) (ps : list Z) (s : dstate) (m p e : Z) :
  trial_inv n0 ps s -> Z.prime p -> 1 <= e ->
  (forall d, In d (ds_dlist s) -> d < p) ->
  canonical_factorization (zip_lists (append_factor s m p e)).
Proof.
  intros Hinv Hp He Hlt.
  destruct (trial_inv_canonical n0 ps s Hinv) as [Hpairs Hsorted].
  pose proof (t_inv _ _ _ Hinv) as [_ [Hlen _]].
  rewrite zip_lists_append by exact Hlen. split.
  - apply Forall_app. split; [exact Hpairs |].
    constructor; [| constructor]. cbn. now split.
  - rewrite map_app. cbn [map fst]. apply sorted_snoc; [exact Hsorted |].
    unfold zip_lists. rewrite map_fst_combine by exact Hlen. exact Hlt.
Qed.

Lemma trial_division_canonical (fuel : nat) (n0 : Z) (ps : list Z) :
  StronglySorted Z.lt ps -> (forall p, In p ps -> In p P10K) ->
  forall s, trial_inv n0 ps s -> ds_n s <= Z.of_nat fuel ->
    (exists l, trial_division fuel ps s = Ret (inl l)
               /\ canonical_factorization l)
    \/ (exists s', trial_division fuel ps s = Ret (inr s')
                   /\ trial_inv n0 [] s' /\ ds_n s' <= ds_n s).
Proof.
  destruct P10K_spec as [_ HP10K].
  induction 1 as [| p ps' Hsorted IH Hall]; intros Hsub s Hinv Hfuel.
  - right. exists s. split; [reflexivity |]. split; [exact Hinv | lia].
  - assert (Hp : Z.prime p /\ p < 10000) by (apply HP10K, Hsub; now left).
    destruct Hp as [Hp Hp4]. pose proof (Z.prime_ge_2 p Hp) as Hp2.
    assert (Hlt : forall p', In p' ps' -> p < p')
      by (apply Forall_forall; exact Hall).
    cbn [trial_division].
    destruct (strip_factor_spec fuel (ds_n s) p 0 (proj1 (t_inv _ _ _ Hinv)) Hp2 Hfuel)
      as [n' [e [-> [He [Heq [Hn' Hnd]]]]]].
    cbn [obind]. rewrite Z.add_0_l.
    set (s1 := if e =? 0 then mk_dstate n' (ds_dlist s) (ds_clist s)
               else append_factor s n' p e).
    assert (Hle : n' <= ds_n s).
    { assert (0 < p ^ e) by (apply Z.pow_pos_nonneg; lia). nia. }
    assert (Hgone : forall q, In q (p :: ps') -> ~ In q ps' -> ~ (q | n')).
    { intros q [<- | Hq] Hnin; [exact Hnd | contradiction]. }
    assert (Hinv1 : trial_inv n0 ps' s1 /\ ds_n s1 = n').
    { unfold s1. destruct (Z.eqb_spec e 0) as [-> | Hne].
      - split; [| reflexivity].
        rewrite Z.pow_0_r, Z.mul_1_r in Heq. rewrite <- Heq in *.
        apply (trial_inv_skip n0 (p :: ps')); [exact Hinv | | exact Hgone].
        intros p' Hp'. now right.
      - split; [| reflexivity].
        apply (trial_inv_append n0 p (p :: ps')); try assumption; try lia.
        + now left.
        + intros p' Hp'. split; [now right |]. pose proof (Hlt p' Hp'). lia. }
    destruct Hinv1 as [Hinv1 Hn1].
    destruct (Z.eqb_spec n' 1) as [E1 | N1].
    + left. eexists. split; [reflexivity |].
      now apply (trial_inv_canonical n0 ps').
    + destruct (in_P10Kset n') eqn:Hset.
      * left. eexists. split; [reflexivity |].
        apply in_P10Kset_spec, HP10K in Hset. destruct Hset as [Hn'p Hn'4].
        apply (canonical_append n0 ps'); [exact Hinv1 | exact Hn'p | lia |].
        intros d Hd.
        assert (Hin : In n' ps').
        { destruct (t_cofactor _ _ _ Hinv1 n' Hn'p) as [? | Hin];
            [rewrite Hn1; apply Z.divide_refl | lia | exact Hin]. }
        pose proof (t_below _ _ _ Hinv1 d n' Hd Hin).
        assert (d <> n').
        { intros ->. apply (t_stripped _ _ _ Hinv1 n' Hd).
          rewrite Hn1. apply Z.divide_refl. }
        lia.
      * destruct (IH (fun q Hq => Hsub q (or_intror Hq)) s1 Hinv1 ltac:(lia))
          as [[l [-> Hl]] | [s' [-> [Hs' Hle']]]].
        -- left. now exists l.
        -- right. exists s'. split; [reflexivity |]. split; [exact Hs' | lia].
Qed.

(** ** The final loop on a prime cofactor *)

Lemma rho_phase_prime_cofactor (n0 : Z) (s : dstate) :
  one_large_prime n0 -> trial_inv n0 [] s ->
  canonical_factorization (final_pairs s)
  /\ forall k fuel rand r i,
       ds_n s < Z.of_nat fuel ->
       result (rho_phase (S k) fuel rand s r i) = Ret (final_pairs s).
Proof.
  intros Hone Hinv. unfold final_pairs.
  pose proof (t_inv _ _ _ Hinv) as [Hpos [Hlen [Hprod _]]].
  destruct (Z.eqb_spec (ds_n s) 1) as [E1 | N1].
  - split; [now apply (trial_inv_canonical n0 []) |].
    intros k fuel rand r i _. cbn [rho_phase]. rewrite E1. reflexivity.
  - assert (Hlarge : forall q, Z.prime q -> (q | ds_n s) -> 10000 <= q).
    { intros q Hq Hdiv.
      destruct (t_cofactor _ _ _ Hinv q Hq Hdiv) as [? | []]. assumption. }
    assert (Hprime : Z.prime (ds_n s)).
    { apply (cofactor_prime n0); [exact Hone | lia | | exact Hlarge].
      exists (factor_product (zip_lists s)). lia. }
    split.
    + apply (canonical_append n0 []); [exact Hinv | exact Hprime | lia |].
      intros d Hd. pose proof (t_small _ _ _ Hinv d Hd).
      pose proof (Hlarge (ds_n s) Hprime (Z.divide_refl _)). lia.
    + intros k fuel rand r i Hfuel. cbn [rho_phase].
      destruct (Z.eqb_spec (ds_n s) 1) as [? | _]; [contradiction |].
      destruct (is_prime_on_prime fuel (ds_n s) 100 r i Hprime ltac:(lia))
        as [j Hj].
      unfold is_prime. rewrite (bind_Ret _ _ r i j true Hj). reflexivity.
Qed.

(** ** Fuel beyond the cofactor does not change trial division *)

Lemma strip_factor_fuel (fuel1 : nat) :
  forall fuel2 n p c,
    1 <= n -> 2 <= p -> n <= Z.of_nat fuel1 -> n <= Z.of_nat fuel2 ->
    strip_factor fuel1 n p c = strip_factor fuel2 n p c.
Proof.
  induction fuel1 as [| fuel1 IH]; intros fuel2 n p c Hn Hp H1 H2; [lia |].
  destruct fuel2 as [| fuel2]; [lia |].
  rewrite !strip_factor_S.
  destruct (p =? 0); [reflexivity |].
  destruct (Z.eqb_spec (n mod p) 0) as [Hmod | _]; [| reflexivity].
  assert (Hdiv : n = p * (n / p)) by (apply Z.div_exact; lia).
  apply IH; nia.
Qed.

Lemma trial_division_fuel (fuel1 fuel2 : nat) (ps : list Z) :
  Forall (fun p => 2 <= p) ps ->
  forall s,
    1 <= ds_n s -> ds_n s <= Z.of_nat fuel1 -> ds_n s <= Z.of_nat fuel2 ->
    trial_division fuel1 ps s = trial_division fuel2 ps s.
Proof.
  induction 1 as [| p ps Hp Hps IH]; intros s Hn H1 H2; [reflexivity |].
  cbn [trial_division].
  rewrite (strip_factor_fuel fuel1 fuel2) by assumption.
  destruct (strip_factor_spec fuel2 (ds_n s) p 0 Hn Hp H2)
    as [n' [e [-> [He [Heq [Hn' _]]]]]].
  cbn [obind].
  assert (Hle : n' <= ds_n s).
  { assert (0 < p ^ e) by (apply Z.pow_pos_nonneg; lia). nia. }
  destruct (n' =? 1); [reflexivity |].
  destruct (in_P10Kset n'); [reflexivity |].
  apply IH; destruct (0 + e =? 0); cbn [ds_n append_factor]; lia.
Qed.

(** ** The decomposition is canonical and does not depend on the draws *)

Lemma trial_inv_init (n n' e : Z) :
  1 <= n' -> 0 <= e -> n = n' * 2 ^ e -> ~ (2 | n') ->
  trial_inv n P10K
    (if e =? 0 then mk_dstate n' [] [] else mk_dstate n' [2] [e]).
Proof.
  intros Hn' He Heq Hnd. destruct P10K_spec as [_ HP10K].
  assert (Hcof : forall q, Z.prime q -> (q | n') -> 10000 <= q \/ In q P10K).
  { intros q Hq _. destruct (Z.lt_ge_cases q 10000); [right | now left].
    now apply HP10K. }
  pose proof (decomp_inv_init n n' e Hn' He Heq) as Hdinv.
  destruct (Z.eqb_spec e 0) as [-> | Hne].
  - constructor; cbn [ds_n ds_dlist ds_clist In]; try (intros; contradiction).
    + exact Hdinv.
    + constructor.
    + constructor.
    + exact Hcof.
  - constructor; cbn [ds_n ds_dlist ds_clist In].
    + exact Hdinv.
    + constructor; [| constructor]. cbn. split; [exact Z.prime_2 | lia].
    + repeat constructor.
    + intros d [<- | []]. exact Hnd.
    + intros d p [<- | []] Hp.
      exact (proj1 (Forall_forall _ _) P10K_ge_2 p Hp).
    + intros d [<- | []]. lia.
    + exact Hcof.
Qed.

Lemma decomposition_canonical (n : Z) :
  1 <= n -> one_large_prime n ->
  exists l,
    canonical_factorization l
    /\ forall fuel rand r i,
         n < Z.of_nat fuel ->
         result (prime_divisor_decomposition fuel n rand r i) = Ret l.
Proof.
  intros Hn Hone. destruct P10K_spec as [HPsorted _].
  set (fuel0 := S (Z.to_nat n)).
  destruct (strip_factor_spec fuel0 n 2 0 Hn ltac:(lia) ltac:(lia))
    as [n' [e [Hstrip [He [Heq [Hn' Hnd]]]]]].
  rewrite Z.add_0_l in Hstrip.
  set (s := if e =? 0 then mk_dstate n' [] [] else mk_dstate n' [2] [e]).
  assert (Hinv : trial_inv n P10K s) by now apply trial_inv_init.
  assert (Hs : ds_n s = n') by (unfold s; now destruct (e =? 0)).
  assert (Hle : n' <= n).
  { assert (0 < 2 ^ e) by (apply Z.pow_pos_nonneg; lia). nia. }
  assert (Hstart : forall fuel rand r i,
            n < Z.of_nat fuel ->
            prime_divisor_decomposition fuel n rand r i
            = bind (lift (trial_division fuel0 P10K s))
                (fun t => match t with
                          | inl l => ret l
                          | inr s => rho_phase fuel fuel rand s
                          end) r i).
  { intros fuel rand r i Hfuel. unfold prime_divisor_decomposition.
    rewrite (strip_factor_fuel fuel fuel0) by lia.
    rewrite (bind_lift_Ret _ _ r i _ Hstrip). fold s.
    now rewrite (trial_division_fuel fuel fuel0 P10K P10K_ge_2 s) by lia. }
  destruct (trial_division_canonical fuel0 n P10K HPsorted (fun p H => H) s Hinv
              ltac:(lia))
    as [[l [Htd Hl]] | [s' [Htd [Hinv' Hle']]]].
  - exists l. split; [exact Hl |].
    intros fuel rand r i Hfuel. rewrite (Hstart fuel rand r i Hfuel).
    now rewrite (bind_lift_Ret _ _ r i _ Htd).
  - destruct (rho_phase_prime_cofactor n s' Hone Hinv') as [Hcanon Hrun].
    exists (final_pairs s'). split; [exact Hcanon |].
    intros fuel rand r i Hfuel. rewrite (Hstart fuel rand r i Hfuel).
    rewrite (bind_lift_Ret _ _ r i _ Htd).
    destruct fuel as [| k]; [lia |].
    apply Hrun. lia.
Qed.

(** ** Order of the factors found by Pollard's rho *)

Lemma sorted_head_lt (a b : Z) (l : list Z) :
  StronglySorted Z.lt (a :: b :: l) -> a < b.
Proof.
  intros H. inversion H as [| ? ? _ Hall]; subst.
  now inversion Hall.
Qed.

(** C5 (as stated, refuted): [100760483 = 10007 * 10069] is decomposed
    into [(10069, 1); (10007, 1)], whose first components decrease. *)
Lemma decomposition_not_increasing :
  exists l,
    run (prime_divisor_decomposition 200 100760483 false) no_draws = Ret l
    /\ ~ canonical_factorization l.
Proof.
  exists [(10069, 1); (10007, 1)].
  split; [vm_compute; reflexivity |].
  intros [_ Hsorted]. simpl in Hsorted.
  apply sorted_head_lt in Hsorted. lia.
Qed.


(** * The divisor enumeration terminates *)

(** ** The odometer as a successor on mixed-radix counters *)

Lemma getitem_app {A : Type} (pre : list A) (x : A) (post : list A) :
  getitem (pre ++ x :: post) (Z.of_nat (length pre)) = Ret x.
Proof.
  unfold getitem. rewrite Nat2Z.id, nth_error_app2 by lia.
  now rewrite Nat.sub_diag.
Qed.

Lemma setitem_app {A : Type} (pre : list A) (x v : A) (post : list A) :
  setitem (pre ++ x :: post) (Z.of_nat (length pre)) v = Ret (pre ++ v :: post).
Proof.
  unfold setitem. rewrite Nat2Z.id.
  induction pre as [| y pre IH]; [reflexivity |].
  cbn [app length setitem_nat]. now rewrite IH.
Qed.

Lemma odometer_S (fuel : nat) (primefactors : list (Z * Z)) (clist : list Z) (k : Z) :
  odometer (S fuel) primefactors clist k =
  (ck <~ getitem clist k ;;
   clist <~ setitem clist k (ck + 1) ;;
   pk <~ getitem primefactors k ;;
   if ck + 1 <=? snd pk then Ret (Some clist)
   else
     clist <~ setitem clist k 0 ;;
     if Z.of_nat (length primefactors) <=? k + 1 then Ret None
     else odometer fuel primefactors clist (k + 1)).
Proof. reflexivity. Qed.

Lemma odometer_spec (fuel : nat) :
  forall (ppre pfs : list (Z * Z)) (pre cs : list Z),
    length pre = length ppre -> length cs = length pfs ->
    pfs <> [] -> (length pfs <= fuel)%nat ->
    odometer fuel (ppre ++ pfs) (pre ++ cs) (Z.of_nat (length pre))
    = Ret (option_map (app pre) (next_counter (map snd pfs) cs)).
Proof.
  induction fuel as [| fuel IH]; intros ppre pfs pre cs Hpre Hcs Hne Hfuel.
  - destruct pfs; [contradiction | cbn in Hfuel; lia].
  - destruct pfs as [| [p e] pfs]; [contradiction |].
    destruct cs as [| c cs]; [discriminate |].
    rewrite odometer_S, getitem_app. cbn [obind].
    rewrite setitem_app. cbn [obind].
    rewrite Hpre, getitem_app, <- Hpre. cbn [obind snd map next_counter].
    destruct (c + 1 <=? e); [reflexivity |].
    rewrite setitem_app. cbn [obind].
    rewrite length_app. cbn [length].
    destruct pfs as [| pe pfs].
    + cbn [length map].
      destruct (Z.leb_spec (Z.of_nat (length ppre + 1)) (Z.of_nat (length pre) + 1));
        [reflexivity | lia].
    + cbn [length].
      destruct (Z.leb_spec (Z.of_nat (length ppre + S (S (length pfs))))
                  (Z.of_nat (length pre) + 1)) as [Hle | _]; [lia |].
      pose proof (IH (ppre ++ [(p, e)]) (pe :: pfs) (pre ++ [0]) cs) as H.
      rewrite <- !app_assoc in H. cbn [app] in H.
      rewrite length_app in H. cbn [length] in H.
      replace (Z.of_nat (length pre + 1)) with (Z.of_nat (length pre) + 1) in H by lia.
      rewrite H.
      * cbn [map]. destruct (next_counter (snd pe :: map snd pfs) cs); cbn [option_map];
          [| reflexivity].
        now rewrite <- app_assoc.
      * rewrite length_app. cbn [length]. lia.
      * cbn [length] in *. lia.
      * discriminate.
      * cbn [length] in *. lia.
Qed.

(** ** Counting the steps *)

Lemma counters_ok_length (es cs : list Z) :
  counters_ok es cs -> length cs = length es.
Proof. induction 1; cbn; lia. Qed.

Lemma counter_total_pos (es : list Z) :
  Forall (fun e => 1 <= e) es -> Z.of_nat (length es) < counter_total es.
Proof.
  induction 1 as [| e es He Hes IH]; cbn [counter_total length]; [lia |].
  nia.
Qed.

Lemma counter_value_bound (es cs : list Z) :
  counters_ok es cs -> 0 <= counter_value es cs < counter_total es.
Proof.
  induction 1 as [| e c es cs Hc Hok IH]; cbn [counter_value counter_total]; [lia |].
  nia.
Qed.

Lemma next_counter_spec (es cs : list Z) :
  counters_ok es cs -> es <> [] ->
  match next_counter es cs with
  | Some cs' =>
      counters_ok es cs' /\ counter_value es cs' = counter_value es cs + 1
  | None => counter_value es cs + 1 = counter_total es
  end.
Proof.
  induction 1 as [| e c es cs Hc Hok IH]; intros Hne; [contradiction |].
  cbn [next_counter].
  destruct (Z.leb_spec (c + 1) e) as [Hle | Hgt].
  - split; [constructor; [lia | exact Hok] |].
    cbn [counter_value]. lia.
  - assert (c = e) by lia. subst c.
    destruct es as [| e' es].
    + inversion Hok; subst. cbn. lia.
    + specialize (IH ltac:(discriminate)).
      destruct (next_counter (e' :: es) cs) as [cs' |]; cbn [option_map].
      * destruct IH as [Hok' Hval]. split; [constructor; [lia | exact Hok'] |].
        cbn [counter_value] in *. rewrite Hval.
        destruct cs as [| c0 cs0]; [inversion Hok |].
        destruct cs' as [| c1 cs1]; [inversion Hok' |]. lia.
      * cbn [counter_value counter_total] in *.
        destruct cs as [| c0 cs0]; [inversion Hok |]. nia.
Qed.

(** ** The outer loop *)

Lemma enumerate_S (j fuel : nat) (primefactors : list (Z * Z))
    (clist output : list Z) :
  enumerate (S j) fuel primefactors clist output =
  (next <~ odometer fuel primefactors clist 0 ;;
   match next with
   | None => Ret (sorted (output ++ [divisor_of primefactors clist]))
   | Some clist' =>
       enumerate j fuel primefactors clist'
         (output ++ [divisor_of primefactors clist])
   end).
Proof. reflexivity. Qed.

Lemma odometer_from_0 (fuel : nat) (primefactors : list (Z * Z)) (clist : list Z) :
  counters_ok (map snd primefactors) clist ->
  primefactors <> [] -> (length primefactors <= fuel)%nat ->
  odometer fuel primefactors clist 0
  = Ret (next_counter (map snd primefactors) clist).
Proof.
  intros Hok Hne Hfuel.
  pose proof (counters_ok_length _ _ Hok) as Hlen. rewrite length_map in Hlen.
  pose proof (odometer_spec fuel [] primefactors [] clist eq_refl Hlen Hne Hfuel) as H.
  cbn [app length Z.of_nat] in H. rewrite H.
  now destruct (next_counter (map snd primefactors) clist).
Qed.

(** With [j] beyond the number of counter values still to come, the
    enumeration returns. *)
Lemma enumerate_terminates (fuel : nat) (primefactors : list (Z * Z)) :
  primefactors <> [] -> (length primefactors <= fuel)%nat ->
  forall j clist output,
    counters_ok (map snd primefactors) clist ->
    counter_total (map snd primefactors)
    - counter_value (map snd primefactors) clist <= Z.of_nat j ->
    exists out, enumerate j fuel primefactors clist output = Ret out.
Proof.
  intros Hne Hfuel. induction j as [| j IH]; intros clist output Hok Hj.
  - pose proof (counter_value_bound _ _ Hok). lia.
  - rewrite enumerate_S, odometer_from_0 by assumption. cbn [obind].
    assert (Hes : map snd primefactors <> []).
    { destruct primefactors; [contradiction | discriminate]. }
    pose proof (next_counter_spec _ _ Hok Hes) as Hnext.
    destruct (next_counter (map snd primefactors) clist) as [clist' |].
    + destruct Hnext as [Hok' Hval]. apply IH; [exact Hok' | lia].
    + eauto.
Qed.

(** More fuel does not change what the enumeration returns. *)
Lemma enumerate_fuel (fuel1 fuel2 : nat) (primefactors : list (Z * Z)) :
  primefactors <> [] ->
  (length primefactors <= fuel1)%nat -> (length primefactors <= fuel2)%nat ->
  forall j1 j2 clist output out,
    counters_ok (map snd primefactors) clist -> (j1 <= j2)%nat ->
    enumerate j1 fuel1 primefactors clist output = Ret out ->
    enumerate j2 fuel2 primefactors clist output = Ret out.
Proof.
  intros Hne Hf1 Hf2.
  assert (Hes : map snd primefactors <> []).
  { destruct primefactors; [contradiction | discriminate]. }
  induction j1 as [| j1 IH]; intros j2 clist output out Hok Hj Hrun;
    [discriminate Hrun |].
  destruct j2 as [| j2]; [lia |].
  rewrite enumerate_S, odometer_from_0 in Hrun |- * by assumption.
  cbn [obind] in Hrun |- *.
  pose proof (next_counter_spec _ _ Hok Hes) as Hnext.
  destruct (next_counter (map snd primefactors) clist) as [clist' |];
    [| exact Hrun].
  apply (IH j2); [apply Hnext | lia | exact Hrun].
Qed.

Lemma counter_total_le_product (l : list (Z * Z)) :
  good_pairs l -> 1 <= counter_total (map snd l) <= factor_product l.
Proof.
  induction 1 as [| [p e] l [Hp He] Hl IH];
    cbn [map snd fst counter_total factor_product fold_right] in *; [lia |].
  fold (factor_product l).
  assert (H2 : e + 1 <= 2 ^ e) by (pose proof (Z.pow_gt_lin_r 2 e); lia).
  assert (Hpe : 2 ^ e <= p ^ e) by (apply Z.pow_le_mono_l; lia).
  nia.
Qed.

Lemma counters_ok_zero (l : list (Z * Z)) :
  good_pairs l -> counters_ok (map snd l) (repeat 0 (length l)).
Proof.
  induction 1 as [| [p e] l [Hp He] Hl IH]; cbn [map snd length repeat].
  - constructor.
  - constructor; [cbn in He; lia | exact IH].
Qed.

Lemma length_le_total (l : list (Z * Z)) :
  good_pairs l -> Z.of_nat (length l) < counter_total (map snd l).
Proof.
  intros Hl. rewrite <- (length_map snd l). apply counter_total_pos.
  apply Forall_map. eapply Forall_impl; [| exact Hl]. cbv beta. tauto.
Qed.

(** The enumeration started by [all_divisors] on a factorization of [n]
    returns, and what it returns does not depend on the fuel. *)
Lemma enumeration_returns (n : Z) (l : list (Z * Z)) :
  2 <= n -> good_pairs l -> factor_product l = n ->
  exists out,
    forall fuel, n < Z.of_nat fuel ->
      enumerate fuel fuel l (repeat 0 (length l)) [] = Ret out.
Proof.
  intros Hn Hgood Hprod.
  assert (Hne : l <> []) by (intros ->; cbn in Hprod; lia).
  pose proof (counter_total_le_product l Hgood) as Htot.
  pose proof (length_le_total l Hgood) as Hlen.
  pose proof (counters_ok_zero l Hgood) as Hok.
  pose proof (counter_value_bound _ _ Hok) as Hval.
  set (fuel0 := S (Z.to_nat n)).
  destruct (enumerate_terminates fuel0 l Hne ltac:(lia) fuel0 _ [] Hok ltac:(lia))
    as [out Hout].
  exists out. intros fuel Hfuel.
  destruct (enumerate_terminates fuel l Hne ltac:(lia) fuel _ [] Hok ltac:(lia))
    as [out' Hout'].
  destruct (Nat.le_ge_cases fuel0 fuel) as [Hle | Hle].
  - apply (enumerate_fuel fuel0 fuel l Hne ltac:(lia) ltac:(lia) fuel0 fuel);
      assumption.
  - pose proof (enumerate_fuel fuel fuel0 l Hne ltac:(lia) ltac:(lia) fuel fuel0
                  _ [] out' Hok Hle Hout') as H.
    congruence.
Qed.

(** [all_divisors] returns on every [n >= 1], whatever the draws. *)
Lemma all_divisors_returns (n : Z) (fuel : nat) (rand : bool) (r : rng) (i : nat) :
  1 <= n -> n < Z.of_nat fuel ->
  exists out, result (all_divisors fuel n rand r i) = Ret out.
Proof.
  intros Hn Hfuel. unfold all_divisors.
  destruct (Z.eqb_spec n 1) as [-> | Hn1]; [now exists [1] |].
  rewrite result_bind_lift.
  destruct (decomposition_returns n Hn fuel rand r i Hfuel) as [l [-> [Hprod Hgood]]].
  cbn [obind].
  destruct (enumeration_returns n l ltac:(lia) Hgood Hprod) as [out Hout].
  exists out. now apply Hout.
Qed.

(** ** Divisors missed after a trivial factor *)

(** Whatever the primality test answers on [103444057], the
    decomposition takes the number itself as its only factor. *)
Lemma decomposition_103444057 (r : rng) (i : nat) :
  result (prime_divisor_decomposition 200 103444057 false r i)
  = Ret [(103444057, 1)].
Proof.
  unfold prime_divisor_decomposition.
  rewrite (bind_lift_Ret _ _ r i (103444057, 0)) by (vm_compute; reflexivity).
  cbn [Z.eqb].
  rewrite (bind_lift_Ret _ _ r i (inr (mk_dstate 103444057 [] [])))
    by (vm_compute; reflexivity).
  cbn [rho_phase ds_n]. change (103444057 =? 1) with false. cbv iota.
  destruct (is_prime_terminates_log 200 103444057 100 r i) as [b [j Hb]].
  { vm_compute. discriminate. }
  unfold is_prime. rewrite (bind_Ret _ _ r i j b Hb).
  destruct b; [reflexivity |].
  rewrite (bind_Ret _ _ r j j 103444057) by (vm_compute; reflexivity).
  rewrite (bind_lift_Ret _ _ r j (1, 1)) by (vm_compute; reflexivity).
  reflexivity.
Qed.

(** C7 (the code at the failing input): whatever the random draws, the
    divisors 10099 and 10243 of [103444057] are missing from
    [all_divisors], because the decomposition took the composite
    returned by Pollard's rho as a factor. *)
Theorem all_divisors_misses_divisors :
  (forall r i,
      result (all_divisors 200 103444057 false r i) = Ret [1; 103444057])
  /\ (10099 | 103444057) /\ (10243 | 103444057).
Proof.
  split.
  - intros r i. unfold all_divisors. change (103444057 =? 1) with false. cbv iota.
    rewrite result_bind_lift, decomposition_103444057. vm_compute. reflexivity.
  - split; [exists 10243 | exists 10099]; reflexivity.
Qed.

(** * Canonical and repeatable decompositions *)

(** C5 (amended): for every [n >= 1] every returned pair has a factor
    from 2 on and an exponent from 1 on; when [n] has at most one prime
    factor from 10000 on, counted with multiplicity (every [n < 10^8]
    has), the factors are prime and strictly increasing. *)
Theorem decomposition_pairs (n : Z) :
  1 <= n ->
  forall fuel rand r i, n < Z.of_nat fuel ->
    exists l,
      result (prime_divisor_decomposition fuel n rand r i) = Ret l
      /\ Forall (fun pe => 2 <= fst pe /\ 1 <= snd pe) l
      /\ (n < 100000000 \/ one_large_prime n -> canonical_factorization l).
Proof.
  intros Hn fuel rand r i Hfuel.
  destruct (decomposition_returns n Hn fuel rand r i Hfuel) as [l [Hl [_ Hgood]]].
  exists l. split; [exact Hl |]. split; [exact Hgood |].
  intros Hone.
  assert (Hone' : one_large_prime n).
  { destruct Hone as [Hlt | H]; [| exact H].
    apply below_1e8_one_large_prime. lia. }
  destruct (decomposition_canonical n Hn Hone') as [l' [Hcanon Hrun]].
  specialize (Hrun fuel rand r i Hfuel). rewrite Hl in Hrun.
  injection Hrun as ->. exact Hcanon.
Qed.

Lemma decomposition_pairs_witness :
  1 <= 360
  /\ exists l,
       result (prime_divisor_decomposition 400 360 true ones O) = Ret l
       /\ Forall (fun pe => 2 <= fst pe /\ 1 <= snd pe) l
       /\ (360 < 100000000 \/ one_large_prime 360 -> canonical_factorization l).
Proof.
  split; [lia |].
  apply (decomposition_pairs 360); lia.
Defined.



(** * Further properties of the module *)

(** ** [_mr_decompose] *)

Lemma mr_decompose_loop_nonzero (fuel : nat) :
  forall n e0, n <> 0 -> Z.abs n < 2 ^ Z.of_nat fuel ->
    exists e d,
      _mr_decompose_loop fuel e0 n = Ret (e0 + e, d)
      /\ 0 <= e /\ n = 2 ^ e * d /\ d mod 2 = 1.
Proof.
  induction fuel as [| fuel IH]; intros n e0 Hn Hfuel; [cbn in Hfuel; lia |].
  rewrite mr_decompose_loop_S.
  rewrite Nat2Z.inj_succ, Z.pow_succ_r in Hfuel by lia.
  destruct (Z.eqb_spec (n mod 2) 0) as [Hmod | Hmod].
  - assert (Hdiv : n = 2 * (n / 2)) by (apply Z.div_exact; lia).
    destruct (IH (n / 2) (e0 + 1) ltac:(lia) ltac:(lia))
      as [e [d [Heq [He [Hprod Hodd]]]]].
    exists (e + 1), d. rewrite Heq.
    split; [f_equal; f_equal; lia |].
    split; [lia |]. split; [| exact Hodd].
    rewrite Z.pow_add_r, Z.pow_1_r by lia. lia.
  - exists 0, n. rewrite Z.add_0_r.
    split; [reflexivity |]. split; [lia |].
    split; [rewrite Z.pow_0_r; ring |].
    pose proof (Z.mod_pos_bound n 2). lia.
Qed.

(** X1: on every [n <> 0], positive or negative, [_mr_decompose]
    returns [(e, d)] with [n = 2^e * d] and [d] odd; fuel beyond the
    binary logarithm of [|n|] is enough for its loop. *)
Theorem mr_decompose_spec (fuel : nat) (n : Z) :
  n <> 0 -> Z.abs n < 2 ^ Z.of_nat fuel ->
  exists e d,
    _mr_decompose fuel n = Ret (e, d)
    /\ 0 <= e /\ n = 2 ^ e * d /\ d mod 2 = 1.
Proof.
  intros Hn Hfuel. unfold _mr_decompose.
  destruct (mr_decompose_loop_nonzero fuel n 0 Hn Hfuel) as [e [d H]].
  exists e, d. exact H.
Qed.

Lemma mr_decompose_spec_witness :
  -40 <> 0 /\ Z.abs (-40) < 2 ^ Z.of_nat 10
  /\ exists e d,
       _mr_decompose 10 (-40) = Ret (e, d)
       /\ 0 <= e /\ -40 = 2 ^ e * d /\ d mod 2 = 1.
Proof.
  split; [lia |]. split; [reflexivity |].
  apply (mr_decompose_spec 10 (-40)); [lia | reflexivity].
Defined.

Lemma mr_decompose_loop_zero (fuel : nat) :
  forall e0, _mr_decompose_loop fuel e0 0 = OutOfFuel.
Proof.
  induction fuel as [| fuel IH]; intros e0; [reflexivity |].
  rewrite mr_decompose_loop_S. cbn [Z.modulo Z.div_eucl snd fst Z.eqb Z.div].
  apply IH.
Qed.

(** X2: [_mr_decompose(0)] never returns: [0 % 2 == 0] and [0 // 2 == 0],
    so the loop is still running whatever fuel it is given. *)
Theorem mr_decompose_zero_diverges :
  forall fuel, _mr_decompose fuel 0 = OutOfFuel.
Proof. intros fuel. apply mr_decompose_loop_zero. Qed.

(** ** [_mr_isWitness] and [_is_prime] *)

(** X3: a witness proves compositeness: when [_mr_isWitness(a, p, e, d)]
    is true for a base [1 <= a < p] and [p - 1 = 2^e * d], [p] is not
    prime. *)
Theorem mr_witness_composite (a p e d : Z) :
  1 <= a < p -> 0 <= e -> 0 <= d -> p - 1 = 2 ^ e * d ->
  _mr_isWitness a p e d = true -> ~ Z.prime p.
Proof.
  intros Ha He Hd Hdec Hw Hp.
  rewrite (mr_isWitness_prime p a e d Hp Ha He Hd Hdec) in Hw.
  discriminate Hw.
Qed.

Lemma mr_witness_composite_witness :
  1 <= 2 < 9 /\ 0 <= 3 /\ 0 <= 1 /\ 9 - 1 = 2 ^ 3 * 1
  /\ _mr_isWitness 2 9 3 1 = true /\ ~ Z.prime 9.
Proof.
  split; [lia |]. split; [lia |]. split; [lia |]. split; [reflexivity |].
  split; [reflexivity |].
  apply (mr_witness_composite 2 9 3 1); try lia; reflexivity.
Defined.

(** X4: with [accuracy <= 0] no base is drawn and [_is_prime] answers
    true on every [p >= 2], composite or not. *)
Theorem is_prime_without_trials (fuel : nat) (p accuracy : Z) (r : rng) (i : nat) :
  2 <= p -> accuracy <= 0 -> p <= 2 ^ Z.of_nat fuel ->
  _is_prime fuel p accuracy r i = Ret (true, i).
Proof.
  intros Hp Hacc Hfuel. unfold _is_prime.
  destruct (Z.ltb_spec p 2) as [? | _]; [lia |].
  destruct ((p =? 2) || (p =? 3)) eqn:Hsmall; [reflexivity |].
  apply orb_false_iff in Hsmall. destruct Hsmall as [H2 H3].
  apply Z.eqb_neq in H2, H3. unfold _mr_decompose.
  destruct (mr_decompose_loop_spec fuel (p - 1) 0 ltac:(lia) ltac:(lia))
    as [e [d [Heq _]]].
  rewrite (bind_lift_Ret _ _ r i _ Heq).
  replace (Z.to_nat accuracy) with O by lia. reflexivity.
Qed.

Lemma is_prime_without_trials_witness :
  2 <= 91 /\ 0 <= 0 /\ 91 <= 2 ^ Z.of_nat 10
  /\ _is_prime 10 91 0 no_draws O = Ret (true, O).
Proof.
  split; [lia |]. split; [lia |]. split; [vm_compute; discriminate |].
  apply (is_prime_without_trials 10 91 0 no_draws O); lia.
Defined.

(** ** [_pollard_rho] *)

(** X5: on every [n >= 2], with fixed or random seeds, [_pollard_rho]
    returns a divisor [d] of [n] with [2 <= d <= n]; on a prime [n] it
    returns [n] itself. *)
Theorem pollard_rho_divisor (fuel : nat) (n : Z) (rand : bool) (r : rng) (i : nat) :
  2 <= n -> n < Z.of_nat fuel ->
  exists d,
    result (_pollard_rho fuel n rand r i) = Ret d
    /\ 2 <= d <= n /\ (d | n) /\ (Z.prime n -> d = n).
Proof.
  intros Hn Hfuel.
  destruct (pollard_rho_terminates fuel n rand r i Hn Hfuel)
    as [d [j [Hrun [Hd Hdiv]]]].
  exists d. rewrite Hrun. split; [reflexivity |].
  assert (Hle : d <= n) by (apply Z.divide_pos_le; [lia | exact Hdiv]).
  split; [lia |]. split; [exact Hdiv |].
  intros Hp. destruct (Z.divide_prime_r d n Hp Hdiv) as [? | [? | [? | ?]]]; lia.
Qed.

Lemma pollard_rho_divisor_witness :
  2 <= 91 /\ 91 < Z.of_nat 100
  /\ exists d,
       result (_pollard_rho 100 91 true ones O) = Ret d
       /\ 2 <= d <= 91 /\ (d | 91) /\ (Z.prime 91 -> d = 91).
Proof.
  split; [lia |]. split; [lia |].
  apply (pollard_rho_divisor 100 91 true ones O); lia.
Defined.

(** X6: the two arguments below 2 that do not loop: [_pollard_rho(1)]
    returns 1 before the first iteration ([d != n] fails at once), and
    [_pollard_rho(0)] raises [ZeroDivisionError] at [f(x, c) % n],
    with fixed or random seeds. *)
Theorem pollard_rho_below_2 (fuel : nat) (rand : bool) (r : rng) (i : nat) :
  result (_pollard_rho (S fuel) 1 rand r i) = Ret 1
  /\ result (_pollard_rho (S fuel) 0 rand r i) = Raise ZeroDivisionError.
Proof.
  unfold _pollard_rho, bind, lift, ret, randrange.
  destruct rand; cbn [negb]; split; reflexivity.
Qed.

(** ** [_primes_list] on a negative bound *)

(** X7: a negative bound makes the length handed to [np.ones] negative,
    and [_primes_list] raises [ValueError]. *)
Theorem primes_list_negative (n : Z) :
  n < 0 -> _primes_list n = Raise ValueError.
Proof.
  intros Hn. unfold _primes_list, np_ones.
  destruct (Z.ltb_spec (n / 3 + (if n mod 6 =? 2 then 1 else 0)) 0) as [_ | Hge];
    [reflexivity | exfalso].
  destruct (Z.eqb_spec (n mod 6) 2); Z.div_mod_to_equations; lia.
Qed.

Lemma primes_list_negative_witness :
  -10 < 0 /\ _primes_list (-10) = Raise ValueError.
Proof. split; [lia |]. apply (primes_list_negative (-10)). lia. Defined.

(** ** The sieve on two bounds, and the table of small primes *)

Lemma sorted_lt_unique (l : list Z) :
  forall l',
    StronglySorted Z.lt l -> StronglySorted Z.lt l' ->
    (forall x, In x l <-> In x l') -> l = l'.
Proof.
  induction l as [| a l IH]; intros [| a' l'] Hl Hl' Hsame.
  - reflexivity.
  - exfalso. apply (proj2 (Hsame a')). now left.
  - exfalso. apply (proj1 (Hsame a)). now left.
  - apply StronglySorted_inv in Hl, Hl'.
    destruct Hl as [Hl Ha], Hl' as [Hl' Ha'].
    rewrite Forall_forall in Ha, Ha'.
    assert (Heq : a = a').
    { destruct (proj1 (Hsame a) (or_introl eq_refl)) as [? | Hin]; [congruence |].
      destruct (proj2 (Hsame a') (or_introl eq_refl)) as [? | Hin']; [congruence |].
      pose proof (Ha' a Hin). pose proof (Ha a' Hin'). lia. }
    subst a'. f_equal. apply IH; [exact Hl | exact Hl' |].
    intros x. split; intros Hx.
    + destruct (proj1 (Hsame x) (or_intror Hx)) as [<- | ?]; [| assumption].
      pose proof (Ha a Hx). lia.
    + destruct (proj2 (Hsame x) (or_intror Hx)) as [<- | ?]; [| assumption].
      pose proof (Ha' a Hx). lia.
Qed.

Lemma sorted_filter (f : Z -> bool) (l : list Z) :
  StronglySorted Z.lt l -> StronglySorted Z.lt (filter f l).
Proof.
  induction 1 as [| a l Hl IH Ha]; cbn [filter]; [constructor |].
  destruct (f a); [| exact IH].
  constructor; [exact IH |].
  apply Forall_forall. intros x Hx. apply filter_In in Hx.
  exact (proj1 (Forall_forall _ _) Ha x (proj1 Hx)).
Qed.

Lemma sorted_split (m : Z) (l : list Z) :
  StronglySorted Z.lt l ->
  l = filter (fun x => x <? m) l ++ filter (fun x => negb (x <? m)) l.
Proof.
  induction 1 as [| a l Hl IH Ha]; cbn [filter]; [reflexivity |].
  destruct (Z.ltb_spec a m) as [Hlt | Hge]; cbn [negb app].
  - now rewrite <- IH.
  - rewrite Forall_forall in Ha.
    assert (Hnone : filter (fun x => x <? m) l = []).
    { clear IH Hl. induction l as [| b l IHl]; [reflexivity |]. cbn [filter].
      destruct (Z.ltb_spec b m) as [Hb | _].
      - pose proof (Ha b (or_introl eq_refl)). lia.
      - apply IHl. intros x Hx. apply Ha. now right. }
    rewrite Hnone in IH |- *. cbn [app] in IH |- *. now rewrite <- IH.
Qed.

(** X8: the sieve on a smaller bound returns a prefix of the sieve on a
    larger one: for [6 <= m <= n], [_primes_list(n)] is [_primes_list(m)]
    followed by primes from [m] on. *)
Theorem primes_list_prefix (m n : Z) :
  6 <= m <= n ->
  exists lm rest,
    _primes_list m = Ret lm
    /\ _primes_list n = Ret (lm ++ rest)
    /\ Forall (fun p => m <= p) rest.
Proof.
  intros Hmn.
  destruct (primes_list_spec m ltac:(lia)) as [lm [Hlm [Hsm Hinm]]].
  destruct (primes_list_spec n ltac:(lia)) as [ln [Hln [Hsn Hinn]]].
  exists lm, (filter (fun x => negb (x <? m)) ln).
  split; [exact Hlm |].
  assert (Heq : lm = filter (fun x => x <? m) ln).
  { apply sorted_lt_unique; [exact Hsm | now apply sorted_filter |].
    intros x. rewrite filter_In, Hinm, Hinn, Z.ltb_lt. split.
    - intros [Hp Hlt]. split; [split |]; [exact Hp | lia | exact Hlt].
    - intros [[Hp _] Hlt]. now split. }
  split.
  - rewrite Hln, Heq. f_equal. now apply sorted_split.
  - apply Forall_forall. intros x Hx. apply filter_In in Hx.
    destruct Hx as [_ Hx]. destruct (Z.ltb_spec x m); [discriminate | lia].
Qed.

Lemma primes_list_prefix_witness :
  6 <= 10 <= 30
  /\ exists lm rest,
       _primes_list 10 = Ret lm
       /\ _primes_list 30 = Ret (lm ++ rest)
       /\ Forall (fun p => 10 <= p) rest.
Proof. split; [lia |]. apply (primes_list_prefix 10 30). lia. Defined.

(** X9: the module-level table [P10K] is strictly increasing and the
    membership test [n in P10Kset] is true exactly for the primes below
    10000. *)
Theorem P10Kset_decides_small_primes :
  StronglySorted Z.lt P10K
  /\ forall n, in_P10Kset n = true <-> Z.prime n /\ n < 10000.
Proof.
  destruct P10K_spec as [Hsorted Hspec]. split; [exact Hsorted |].
  intros n. now rewrite in_P10Kset_spec.
Qed.

(** ** The decomposition as the prime factorization *)

Lemma factor_product_cons (p e : Z) (l : list (Z * Z)) :
  factor_product ((p, e) :: l) = p ^ e * factor_product l.
Proof. reflexivity. Qed.

Lemma good_pairs_product (l : list (Z * Z)) :
  good_pairs l -> 1 <= factor_product l /\ (l <> [] -> 2 <= factor_product l).
Proof.
  induction 1 as [| [p e] l [Hp He] Hl [IH1 IH2]].
  - cbn. split; [lia | congruence].
  - rewrite factor_product_cons. cbn [fst snd] in Hp, He.
    assert (Hpe : 2 <= p ^ e).
    { replace e with (1 + (e - 1)) by lia.
      rewrite Z.pow_add_r, Z.pow_1_r by lia.
      pose proof (Z.pow_pos_nonneg p (e - 1) ltac:(lia) ltac:(lia)). nia. }
    split; [nia | intros _; nia].
Qed.

Lemma In_factor_divides (p e : Z) (l : list (Z * Z)) :
  In (p, e) l -> (p ^ e | factor_product l).
Proof.
  induction l as [| [q f] l IH]; intros Hin; [destruct Hin |].
  rewrite factor_product_cons. destruct Hin as [Heq | Hin].
  - injection Heq as -> ->. apply Z.divide_factor_l.
  - apply Z.divide_mul_r. now apply IH.
Qed.

Lemma prime_divides_factor_product (q : Z) (l : list (Z * Z)) :
  Z.prime q ->
  Forall (fun pe => Z.prime (fst pe) /\ 1 <= snd pe) l ->
  (q | factor_product l) -> In q (map fst l).
Proof.
  intros Hq. induction 1 as [| [p e] l [Hp He] Hl IH]; intros Hdiv.
  - cbn in Hdiv. apply Z.divide_1_r_nonneg in Hdiv.
    + pose proof (Z.prime_ge_2 q Hq). lia.
    + pose proof (Z.prime_ge_2 q Hq). lia.
  - rewrite factor_product_cons in Hdiv. cbn [fst snd map] in *.
    apply Z.divide_prime_mul in Hdiv; [| exact Hq].
    destruct Hdiv as [Hdiv | Hdiv].
    + left. symmetry. apply (Z.divide_prime_pp q p e Hq Hp ltac:(lia) Hdiv).
    + right. now apply IH.
Qed.

(** X10: a prime [p] decomposes into the single pair [(p, 1)], whatever
    the [rand] flag and the random draws. *)
Theorem decomposition_of_prime (p : Z) (fuel : nat) (rand : bool) (r : rng) (i : nat) :
  Z.prime p -> p < Z.of_nat fuel ->
  result (prime_divisor_decomposition fuel p rand r i) = Ret [(p, 1)].
Proof.
  intros Hp Hfuel. pose proof (Z.prime_ge_2 p Hp) as Hp2.
  destruct (decomposition_returns p ltac:(lia) fuel rand r i Hfuel)
    as [l [-> [Hprod Hgood]]].
  f_equal. destruct l as [| [a e] l]; [cbn in Hprod; lia |].
  rewrite factor_product_cons in Hprod.
  apply Forall_cons_iff in Hgood. destruct Hgood as [[Ha He] Hl].
  cbn [fst snd] in Ha, He.
  pose proof (good_pairs_product l Hl) as [Hrest Hrest2].
  assert (Hsplit : a ^ e = a * a ^ (e - 1)).
  { replace e with (1 + (e - 1)) at 1 by lia.
    now rewrite Z.pow_add_r, Z.pow_1_r by lia. }
  pose proof (Z.pow_pos_nonneg a (e - 1) ltac:(lia) ltac:(lia)) as Hpow.
  assert (Hap : a = p).
  { assert (Hdiv : (a | p)).
    { exists (a ^ (e - 1) * factor_product l). rewrite <- Hprod, Hsplit. ring. }
    destruct (Z.eq_dec a p) as [| Hne]; [assumption |].
    exfalso. destruct Hp as [_ Hp]. apply (Hp a); [| exact Hdiv].
    apply Z.divide_pos_le in Hdiv; lia. }
  subst a.
  assert (Hone : p ^ (e - 1) * factor_product l = 1) by nia.
  assert (Hpow1 : p ^ (e - 1) = 1) by nia.
  assert (Hl1 : factor_product l = 1) by nia.
  assert (He1 : e = 1).
  { destruct (Z.eq_dec e 1) as [| Hne]; [assumption |]. exfalso.
    replace (e - 1) with (1 + (e - 2)) in Hpow1 by lia.
    rewrite Z.pow_add_r, Z.pow_1_r in Hpow1 by lia.
    pose proof (Z.pow_pos_nonneg p (e - 2) ltac:(lia) ltac:(lia)). nia. }
  subst e. destruct l as [| pe l]; [reflexivity |].
  exfalso. assert (2 <= factor_product (pe :: l)) by (apply Hrest2; congruence). lia.
Qed.

Lemma decomposition_of_prime_witness :
  Z.prime 101 /\ 101 < Z.of_nat 200
  /\ result (prime_divisor_decomposition 200 101 true ones O) = Ret [(101, 1)].
Proof.
  assert (Hp : Z.prime 101).
  { apply prime_by_trial; [lia | vm_compute; reflexivity]. }
  split; [exact Hp |]. split; [lia |].
  apply (decomposition_of_prime 101 200 true ones O Hp). lia.
Defined.

Lemma canonical_exact_exponent (l : list (Z * Z)) (p e : Z) :
  canonical_factorization l -> In (p, e) l ->
  ~ (p ^ (e + 1) | factor_product l).
Proof.
  intros [Hpairs Hsorted] Hin Hdiv.
  apply in_split in Hin. destruct Hin as [l1 [l2 ->]].
  rewrite factor_product_app, factor_product_cons in Hdiv.
  apply Forall_app in Hpairs. destruct Hpairs as [Hp1 Hp2].
  apply Forall_cons_iff in Hp2. destruct Hp2 as [[Hp He] Hp2].
  cbn [fst snd] in Hp, He. pose proof (Z.prime_ge_2 p Hp) as Hp2'.
  pose proof (Z.pow_pos_nonneg p e ltac:(lia) ltac:(lia)) as Hpow.
  assert (Hrest : (p | factor_product l1 * factor_product l2)).
  { destruct Hdiv as [k Hk]. exists k.
    rewrite Z.pow_add_r, Z.pow_1_r in Hk by lia.
    apply (Z.mul_cancel_l _ _ (p ^ e)); [lia |].
    transitivity (factor_product l1 * (p ^ e * factor_product l2)); [ring |].
    rewrite Hk. ring. }
  apply sorted_NoDup in Hsorted. rewrite map_app in Hsorted. cbn [map fst] in Hsorted.
  apply NoDup_remove_2 in Hsorted. apply Hsorted. apply in_or_app.
  apply Z.divide_prime_mul in Hrest; [| exact Hp].
  destruct Hrest as [H | H]; [left | right];
    now apply prime_divides_factor_product.
Qed.

(** X11: for [n >= 1] with at most one prime factor from 10000 on,
    counted with multiplicity (every [n < 10^8] is one), the returned
    pairs are the prime factorization of [n]: the factors are exactly the
    primes dividing [n], and each exponent is the exact power of its prime
    in [n]. *)
Theorem decomposition_exact (n : Z) (fuel : nat) (rand : bool) (r : rng) (i : nat) :
  1 <= n -> n < 100000000 \/ one_large_prime n -> n < Z.of_nat fuel ->
  exists l,
    result (prime_divisor_decomposition fuel n rand r i) = Ret l
    /\ (forall q, Z.prime q -> (q | n) <-> In q (map fst l))
    /\ (forall p e, In (p, e) l -> (p ^ e | n) /\ ~ (p ^ (e + 1) | n)).
Proof.
  intros Hn Hone Hfuel.
  assert (Hone' : one_large_prime n).
  { destruct Hone as [Hlt | H]; [| exact H].
    apply below_1e8_one_large_prime. lia. }
  destruct (decomposition_canonical n Hn Hone') as [l [Hcanon Hrun]].
  destruct (decomposition_returns n Hn fuel rand r i Hfuel) as [l' [Hl' [Hprod _]]].
  rewrite (Hrun fuel rand r i Hfuel) in Hl'. injection Hl' as <-.
  exists l. split; [now apply Hrun |]. split.
  - intros q Hq. split.
    + intros Hdiv. rewrite <- Hprod in Hdiv.
      now apply prime_divides_factor_product; [| apply Hcanon |].
    + intros Hin. apply in_map_iff in Hin. destruct Hin as [[p e] [Heq Hin]].
      cbn [fst] in Heq. subst p. rewrite <- Hprod.
      destruct Hcanon as [Hpairs _].
      pose proof (proj1 (Forall_forall _ _) Hpairs _ Hin) as [_ He]. cbn [snd] in He.
      apply Z.divide_trans with (q ^ e); [now apply Z.divide_pow_same_r |].
      now apply In_factor_divides.
  - intros p e Hin. rewrite <- Hprod. split.
    + now apply In_factor_divides.
    + now apply canonical_exact_exponent.
Qed.

Lemma decomposition_exact_witness :
  1 <= 360 /\ (360 < 100000000 \/ one_large_prime 360) /\ 360 < Z.of_nat 400
  /\ exists l,
       result (prime_divisor_decomposition 400 360 false no_draws O) = Ret l
       /\ (forall q, Z.prime q -> (q | 360) <-> In q (map fst l))
       /\ (forall p e, In (p, e) l -> (p ^ e | 360) /\ ~ (p ^ (e + 1) | 360)).
Proof.
  split; [lia |]. split; [left; lia |]. split; [lia |].
  apply (decomposition_exact 360 400 false no_draws O); [lia | left; lia | lia].
Defined.

(** ** The divisors that [all_divisors] lists *)

Lemma insert_sorted_perm (x : Z) (l : list Z) :
  Permutation (insert_sorted x l) (x :: l).
Proof.
  induction l as [| y t IH]; cbn [insert_sorted]; [reflexivity |].
  destruct (x <=? y); [reflexivity |].
  rewrite IH. apply perm_swap.
Qed.

Lemma sorted_perm (l : list Z) : Permutation (sorted l) l.
Proof.
  induction l as [| x l IH]; [reflexivity |].
  cbn [sorted fold_right]. fold (sorted l).
  rewrite insert_sorted_perm. now constructor.
Qed.

Lemma insert_sorted_ascending (x : Z) (l : list Z) :
  StronglySorted Z.le l -> StronglySorted Z.le (insert_sorted x l).
Proof.
  induction 1 as [| y t Ht IH Hall]; cbn [insert_sorted].
  - repeat constructor.
  - destruct (Z.leb_spec x y) as [Hle | Hgt].
    + constructor; [now constructor |].
      constructor; [exact Hle |].
      apply Forall_forall. intros z Hz.
      pose proof (proj1 (Forall_forall _ _) Hall z Hz). lia.
    + constructor; [exact IH |].
      apply Forall_forall. intros z Hz.
      apply (Permutation_in _ (insert_sorted_perm x t)) in Hz.
      destruct Hz as [<- | Hz]; [lia |].
      exact (proj1 (Forall_forall _ _) Hall z Hz).
Qed.

Lemma sorted_ascending (l : list Z) : StronglySorted Z.le (sorted l).
Proof.
  induction l as [| x l IH]; [constructor |].
  cbn [sorted fold_right]. fold (sorted l). now apply insert_sorted_ascending.
Qed.

Lemma ascending_NoDup_strict (l : list Z) :
  StronglySorted Z.le l -> NoDup l -> StronglySorted Z.lt l.
Proof.
  induction 1 as [| x l Hl IH Hall]; intros Hnd; [constructor |].
  apply NoDup_cons_iff in Hnd. destruct Hnd as [Hnin Hnd].
  constructor; [now apply IH |].
  apply Forall_forall. intros y Hy.
  pose proof (proj1 (Forall_forall _ _) Hall y Hy).
  assert (x <> y) by (intros ->; contradiction). lia.
Qed.

Lemma cprod_cons (x : Z) (l : list Z) : cprod (x :: l) = x * cprod l.
Proof.
  unfold cprod. cbn [fold_left]. rewrite Z.mul_1_l.
  revert x. induction l as [| y l IH]; intros x; cbn [fold_left]; [lia |].
  rewrite (IH (x * y)), (IH (1 * y)). ring.
Qed.

Lemma divisor_of_nil (clist : list Z) : divisor_of [] clist = 1.
Proof. reflexivity. Qed.

Lemma divisor_of_cons (p e c : Z) (primefactors : list (Z * Z)) (clist : list Z) :
  divisor_of ((p, e) :: primefactors) (c :: clist)
  = p ^ c * divisor_of primefactors clist.
Proof. unfold divisor_of. cbn [combine map]. apply cprod_cons. Qed.

Lemma range_cons (lo hi : Z) : lo < hi -> range lo hi = lo :: range (lo + 1) hi.
Proof.
  intros Hlt. unfold range.
  replace (Z.to_nat (hi - lo)) with (S (Z.to_nat (hi - (lo + 1)))) by lia.
  cbn [seq map]. f_equal; [lia |].
  rewrite <- seq_shift, map_map. apply map_ext. intros k. lia.
Qed.

(** The outer loop visits the counters of every rank from the current
    one to the last, once each and in order, and returns their divisors
    sorted. *)
Lemma enumerate_visits (fuel : nat) (primefactors : list (Z * Z)) :
  primefactors <> [] -> (length primefactors <= fuel)%nat ->
  forall j clist output out,
    counters_ok (map snd primefactors) clist ->
    enumerate j fuel primefactors clist output = Ret out ->
    exists visited,
      out = sorted (output ++ map (divisor_of primefactors) visited)
      /\ Forall (counters_ok (map snd primefactors)) visited
      /\ map (counter_value (map snd primefactors)) visited
         = range (counter_value (map snd primefactors) clist)
                 (counter_total (map snd primefactors)).
Proof.
  intros Hne Hfuel.
  assert (Hes : map snd primefactors <> []).
  { destruct primefactors; [contradiction | discriminate]. }
  induction j as [| j IH]; intros clist output out Hok Hrun; [discriminate Hrun |].
  rewrite enumerate_S, odometer_from_0 in Hrun by assumption.
  cbn [obind] in Hrun.
  pose proof (next_counter_spec _ _ Hok Hes) as Hnext.
  pose proof (counter_value_bound _ _ Hok) as Hbound.
  destruct (next_counter (map snd primefactors) clist) as [clist' |].
  - destruct Hnext as [Hok' Hval].
    destruct (IH _ _ _ Hok' Hrun) as [visited [Hout [Hall Hranks]]].
    exists (clist :: visited). split; [| split].
    + rewrite Hout, <- app_assoc. reflexivity.
    + now constructor.
    + cbn [map]. rewrite Hranks, Hval. symmetry. apply range_cons. lia.
  - injection Hrun as <-. exists [clist]. split; [| split].
    + reflexivity.
    + now repeat constructor.
    + cbn [map]. rewrite <- Hnext, range_cons by lia.
      f_equal. unfold range. now rewrite Z.sub_diag.
Qed.

Lemma counter_value_inj (es cs cs' : list Z) :
  counters_ok es cs -> counters_ok es cs' ->
  counter_value es cs = counter_value es cs' -> cs = cs'.
Proof.
  intros Hok. revert cs'.
  induction Hok as [| e c es cs Hc Hok IH]; intros cs' Hok' Heq;
    inversion Hok' as [| e' c' es' cs0 Hc' Hok0]; subst; [reflexivity |].
  cbn [counter_value] in Heq.
  assert (Hvv : counter_value es cs = counter_value es cs0).
  { destruct (Z.lt_trichotomy (counter_value es cs) (counter_value es cs0))
      as [Hlt | [Heq' | Hgt]]; [nia | exact Heq' | nia]. }
  rewrite Hvv in Heq. f_equal; [lia |]. now apply IH.
Qed.

Lemma pow_split (p c e : Z) : 0 <= c <= e -> p ^ e = p ^ c * p ^ (e - c).
Proof. intros H. rewrite <- Z.pow_add_r by lia. f_equal. lia. Qed.

Lemma divisor_of_bounds (l : list (Z * Z)) :
  good_pairs l ->
  forall cs, counters_ok (map snd l) cs ->
    1 <= divisor_of l cs /\ (divisor_of l cs | factor_product l).
Proof.
  induction 1 as [| [p e] l [Hp He] Hl IH]; intros cs Hok.
  - rewrite divisor_of_nil. split; [lia | apply Z.divide_refl].
  - cbn [map snd fst] in *.
    inversion Hok as [| e' c es cs' Hc Hok']; subst.
    rewrite divisor_of_cons, factor_product_cons.
    destruct (IH _ Hok') as [Hpos Hdiv].
    pose proof (Z.pow_pos_nonneg p c ltac:(lia) ltac:(lia)) as Hpow.
    split; [nia |].
    destruct Hdiv as [k Hk]. exists (p ^ (e - c) * k).
    rewrite Hk, (pow_split p c e) by lia. ring.
Qed.

Lemma divisor_of_zero (l : list (Z * Z)) : divisor_of l (repeat 0 (length l)) = 1.
Proof.
  induction l as [| [p e] l IH]; [reflexivity |].
  cbn [length repeat]. rewrite divisor_of_cons, IH. reflexivity.
Qed.

Lemma divisor_of_full (l : list (Z * Z)) :
  good_pairs l ->
  counters_ok (map snd l) (map snd l) /\ divisor_of l (map snd l) = factor_product l.
Proof.
  induction 1 as [| [p e] l [Hp He] Hl [IH1 IH2]].
  - split; [constructor | reflexivity].
  - cbn [map snd] in *. split.
    + constructor; [lia | exact IH1].
    + now rewrite divisor_of_cons, factor_product_cons, IH2.
Qed.

(** Every counter setting within the maxima is among those visited from
    rank 0. *)
Lemma visited_all (es : list Z) (visited : list (list Z)) :
  Forall (counters_ok es) visited ->
  map (counter_value es) visited = range 0 (counter_total es) ->
  forall cs, counters_ok es cs -> In cs visited.
Proof.
  intros Hall Hranks cs Hok.
  pose proof (counter_value_bound _ _ Hok) as Hbound.
  apply In_range in Hbound. rewrite <- Hranks in Hbound.
  apply in_map_iff in Hbound. destruct Hbound as [cs0 [Heq Hin]].
  rewrite Forall_forall in Hall.
  now rewrite <- (counter_value_inj es cs0 cs (Hall _ Hin) Hok Heq).
Qed.

Lemma visited_NoDup (es : list Z) (visited : list (list Z)) (lo : Z) :
  map (counter_value es) visited = range lo (counter_total es) ->
  NoDup visited.
Proof.
  intros Hranks. apply (NoDup_map_inv (counter_value es)).
  rewrite Hranks. apply range_NoDup.
Qed.

Lemma counter_value_zero (l : list (Z * Z)) :
  counter_value (map snd l) (repeat 0 (length l)) = 0.
Proof.
  induction l as [| pe l IH]; [reflexivity |].
  cbn [map length repeat counter_value]. rewrite IH. lia.
Qed.

(** What a run of [all_divisors] on [n >= 2] amounts to: the decomposition
    [l] of [n], and the divisors of all counter settings within the
    exponents of [l], sorted. *)
Lemma all_divisors_run (n : Z) (fuel : nat) (rand : bool) (r : rng) (i : nat) :
  2 <= n -> n < Z.of_nat fuel ->
  exists l visited,
    result (prime_divisor_decomposition fuel n rand r i) = Ret l
    /\ factor_product l = n /\ good_pairs l
    /\ result (all_divisors fuel n rand r i)
       = Ret (sorted (map (divisor_of l) visited))
    /\ NoDup visited
    /\ Z.of_nat (length visited) = counter_total (map snd l)
    /\ forall cs, In cs visited <-> counters_ok (map snd l) cs.
Proof.
  intros Hn Hfuel. unfold all_divisors.
  destruct (Z.eqb_spec n 1) as [-> | _]; [lia |].
  rewrite result_bind_lift.
  destruct (decomposition_returns n ltac:(lia) fuel rand r i Hfuel)
    as [l [Hl [Hprod Hgood]]].
  rewrite Hl. cbn [obind].
  destruct (enumeration_returns n l Hn Hgood Hprod) as [out Hout].
  specialize (Hout fuel Hfuel).
  assert (Hne : l <> []) by (intros ->; cbn in Hprod; lia).
  pose proof (counter_total_le_product l Hgood) as Htot.
  pose proof (length_le_total l Hgood) as Hlen.
  pose proof (counters_ok_zero l Hgood) as Hok.
  destruct (enumerate_visits fuel l Hne ltac:(lia) fuel _ [] out Hok Hout)
    as [visited [Heq [Hall Hranks]]].
  rewrite counter_value_zero in Hranks. cbn [app] in Heq.
  exists l, visited. split; [reflexivity |]. split; [exact Hprod |].
  split; [exact Hgood |]. split; [now rewrite Hout, Heq |].
  split; [now apply visited_NoDup in Hranks |].
  split.
  { rewrite <- (length_map (counter_value (map snd l))), Hranks, range_length. lia. }
  intros cs. split.
  - intros Hin. exact (proj1 (Forall_forall _ _) Hall cs Hin).
  - now apply visited_all.
Qed.

(** X12: for every [n >= 1], whatever the [rand] flag and the random
    draws, [all_divisors] returns a list in ascending order whose members
    are all positive divisors of [n], with 1 and [n] among them. *)
Theorem all_divisors_sound (n : Z) (fuel : nat) (rand : bool) (r : rng) (i : nat) :
  1 <= n -> n < Z.of_nat fuel ->
  exists out,
    result (all_divisors fuel n rand r i) = Ret out
    /\ StronglySorted Z.le out
    /\ Forall (fun d => 1 <= d /\ (d | n)) out
    /\ In 1 out /\ In n out.
Proof.
  intros Hn Hfuel. destruct (Z.eq_dec n 1) as [-> | Hn1].
  - exists [1]. split; [reflexivity |].
    split; [repeat constructor |]. split; [| now split; left].
    constructor; [| constructor]. split; [lia | apply Z.divide_refl].
  - destruct (all_divisors_run n fuel rand r i ltac:(lia) Hfuel)
      as [l [visited [_ [Hprod [Hgood [Hrun [_ [_ Hvisited]]]]]]]].
    exists (sorted (map (divisor_of l) visited)).
    split; [exact Hrun |]. split; [apply sorted_ascending |].
    assert (Hmem : forall d, In d (sorted (map (divisor_of l) visited))
                             <-> exists cs, counters_ok (map snd l) cs
                                            /\ divisor_of l cs = d).
    { intros d. split.
      - intros Hin. apply (Permutation_in _ (sorted_perm _)) in Hin.
        apply in_map_iff in Hin. destruct Hin as [cs [Heq Hin]].
        exists cs. split; [now apply Hvisited | exact Heq].
      - intros [cs [Hok Heq]].
        apply (Permutation_in _ (Permutation_sym (sorted_perm _))).
        apply in_map_iff. exists cs. split; [exact Heq | now apply Hvisited]. }
    split; [| split].
    + apply Forall_forall. intros d Hd. apply Hmem in Hd.
      destruct Hd as [cs [Hok <-]]. rewrite <- Hprod.
      now apply divisor_of_bounds.
    + apply Hmem. exists (repeat 0 (length l)).
      split; [now apply counters_ok_zero | apply divisor_of_zero].
    + apply Hmem. exists (map snd l). rewrite <- Hprod.
      now apply divisor_of_full.
Qed.

Lemma all_divisors_sound_witness :
  1 <= 28 /\ 28 < Z.of_nat 50
  /\ exists out,
       result (all_divisors 50 28 false no_draws O) = Ret out
       /\ StronglySorted Z.le out
       /\ Forall (fun d => 1 <= d /\ (d | 28)) out
       /\ In 1 out /\ In 28 out.
Proof.
  split; [lia |]. split; [lia |].
  apply (all_divisors_sound 28 50 false no_draws O); lia.
Defined.

(** A divisor of [p^k * R] is a power of [p] up to [k] times a divisor of
    [R]. *)
Lemma divisor_split (p R : Z) (k : nat) :
  Z.prime p ->
  forall d, 1 <= d -> (d | p ^ Z.of_nat k * R) ->
    exists c d', 0 <= c <= Z.of_nat k /\ d = p ^ c * d' /\ 1 <= d' /\ (d' | R).
Proof.
  intros Hp. pose proof (Z.prime_ge_2 p Hp) as Hp2.
  induction k as [| k IH]; intros d Hd Hdiv.
  - exists 0, d. cbn [Z.of_nat] in Hdiv. rewrite Z.pow_0_r, Z.mul_1_l in *.
    repeat split; try lia. exact Hdiv.
  - rewrite Nat2Z.inj_succ, Z.pow_succ_r, <- Z.mul_assoc in Hdiv by lia.
    destruct (Z.eq_dec (d mod p) 0) as [Hmod | Hmod].
    + apply Z.mod_divide in Hmod; [| lia]. destruct Hmod as [d1 ->].
      assert (Hd1 : 1 <= d1) by nia.
      assert (Hdiv1 : (d1 | p ^ Z.of_nat k * R)).
      { destruct Hdiv as [m Hm]. exists m.
        apply (Z.mul_cancel_l _ _ p); [lia |]. rewrite Hm. ring. }
      destruct (IH d1 Hd1 Hdiv1) as [c [d' [Hc [-> [Hd' Hdiv']]]]].
      exists (c + 1), d'. repeat split; try lia; [| exact Hdiv'].
      rewrite Z.pow_add_r, Z.pow_1_r by lia. ring.
    + assert (Hco : Z.gcd d p = 1).
      { rewrite Z.gcd_comm. apply Z.coprime_prime_l; [exact Hp |].
        intros H. apply Hmod. apply Z.mod_divide; [lia | exact H]. }
      pose proof (Z.gauss _ _ _ Hdiv Hco) as Hdiv1.
      destruct (IH d Hd Hdiv1) as [c [d' [Hc [-> [Hd' Hdiv']]]]].
      exists c, d'. repeat split; try lia. exact Hdiv'.
Qed.

(** Every positive divisor of a product of prime powers comes from some
    counter setting within the exponents. *)
Lemma divisor_has_counters (l : list (Z * Z)) :
  Forall (fun pe => Z.prime (fst pe) /\ 1 <= snd pe) l ->
  forall d, 1 <= d -> (d | factor_product l) ->
    exists cs, counters_ok (map snd l) cs /\ divisor_of l cs = d.
Proof.
  induction 1 as [| [p e] l [Hp He] Hl IH]; intros d Hd Hdiv.
  - exists []. split; [constructor |]. cbn in Hdiv.
    apply Z.divide_1_r_nonneg in Hdiv; [| lia]. now rewrite divisor_of_nil.
  - cbn [fst snd map] in *. rewrite factor_product_cons in Hdiv.
    rewrite <- (Z2Nat.id e) in Hdiv by lia.
    destruct (divisor_split p _ _ Hp d Hd Hdiv) as [c [d' [Hc [-> [Hd' Hdiv']]]]].
    rewrite Z2Nat.id in Hc by lia.
    destruct (IH d' Hd' Hdiv') as [cs [Hok Heq]].
    exists (c :: cs). split; [now constructor |].
    now rewrite divisor_of_cons, Heq.
Qed.

(** On a canonical factorization different counter settings give
    different divisors. *)
Lemma divisor_of_inj (l : list (Z * Z)) :
  canonical_factorization l ->
  forall cs cs', counters_ok (map snd l) cs -> counters_ok (map snd l) cs' ->
    divisor_of l cs = divisor_of l cs' -> cs = cs'.
Proof.
  induction l as [| [p e] l IH]; intros [Hpairs Hsorted] cs cs' Hok Hok' Heq.
  - inversion Hok; inversion Hok'; reflexivity.
  - cbn [map fst snd] in *.
    apply Forall_cons_iff in Hpairs. destruct Hpairs as [[Hp He] Hpairs].
    cbn [fst snd] in Hp, He. pose proof (Z.prime_ge_2 p Hp) as Hp2.
    apply StronglySorted_inv in Hsorted. destruct Hsorted as [Hsorted Hall].
    assert (Hgood : good_pairs l).
    { apply Forall_forall. intros pe Hpe.
      pose proof (proj1 (Forall_forall _ _) Hpairs pe Hpe) as [Hq Hf].
      pose proof (Z.prime_ge_2 _ Hq). lia. }
    assert (Hfree : forall xs, counters_ok (map snd l) xs ->
                               1 <= divisor_of l xs /\ ~ (p | divisor_of l xs)).
    { intros xs Hxs. destruct (divisor_of_bounds l Hgood xs Hxs) as [Hpos Hdiv].
      split; [exact Hpos |]. intros Hpd.
      assert (Hin : In p (map fst l)).
      { apply prime_divides_factor_product; [exact Hp | exact Hpairs |].
        now apply Z.divide_trans with (divisor_of l xs). }
      pose proof (proj1 (Forall_forall _ _) Hall p Hin). lia. }
    inversion Hok as [| e1 c es1 xs Hc Hxs]; subst.
    inversion Hok' as [| e2 c' es2 xs' Hc' Hxs']; subst.
    rewrite !divisor_of_cons in Heq.
    destruct (Hfree xs Hxs) as [Hpos Hnd].
    destruct (Hfree xs' Hxs') as [Hpos' Hnd'].
    assert (Hcc : c = c').
    { destruct (Z.lt_trichotomy c c') as [Hlt | [Hcc | Hgt]]; [| exact Hcc |].
      - exfalso. apply Hnd. exists (p ^ (c' - c - 1) * divisor_of l xs').
        rewrite (pow_split p c c') in Heq by lia.
        pose proof (Z.pow_pos_nonneg p c ltac:(lia) ltac:(lia)).
        assert (Hs : p ^ (c' - c) = p ^ (c' - c - 1) * p).
        { rewrite <- (Z.pow_1_r p) at 3. rewrite <- Z.pow_add_r by lia.
          f_equal. lia. }
        apply (Z.mul_cancel_l _ _ (p ^ c)); [lia |]. rewrite Heq, Hs. ring.
      - exfalso. apply Hnd'. exists (p ^ (c - c' - 1) * divisor_of l xs).
        rewrite (pow_split p c' c) in Heq by lia.
        pose proof (Z.pow_pos_nonneg p c' ltac:(lia) ltac:(lia)).
        assert (Hs : p ^ (c - c') = p ^ (c - c' - 1) * p).
        { rewrite <- (Z.pow_1_r p) at 3. rewrite <- Z.pow_add_r by lia.
          f_equal. lia. }
        apply (Z.mul_cancel_l _ _ (p ^ c')); [lia |]. rewrite <- Heq, Hs. ring. }
    subst c'. f_equal. apply IH; [now split | exact Hxs | exact Hxs' |].
    pose proof (Z.pow_pos_nonneg p c ltac:(lia) ltac:(lia)).
    apply (Z.mul_cancel_l _ _ (p ^ c)); [lia | exact Heq].
Qed.

(** X13: for [n >= 1] with at most one prime factor from 10000 on,
    counted with multiplicity (every [n < 10^8] is one), [all_divisors]
    returns exactly the positive divisors of [n], each once, in strictly
    increasing order, whatever the [rand] flag and the random draws. *)
Theorem all_divisors_exact (n : Z) (fuel : nat) (rand : bool) (r : rng) (i : nat) :
  1 <= n -> n < 100000000 \/ one_large_prime n -> n < Z.of_nat fuel ->
  exists out,
    result (all_divisors fuel n rand r i) = Ret out
    /\ StronglySorted Z.lt out
    /\ forall d, In d out <-> 1 <= d /\ (d | n).
Proof.
  intros Hn Hone Hfuel. destruct (Z.eq_dec n 1) as [-> | Hn1].
  - exists [1]. split; [reflexivity |]. split; [repeat constructor |].
    intros d. split.
    + intros [<- | []]. split; [lia | apply Z.divide_refl].
    + intros [Hd Hdiv]. left. apply Z.divide_1_r_nonneg in Hdiv; lia.
  - assert (Hone' : one_large_prime n).
    { destruct Hone as [Hlt | H]; [| exact H].
      apply below_1e8_one_large_prime. lia. }
    destruct (decomposition_canonical n Hn Hone') as [lc [Hcanon Hlc]].
    destruct (all_divisors_run n fuel rand r i ltac:(lia) Hfuel)
      as [l [visited [Hl [Hprod [Hgood [Hrun [Hnd [_ Hvisited]]]]]]]].
    rewrite (Hlc fuel rand r i Hfuel) in Hl. injection Hl as ->.
    exists (sorted (map (divisor_of l) visited)).
    split; [exact Hrun |]. split.
    + apply ascending_NoDup_strict; [apply sorted_ascending |].
      apply (Permutation_NoDup (Permutation_sym (sorted_perm _))).
      apply NoDup_map_NoDup_ForallPairs; [| exact Hnd].
      intros cs cs' Hin Hin' Heq.
      apply (divisor_of_inj l Hcanon); [now apply Hvisited .. | exact Heq].
    + intros d. split.
      * intros Hin. apply (Permutation_in _ (sorted_perm _)) in Hin.
        apply in_map_iff in Hin. destruct Hin as [cs [<- Hin]].
        rewrite <- Hprod. apply divisor_of_bounds; [exact Hgood |].
        now apply Hvisited.
      * intros [Hd Hdiv]. rewrite <- Hprod in Hdiv.
        destruct (divisor_has_counters l (proj1 Hcanon) d Hd Hdiv) as [cs [Hok <-]].
        apply (Permutation_in _ (Permutation_sym (sorted_perm _))).
        apply in_map. now apply Hvisited.
Qed.

Lemma all_divisors_exact_witness :
  1 <= 360 /\ (360 < 100000000 \/ one_large_prime 360) /\ 360 < Z.of_nat 400
  /\ exists out,
       result (all_divisors 400 360 false no_draws O) = Ret out
       /\ StronglySorted Z.lt out
       /\ forall d, In d out <-> 1 <= d /\ (d | 360).
Proof.
  split; [lia |]. split; [left; lia |]. split; [lia |].
  apply (all_divisors_exact 360 400 false no_draws O); [lia | left; lia | lia].
Defined.

(** X14: for [n >= 2] the list returned by [all_divisors] has as many
    members as the product of [e + 1] over the exponents [e] of the
    decomposition it computed, whatever that decomposition is. *)
Theorem all_divisors_count (n : Z) (fuel : nat) (rand : bool) (r : rng) (i : nat) :
  2 <= n -> n < Z.of_nat fuel ->
  exists l out,
    result (prime_divisor_decomposition fuel n rand r i) = Ret l
    /\ result (all_divisors fuel n rand r i) = Ret out
    /\ Z.of_nat (length out) = counter_total (map snd l).
Proof.
  intros Hn Hfuel.
  destruct (all_divisors_run n fuel rand r i Hn Hfuel)
    as [l [visited [Hl [_ [_ [Hrun [_ [Hlen _]]]]]]]].
  exists l, (sorted (map (divisor_of l) visited)).
  split; [exact Hl |]. split; [exact Hrun |].
  now rewrite (Permutation_length (sorted_perm _)), length_map.
Qed.

Lemma all_divisors_count_witness :
  2 <= 28 /\ 28 < Z.of_nat 50
  /\ exists l out,
       result (prime_divisor_decomposition 50 28 false no_draws O) = Ret l
       /\ result (all_divisors 50 28 false no_draws O) = Ret out
       /\ Z.of_nat (length out) = counter_total (map snd l).
Proof.
  split; [lia |]. split; [lia |].
  apply (all_divisors_count 28 50 false no_draws O); lia.
Defined.

(** ** The Moebius table as a whole *)

Lemma primes_list_has_2 (n : Z) (l : list Z) : _primes_list n = Ret l -> In 2 l.
Proof.
  unfold _primes_list.
  destruct (np_ones true _) as [s | |]; cbn [obind]; try discriminate.
  destruct (sieve_loop s _) as [s' | |]; cbn [obind]; try discriminate.
  intros H. injection H as <-. now left.
Qed.

(** The table with its cell 0: the first loop leaves 0 there (it is a
    multiple of [2 * 2]) and the second loop starts from 1. *)
Lemma mobius_list_table (n : Z) :
  1 <= n ->
  exists plist mlist,
    primes_list (isqrt n + 1) = Ret plist
    /\ _mobius_list n = Ret mlist
    /\ Z.of_nat (length mlist) = n + 1
    /\ cell mlist 0 = Some 0
    /\ forall k, 1 <= k <= n ->
         cell mlist k = Some (normalise k (cell_fold plist k 1)).
Proof.
  intros Hn. destruct (mobius_primes n Hn) as [plist [Hpl _]].
  pose proof (primes_list_has_2 _ _ Hpl) as H2.
  unfold _mobius_list. rewrite Hpl. cbn [obind]. unfold np_ones.
  destruct (Z.ltb_spec (n + 1) 0) as [? | _]; [lia |]. cbn [obind].
  set (m0 := repeat 1 (Z.to_nat (n + 1))).
  set (m1 := fold_left mobius_mark plist m0).
  assert (Hlen1 : Z.of_nat (length m1) = n + 1).
  { unfold m1, m0. rewrite mobius_marks_length, repeat_length. lia. }
  destruct (mobius_normalise_loop_spec (range 1 (n + 1)) (range_NoDup _ _) m1)
    as [mlist [Hloop [Hlen Hcells]]].
  { apply Forall_forall. intros i Hi. apply In_range in Hi. lia. }
  exists plist, mlist. split; [reflexivity |]. split; [exact Hloop |].
  split; [congruence |]. split.
  - destruct (Hcells 0 ltac:(lia)) as [_ Hout].
    rewrite Hout by (rewrite In_range; lia).
    unfold m1. rewrite mobius_marks_cell by lia.
    unfold m0. rewrite cell_repeat by lia. cbn [option_map].
    now rewrite (cell_fold_square plist 2 0 H2).
  - intros k Hk. destruct (Hcells k ltac:(lia)) as [Hin _].
    rewrite Hin by (apply In_range; lia).
    unfold m1. rewrite mobius_marks_cell by lia.
    unfold m0. rewrite cell_repeat by lia. reflexivity.
Qed.

Lemma normalise_values (k v : Z) :
  normalise k v = -1 \/ normalise k v = 0 \/ normalise k v = 1.
Proof.
  unfold normalise. destruct (Z.eqb_spec v 0) as [-> | _]; [now right; left |].
  destruct (0 <? _); [now right; right | now left].
Qed.

(** X15: for [n >= 1] the table returned by [_mobius_list] has [n + 1]
    cells, every cell holds -1, 0 or 1, and cell 0 holds 0. *)
Theorem mobius_list_values (n : Z) :
  1 <= n ->
  exists mlist,
    _mobius_list n = Ret mlist
    /\ Z.of_nat (length mlist) = n + 1
    /\ cell mlist 0 = Some 0
    /\ Forall (fun v => v = -1 \/ v = 0 \/ v = 1) mlist.
Proof.
  intros Hn.
  destruct (mobius_list_table n Hn) as [plist [mlist [_ [Hm [Hlen [H0 Hcells]]]]]].
  exists mlist. split; [exact Hm |]. split; [exact Hlen |]. split; [exact H0 |].
  apply Forall_forall. intros v Hv.
  apply In_nth_error in Hv. destruct Hv as [j Hj].
  assert (Hlt : (j < length mlist)%nat) by (apply nth_error_Some; congruence).
  destruct j as [| j].
  - unfold cell in H0. cbn [Z.to_nat] in H0. rewrite H0 in Hj.
    injection Hj as <-. now right; left.
  - specialize (Hcells (Z.of_nat (S j)) ltac:(lia)).
    unfold cell in Hcells. rewrite Nat2Z.id, Hj in Hcells.
    injection Hcells as ->. apply normalise_values.
Qed.

Lemma mobius_list_values_witness :
  1 <= 10
  /\ exists mlist,
       _mobius_list 10 = Ret mlist
       /\ Z.of_nat (length mlist) = 10 + 1
       /\ cell mlist 0 = Some 0
       /\ Forall (fun v => v = -1 \/ v = 0 \/ v = 1) mlist.
Proof. split; [lia |]. apply (mobius_list_values 10). lia. Defined.

(** Every [k >= 1] is divisible by the square of a prime or is a product
    of distinct primes. *)
Lemma square_or_distinct_primes (k : Z) :
  1 <= k ->
  (exists q, Z.prime q /\ (q * q | k))
  \/ (exists ps, NoDup ps /\ Forall Z.prime ps /\ list_product ps = k).
Proof.
  intros Hk.
  assert (H : forall (b : nat) k, 1 <= k <= Z.of_nat b ->
                (exists q, Z.prime q /\ (q * q | k))
                \/ (exists ps, NoDup ps /\ Forall Z.prime ps /\ list_product ps = k)).
  { clear k Hk. induction b as [| b IH]; intros k Hk; [lia |].
    destruct (Z.eq_dec k 1) as [-> | Hk1].
    { right. exists []. repeat split; constructor. }
    destruct (prime_divisor_exists k ltac:(lia)) as [q [Hq [k' Hk']]].
    pose proof (Z.prime_ge_2 q Hq) as Hq2.
    assert (Hk'b : 1 <= k' <= Z.of_nat b) by nia.
    destruct (IH k' Hk'b) as [[q' [Hq' [c Hc]]] | [ps [Hnd [Hall Hprod]]]].
    - left. exists q'. split; [exact Hq' |]. exists (c * q). rewrite Hk', Hc. ring.
    - destruct (in_dec Z.eq_dec q ps) as [Hin | Hnin].
      + left. exists q. split; [exact Hq |].
        destruct (In_divides_product q ps Hin) as [c Hc].
        exists c. rewrite Hk', <- Hprod, Hc. ring.
      + right. exists (q :: ps). split; [now constructor |].
        split; [now constructor |].
        rewrite list_product_cons, Hprod, Hk'. ring. }
  apply (H (Z.to_nat k)). lia.
Qed.

(** X16: the entry for [k] does not depend on the bound: for
    [1 <= m <= n] the table for [m] is the first [m + 1] cells of the table
    for [n]. *)
Theorem mobius_list_prefix (m n : Z) :
  1 <= m <= n ->
  exists lm ln,
    _mobius_list m = Ret lm /\ _mobius_list n = Ret ln
    /\ lm = firstn (Z.to_nat (m + 1)) ln.
Proof.
  intros Hmn.
  destruct (mobius_list_table m ltac:(lia))
    as [pm [lm [Hpm [Hlm [Hlenm [Hm0 Hcellm]]]]]].
  destruct (mobius_list_table n ltac:(lia))
    as [pn [ln [Hpn [Hln [Hlenn [Hn0 Hcelln]]]]]].
  destruct (mobius_primes m ltac:(lia)) as [pm' [Hpm' [Hndm [Hprm Hsmallm]]]].
  destruct (mobius_primes n ltac:(lia)) as [pn' [Hpn' [Hndn [Hprn Hsmalln]]]].
  assert (pm' = pm) by congruence. assert (pn' = pn) by congruence. subst pm' pn'.
  exists lm, ln. split; [exact Hlm |]. split; [exact Hln |].
  apply nth_error_ext. intros j. rewrite nth_error_firstn.
  destruct (Nat.ltb_spec j (Z.to_nat (m + 1))) as [Hlt | Hge].
  - destruct j as [| j].
    + unfold cell in Hm0, Hn0. cbn [Z.to_nat] in Hm0, Hn0. congruence.
    + set (k := Z.of_nat (S j)).
      pose proof (Hcellm k ltac:(lia)) as Hkm.
      pose proof (Hcelln k ltac:(lia)) as Hkn.
      unfold cell, k in Hkm, Hkn. rewrite Nat2Z.id in Hkm, Hkn.
      rewrite Hkm, Hkn. f_equal. fold k.
      destruct (square_or_distinct_primes k ltac:(lia))
        as [[q [Hq Hdiv]] | [ps [Hnd [Hall Hprod]]]].
      * pose proof (Z.prime_ge_2 q Hq) as Hq2.
        assert (Hle : q * q <= k) by (apply Z.divide_pos_le; [lia | exact Hdiv]).
        assert (Hmod : k mod (q * q) = 0) by (apply Z.mod_divide; [nia | exact Hdiv]).
        rewrite (cell_fold_square pm q k), (cell_fold_square pn q k);
          [reflexivity | | exact Hmod | | exact Hmod].
        -- apply Hsmalln; [exact Hq | lia].
        -- apply Hsmallm; [exact Hq | lia].
      * rewrite (normalise_radical m k pm ps), (normalise_radical n k pn ps);
          try assumption; [reflexivity | lia | lia].
  - apply nth_error_None. lia.
Qed.

Lemma mobius_list_prefix_witness :
  1 <= 6 <= 30
  /\ exists lm ln,
       _mobius_list 6 = Ret lm /\ _mobius_list 30 = Ret ln
       /\ lm = firstn (Z.to_nat (6 + 1)) ln.
Proof. split; [lia |]. apply (mobius_list_prefix 6 30). lia. Defined.

(** X17: the first loop of [_mobius_list] never leaves the [np.int64]
    range: with [n < 2^63], before the round of any prime [p] of the list
    every cell [i] holds an [int64], and so is the product [mlist[i] * -p]
    that the round writes to the multiples of [p]. *)
Theorem mobius_marks_int64 (n : Z) (plist pre post : list Z) (p i v : Z) :
  1 <= n < 2 ^ 63 ->
  primes_list (isqrt n + 1) = Ret plist -> plist = pre ++ p :: post ->
  0 <= i <= n ->
  cell (fold_left mobius_mark pre (repeat 1 (Z.to_nat (n + 1)))) i = Some v ->
  - 2 ^ 63 <= v < 2 ^ 63
  /\ (i mod p = 0 -> - 2 ^ 63 <= v * - p < 2 ^ 63).
Proof.
  intros Hn Hpl Hsplit Hi Hcell.
  rewrite mobius_marks_cell, cell_repeat in Hcell by lia.
  cbn [option_map] in Hcell. injection Hcell as <-.
  exact (mobius_no_overflow n plist pre post p i Hn Hpl Hsplit Hi).
Qed.

Lemma mobius_marks_int64_witness :
  1 <= 10 < 2 ^ 63
  /\ primes_list (isqrt 10 + 1) = Ret [2; 3]
  /\ [2; 3] = [2] ++ 3 :: []
  /\ 0 <= 6 <= 10
  /\ cell (fold_left mobius_mark [2] (repeat 1 (Z.to_nat (10 + 1)))) 6 = Some (-2)
  /\ - 2 ^ 63 <= -2 < 2 ^ 63
  /\ (6 mod 3 = 0 -> - 2 ^ 63 <= -2 * - 3 < 2 ^ 63).
Proof.
  split; [lia |]. split; [reflexivity |]. split; [reflexivity |].
  split; [lia |]. split; [reflexivity |].
  apply (mobius_marks_int64 10 [2; 3] [2] [] 3 6 (-2));
    try reflexivity; lia.
Defined.

(** ** The random draws of the primality test *)

Lemma is_prime_trials_budget (k : nat) (p e d : Z) (r : rng) :
  4 <= p ->
  forall i, exists b j,
    _is_prime_trials k p e d r i = Ret (b, j) /\ (i <= j <= i + k)%nat.
Proof.
  intros Hp. induction k as [| k IH]; intros i; cbn [_is_prime_trials].
  - unfold ret. exists true, i. split; [reflexivity | lia].
  - unfold bind, randint.
    destruct (Z.ltb_spec (p - 2) 2) as [? | _]; [lia |].
    destruct (_mr_isWitness _ p e d).
    + unfold ret. exists false, (S i). split; [reflexivity | lia].
    + destruct (IH (S i)) as [b [j [Hrun Hj]]].
      exists b, j. split; [exact Hrun | lia].
Qed.

(** X18: on every integer [p] the Miller-Rabin test returns a boolean
    and raises nothing (the range [2 .. p - 2] of the bases is never
    empty where it is drawn from), and it draws at most [accuracy] random
    numbers; fuel logarithmic in [p] is enough. *)
Theorem is_prime_draw_budget (fuel : nat) (p accuracy : Z) (r : rng) (i : nat) :
  p <= 2 ^ Z.of_nat fuel ->
  exists b j,
    _is_prime fuel p accuracy r i = Ret (b, j)
    /\ (i <= j <= i + Z.to_nat accuracy)%nat.
Proof.
  intros Hfuel. unfold _is_prime.
  destruct (Z.ltb_spec p 2) as [_ | Hp2].
  { exists false, i. split; [reflexivity | lia]. }
  destruct (Z.eqb_spec p 2) as [_ | H2].
  { exists true, i. split; [reflexivity | lia]. }
  destruct (Z.eqb_spec p 3) as [_ | H3].
  { exists true, i. split; [reflexivity | lia]. }
  cbn [orb]. unfold _mr_decompose.
  destruct (mr_decompose_loop_spec fuel (p - 1) 0 ltac:(lia) ltac:(lia))
    as [e [d [Heq _]]].
  rewrite (bind_lift_Ret _ _ r i _ Heq).
  apply is_prime_trials_budget. lia.
Qed.

Lemma is_prime_draw_budget_witness :
  561 <= 2 ^ Z.of_nat 10
  /\ exists b j,
       _is_prime 10 561 5 ones O = Ret (b, j)
       /\ (O <= j <= O + Z.to_nat 5)%nat.
Proof. split; [lia |]. apply (is_prime_draw_budget 10 561 5 ones O). lia. Defined.

(** ** The small prime factors of any input *)

(** The final loop only appends: it returns the pairs recorded so far
    followed by pairs whose product is the cofactor it started from. *)
Lemma rho_phase_extends (fuel : nat) (rand : bool) (r : rng) (n0 : Z) :
  forall k s i,
    decomp_inv n0 s -> ds_n s <= Z.of_nat k -> ds_n s < Z.of_nat fuel ->
    exists ext j,
      rho_phase k fuel rand s r i = Ret (zip_lists s ++ ext, j)
      /\ factor_product ext = ds_n s.
Proof.
  induction k as [| k IH]; intros s i Hinv Hk Hfuel.
  - destruct Hinv. lia.
  - cbn [rho_phase].
    destruct (Z.eqb_spec (ds_n s) 1) as [E1 | N1].
    + unfold ret. exists [], i. rewrite app_nil_r. split; [reflexivity |].
      now rewrite E1.
    + assert (Hn2 : 2 <= ds_n s) by (destruct Hinv; lia).
      destruct (is_prime_terminates fuel (ds_n s) 100 r i ltac:(lia))
        as [b [j Hb]].
      unfold is_prime. rewrite (bind_Ret _ _ r i j b Hb).
      destruct b.
      * unfold ret. exists [(ds_n s, 1)], j.
        rewrite zip_lists_append by apply Hinv. split; [reflexivity |].
        cbn [factor_product fold_right fst snd]. rewrite Z.pow_1_r. lia.
      * destruct (pollard_rho_terminates fuel (ds_n s) rand r j Hn2 Hfuel)
          as [d [j' [Hrho [Hd Hdiv]]]].
        rewrite (bind_Ret _ _ r j j' d Hrho).
        destruct (strip_factor_spec fuel (ds_n s) d 0 (proj1 Hinv) Hd ltac:(lia))
          as [n' [e [Hstrip [He [Heq [Hn' Hnd]]]]]].
        rewrite (bind_lift_Ret _ _ r j' _ Hstrip).
        assert (He1 : 1 <= e).
        { destruct (Z.eq_dec e 0) as [-> | ?]; [| lia].
          exfalso. apply Hnd. rewrite Z.pow_0_r, Z.mul_1_r in Heq.
          now rewrite <- Heq. }
        assert (Hpow : d <= d ^ e).
        { replace e with (1 + (e - 1)) by lia.
          rewrite Z.pow_add_r, Z.pow_1_r by lia.
          assert (0 < d ^ (e - 1)) by (apply Z.pow_pos_nonneg; lia). nia. }
        rewrite Z.add_0_l.
        destruct (IH (append_factor s n' d e) j') as [ext [j'' [Hrun Hext]]].
        -- now apply decomp_inv_append.
        -- cbn [append_factor ds_n]. nia.
        -- cbn [append_factor ds_n]. nia.
        -- exists ((d, e) :: ext), j''. split.
           ++ rewrite Hrun, zip_lists_append by apply Hinv.
              now rewrite <- app_assoc.
           ++ rewrite factor_product_cons, Hext.
              cbn [append_factor ds_n]. rewrite Heq. ring.
Qed.

(** Every run splits into a canonical part, found by trial division, and
    pairs whose product has no prime factor below 10000. *)
Lemma decomposition_split (n : Z) (fuel : nat) (rand : bool) (r : rng) (i : nat) :
  1 <= n -> n < Z.of_nat fuel ->
  exists small ext,
    result (prime_divisor_decomposition fuel n rand r i) = Ret (small ++ ext)
    /\ canonical_factorization small
    /\ forall q, Z.prime q -> (q | factor_product ext) -> 10000 <= q.
Proof.
  intros Hn Hfuel. destruct P10K_spec as [HPsorted HPspec].
  unfold prime_divisor_decomposition.
  destruct (strip_factor_spec fuel n 2 0 Hn ltac:(lia) ltac:(lia))
    as [n' [e [Hstrip [He [Heq [Hn' Hnd]]]]]].
  rewrite (bind_lift_Ret _ _ r i _ Hstrip). rewrite Z.add_0_l.
  set (s := if e =? 0 then mk_dstate n' [] [] else mk_dstate n' [2] [e]).
  assert (Hle : n' <= n).
  { assert (0 < 2 ^ e) by (apply Z.pow_pos_nonneg; lia). nia. }
  assert (Hinv : trial_inv n P10K s) by now apply trial_inv_init.
  assert (Hs : ds_n s = n') by (unfold s; now destruct (e =? 0)).
  destruct (trial_division_canonical fuel n P10K HPsorted (fun p H => H) s Hinv
              ltac:(lia))
    as [[l [Htd Hl]] | [s' [Htd [Hinv' Hle']]]];
    rewrite (bind_lift_Ret _ _ r i _ Htd).
  - exists l, []. rewrite app_nil_r. split; [reflexivity |].
    split; [exact Hl |].
    intros q Hq Hdiv. cbn in Hdiv. apply Z.divide_1_r_nonneg in Hdiv.
    + pose proof (Z.prime_ge_2 q Hq). lia.
    + pose proof (Z.prime_ge_2 q Hq). lia.
  - destruct (rho_phase_extends fuel rand r n fuel s' i (t_inv _ _ _ Hinv')
                ltac:(lia) ltac:(lia)) as [ext [j [Hrun Hext]]].
    exists (zip_lists s'), ext. rewrite Hrun. split; [reflexivity |].
    split; [now apply (trial_inv_canonical n []) |].
    intros q Hq Hdiv. rewrite Hext in Hdiv.
    destruct (t_cofactor _ _ _ Hinv' q Hq Hdiv) as [H | []]. exact H.
Qed.

Lemma pow_divide_cancel (q A C k : Z) :
  Z.prime q -> ~ (q | C) -> 0 <= k -> (q ^ k | A * C) -> (q ^ k | A).
Proof.
  intros Hq Hnd Hk Hdiv. rewrite Z.mul_comm in Hdiv.
  apply (Z.gauss _ _ _ Hdiv).
  apply Z.coprime_pow_l; [exact Hk |]. now apply Z.coprime_prime_l.
Qed.

(** X19: for every [n >= 1], whatever the [rand] flag and the random
    draws, the decomposition is exact on the primes below 10000: such a
    prime is among the returned factors exactly when it divides [n], and
    its exponent is then its exact power in [n]. *)
Theorem decomposition_small_primes (n : Z) (fuel : nat) (rand : bool)
    (r : rng) (i : nat) :
  1 <= n -> n < Z.of_nat fuel ->
  exists l,
    result (prime_divisor_decomposition fuel n rand r i) = Ret l
    /\ forall q, Z.prime q -> q < 10000 ->
         ((q | n) <-> In q (map fst l))
         /\ forall e, In (q, e) l -> (q ^ e | n) /\ ~ (q ^ (e + 1) | n).
Proof.
  intros Hn Hfuel.
  destruct (decomposition_split n fuel rand r i Hn Hfuel)
    as [small [ext [Hrun [Hcanon Hlarge]]]].
  destruct (decomposition_returns n Hn fuel rand r i Hfuel) as [l [Hl [Hprod Hgood]]].
  rewrite Hrun in Hl. injection Hl as <-.
  exists (small ++ ext). split; [exact Hrun |].
  intros q Hq Hsmall. pose proof (Z.prime_ge_2 q Hq) as Hq2.
  assert (Hext : forall e, In (q, e) ext -> False).
  { intros e Hin.
    assert (He : 1 <= e).
    { apply Forall_app in Hgood. destruct Hgood as [_ Hgood].
      exact (proj2 (proj1 (Forall_forall _ _) Hgood _ Hin)). }
    assert (Hdiv : (q | factor_product ext)).
    { apply Z.divide_trans with (q ^ e); [now apply Z.divide_pow_same_r |].
      now apply In_factor_divides. }
    pose proof (Hlarge q Hq Hdiv). lia. }
  assert (Hfree : ~ (q | factor_product ext)).
  { intros Hdiv. pose proof (Hlarge q Hq Hdiv). lia. }
  rewrite factor_product_app in Hprod. split.
  - split.
    + intros Hdiv. rewrite <- Hprod in Hdiv.
      apply Z.divide_prime_mul in Hdiv; [| exact Hq].
      destruct Hdiv as [Hdiv | Hdiv]; [| contradiction].
      rewrite map_app. apply in_or_app. left.
      now apply prime_divides_factor_product; [| apply Hcanon |].
    + intros Hin. apply in_map_iff in Hin. destruct Hin as [[p e] [Heq Hin]].
      cbn [fst] in Heq. subst p.
      apply in_app_or in Hin. destruct Hin as [Hin | Hin]; [| now destruct (Hext e)].
      destruct Hcanon as [Hpairs _].
      pose proof (proj1 (Forall_forall _ _) Hpairs _ Hin) as [_ He]. cbn [snd] in He.
      rewrite <- Hprod. apply Z.divide_mul_l.
      apply Z.divide_trans with (q ^ e); [now apply Z.divide_pow_same_r |].
      now apply In_factor_divides.
  - intros e Hin.
    apply in_app_or in Hin. destruct Hin as [Hin | Hin]; [| now destruct (Hext e)].
    assert (He : 1 <= e).
    { destruct Hcanon as [Hpairs _].
      exact (proj2 (proj1 (Forall_forall _ _) Hpairs _ Hin)). }
    rewrite <- Hprod. split.
    + apply Z.divide_mul_l. now apply In_factor_divides.
    + intros Hdiv. apply (canonical_exact_exponent small q e Hcanon Hin).
      apply (pow_divide_cancel q _ (factor_product ext)); [exact Hq | exact Hfree | lia |].
      exact Hdiv.
Qed.

Lemma decomposition_small_primes_witness :
  1 <= 360 /\ 360 < Z.of_nat 400
  /\ exists l,
       result (prime_divisor_decomposition 400 360 true ones O) = Ret l
       /\ forall q, Z.prime q -> q < 10000 ->
            ((q | 360) <-> In q (map fst l))
            /\ forall e, In (q, e) l -> (q ^ e | 360) /\ ~ (q ^ (e + 1) | 360).
Proof.
  split; [lia |]. split; [lia |].
  apply (decomposition_small_primes 360 400 true ones O); lia.
Defined.
